(** * gorgeous-hunks: diff parser, hunk manipulator, plan model and executor

    A shallow embedding of [parser.ts], [manipulator.ts], [llm-interface.ts]
    and [interactive.ts], followed by the properties of the specification
    that were checked against it.

    Modelling conventions.
    - A JavaScript string is a [string]: a sequence of 8-bit code units.
      Within that range the line terminators of the regex [.] are LF and CR,
      and the white space of [\s] and [trim] is TAB, LF, VT, FF, CR, SPACE
      and NBSP.
    - A JavaScript number that holds a line number, a count or an index is
      a [nat]. The numbers of the source are doubles: they are exact below
      2^53, round above it, and print in exponent notation from 10^21 on.
      The model is exact throughout, so it is the code on the numbers
      below 2^53 ([safe]); a property that prints a number, reads a
      printed number back or counts line numbers upwards states that
      bound as a hypothesis.
    - [undefined] and [null] are [None].
    - Arrays are lists; [push] appends at the end. *)

From Stdlib Require Import String Ascii List Arith NArith Bool Lia.
From Stdlib Require Import Permutation.
From Stdlib Require Import Decimal DecimalString DecimalNat.
Import ListNotations.
Open Scope string_scope.
Open Scope list_scope.

(** String concatenation (JavaScript [+] and template strings). *)
Infix "+++" := String.append (right associativity, at level 60).

Declare Scope opt_scope.
Notation "'do' x <- e ; k" :=
  (match e with Some x => k | None => None end)
  (at level 10, x pattern, e at level 100, k at level 200) : opt_scope.
Notation "'guard' b ; k" :=
  (if b then k else None)
  (at level 10, b at level 100, k at level 200) : opt_scope.
Open Scope opt_scope.

(** ** JavaScript string primitives *)

Module Str.

Definition nonempty (s : string) : bool :=
  match s with EmptyString => false | String _ _ => true end.

(** [strip_prefix p s] is the rest of [s] after the literal [p]. *)
Fixpoint strip_prefix (p s : string) : option string :=
  match p with
  | EmptyString => Some s
  | String a p' =>
      match s with
      | String b s' => if Ascii.eqb a b then strip_prefix p' s' else None
      | EmptyString => None
      end
  end.

(** [s.startsWith(p)] *)
Definition startsWith (p s : string) : bool :=
  match strip_prefix p s with Some _ => true | None => false end.

Definition is_digit (c : ascii) : bool :=
  let n := nat_of_ascii c in ((48 <=? n) && (n <=? 57))%nat.

(** The class [\s], on 8-bit code units. *)
Definition is_ws (c : ascii) : bool :=
  let n := nat_of_ascii c in
  (((9 <=? n) && (n <=? 13)) || (n =? 32) || (n =? 160))%nat.

(** What the regex [.] refuses. *)
Definition is_line_terminator (c : ascii) : bool :=
  let n := nat_of_ascii c in ((n =? 10) || (n =? 13))%nat.

Fixpoint has_line_terminator (s : string) : bool :=
  match s with
  | EmptyString => false
  | String c s' => is_line_terminator c || has_line_terminator s'
  end.

Definition lower (c : ascii) : ascii :=
  let n := nat_of_ascii c in
  if ((65 <=? n) && (n <=? 90))%nat then ascii_of_nat (n + 32) else c.

(** A literal matched under the [i] flag. *)
Fixpoint strip_prefix_ci (p s : string) : option string :=
  match p with
  | EmptyString => Some s
  | String a p' =>
      match s with
      | String b s' =>
          if Ascii.eqb (lower a) (lower b) then strip_prefix_ci p' s' else None
      | EmptyString => None
      end
  end.

(** The longest prefix of characters in a class, and what follows it:
    a greedy [c*] that never has to give anything back. *)
Fixpoint span (f : ascii -> bool) (s : string) : string * string :=
  match s with
  | EmptyString => (EmptyString, EmptyString)
  | String c s' =>
      if f c then let (a, b) := span f s' in (String c a, b)
      else (EmptyString, s)
  end.

Definition take_digits : string -> string * string := span is_digit.
Definition skip_ws (s : string) : string := snd (span is_ws s).

(** [\d+] : a non-empty run of digits. *)
Definition digits1 (s : string) : option (string * string) :=
  let (d, r) := take_digits s in
  guard nonempty d; Some (d, r).

(** [\s+] : a non-empty run of white space. *)
Definition ws1 (s : string) : option string :=
  let (w, r) := span is_ws s in
  guard nonempty w; Some r.

Fixpoint last_char (s : string) : option ascii :=
  match s with
  | EmptyString => None
  | String c EmptyString => Some c
  | String _ s' => last_char s'
  end.

(** [\s*(.+)$] : the white space is taken greedily and the group is what
    is left; when nothing is left the white space gives back its last
    character.  The group never holds a line terminator. *)
Definition ws_then_rest (s : string) : option string :=
  let r := skip_ws s in
  if nonempty r then guard negb (has_line_terminator r); Some r
  else
    do c <- last_char s;
    guard negb (is_line_terminator c); Some (String c EmptyString).

Fixpoint rev_string (acc s : string) : string :=
  match s with
  | EmptyString => acc
  | String c s' => rev_string (String c acc) s'
  end.

(** [s.trim()] *)
Definition trim (s : string) : string :=
  rev_string EmptyString (skip_ws (rev_string EmptyString (skip_ws s))).

(** [parseInt(s, 10)] for [s] a run of digits: the number the digits
    denote, which is what the source computes when that number is below
    2^53 (above it the source rounds to a double). *)
Definition parseInt (s : string) : nat :=
  match NilEmpty.uint_of_string s with
  | Some d => Nat.of_uint d
  | None => 0
  end.

(** [String(n)] for a non-negative integer: its decimal digits, which is
    what the source prints for the integers below 10^21 (from there on it
    prints exponent notation). *)
Definition string_of_nat (n : nat) : string :=
  NilEmpty.string_of_uint (Nat.to_uint n).

Definition LF : ascii := ascii_of_nat 10.
Definition nl : string := String LF EmptyString.

(** [s.split('\n')] : never empty; the last piece is what follows the
    last line feed. *)
Fixpoint split_nl (s : string) : list string :=
  match s with
  | EmptyString => [EmptyString]
  | String c s' =>
      if Ascii.eqb c LF then EmptyString :: split_nl s'
      else match split_nl s' with
           | l :: ls => String c l :: ls
           | [] => [String c EmptyString]
           end
  end.

(** [ls.join(sep)] *)
Fixpoint join (sep : string) (ls : list string) : string :=
  match ls with
  | [] => EmptyString
  | [l] => l
  | l :: ls' => l +++ sep +++ join sep ls'
  end.

Definition join_nl : list string -> string := join nl.

Fixpoint has_nl (s : string) : bool :=
  match s with
  | EmptyString => false
  | String c s' => Ascii.eqb c LF || has_nl s'
  end.

End Str.

(** ** types.ts *)

Inductive LineType := Context | Add | Remove.

Definition LineType_eqb (a b : LineType) : bool :=
  match a, b with
  | Context, Context | Add, Add | Remove, Remove => true
  | _, _ => false
  end.

Record DiffLine := mkLine { type : LineType; content : string }.

Record Hunk := mkHunk {
  id : string;
  file : string;
  index : nat;
  header : string;
  oldStart : nat;
  oldCount : nat;
  newStart : nat;
  newCount : nat;
  lines : list DiffLine;
  context : option string
}.

Record FileDiff := mkFile {
  oldPath : string;
  newPath : string;
  isNew : bool;
  isDeleted : bool;
  isRenamed : bool;
  hunks : list Hunk
}.

(** A [ParsedDiff] is its [files]; the three helper methods are the
    functions [getAllHunks], [getHunk] and [getFileHunks] below. *)
Record ParsedDiff := mkParsed { files : list FileDiff }.

Definition olist {A} (o : option A) : list A :=
  match o with Some a => [a] | None => [] end.

(** ** parser.ts *)

Module Parser.
Import Str.

(** [FILE_HEADER_REGEX = /^diff --git a\/(.+) b\/(.+)$/].

    [greedy_b s] finds the longest [g] with [s = g ++ " b/" ++ t] and [t]
    not empty: the first group is greedy, so the separator chosen is the
    last one that leaves something for the second group. *)
Fixpoint greedy_b (s : string) : option (string * string) :=
  match s with
  | EmptyString => None
  | String c s' =>
      match greedy_b s' with
      | Some (g, t) => Some (String c g, t)
      | None =>
          do t <- strip_prefix " b/" s;
          guard nonempty t; Some (EmptyString, t)
      end
  end.

Definition match_file_header (line : string) : option (string * string) :=
  do r <- strip_prefix "diff --git a/" line;
  guard negb (has_line_terminator r);
  match r with
  | String c r' => do (g, t) <- greedy_b r'; Some (String c g, t)
  | EmptyString => None
  end.

(** [HUNK_HEADER_REGEX]: the literal [@@ -], a group [(\d+)], an optional
    [,(\d+)], the literal [ +], a group [(\d+)], an optional [,(\d+)], the
    literal [ @@], and a last group that takes every character up to the
    end of the line.  Each token starts with a character the one before
    it cannot take, so the greedy match is the only one. *)
Record HeaderMatch := mkHeaderMatch {
  g_oldStart : string;
  g_oldCount : option string;
  g_newStart : string;
  g_newCount : option string;
  g_context : string
}.

(** [(?:,(\d+))?] *)
Definition opt_count (s : string) : option string * string :=
  match s with
  | String "," r =>
      match digits1 r with
      | Some (d, r') => (Some d, r')
      | None => (None, s)
      end
  | _ => (None, s)
  end.

Definition match_hunk_header (line : string) : option HeaderMatch :=
  do r1 <- strip_prefix "@@ -" line;
  do (os, r2) <- digits1 r1;
  let (oc, r3) := opt_count r2 in
  do r4 <- strip_prefix " +" r3;
  do (ns, r5) <- digits1 r4;
  let (nc, r6) := opt_count r5 in
  do ctx <- strip_prefix " @@" r6;
  guard negb (has_line_terminator ctx);
  Some (mkHeaderMatch os oc ns nc ctx).

(** [count ? parseInt(count, 10) : 1] *)
Definition count_or_1 (g : option string) : nat :=
  match g with Some d => parseInt d | None => 1 end.

(** [context.trim() || undefined] *)
Definition context_of (g : string) : option string :=
  let t := trim g in if nonempty t then Some t else None.

(** The hunk opened at a hunk header (lines 91-103). *)
Definition newHunk (path : string) (hunkIndex : nat) (line : string)
  (m : HeaderMatch) : Hunk :=
  {| id := path +++ ":" +++ string_of_nat hunkIndex;
     file := path;
     index := hunkIndex;
     header := line;
     oldStart := parseInt (g_oldStart m);
     oldCount := count_or_1 (g_oldCount m);
     newStart := parseInt (g_newStart m);
     newCount := count_or_1 (g_newCount m);
     lines := [];
     context := context_of (g_context m) |}.

Record PState := mkPState {
  st_files : list FileDiff;
  currentFile : option FileDiff;
  currentHunk : option Hunk;
  hunkIndex : nat
}.

Definition push_hunks (f : FileDiff) (hs : list Hunk) : FileDiff :=
  {| oldPath := oldPath f; newPath := newPath f; isNew := isNew f;
     isDeleted := isDeleted f; isRenamed := isRenamed f;
     hunks := hunks f ++ hs |}.

Definition set_isNew (f : FileDiff) : FileDiff :=
  {| oldPath := oldPath f; newPath := newPath f; isNew := true;
     isDeleted := isDeleted f; isRenamed := isRenamed f; hunks := hunks f |}.

Definition set_isDeleted (f : FileDiff) : FileDiff :=
  {| oldPath := oldPath f; newPath := newPath f; isNew := isNew f;
     isDeleted := true; isRenamed := isRenamed f; hunks := hunks f |}.

Definition push_line (h : Hunk) (l : DiffLine) : Hunk :=
  {| id := id h; file := file h; index := index h; header := header h;
     oldStart := oldStart h; oldCount := oldCount h;
     newStart := newStart h; newCount := newCount h;
     lines := lines h ++ [l]; context := context h |}.

Definition other_meta (m : string) : bool :=
  startsWith "index " m || startsWith "--- " m || startsWith "+++ " m ||
  startsWith "old mode" m || startsWith "new mode" m ||
  startsWith "similarity index" m || startsWith "rename from" m ||
  startsWith "rename to" m || startsWith "Binary files" m.

(** One turn of the look-ahead loop (lines 56-79) on [metaLine]:
    [Some] is the state after the line was consumed, [None] is [break]. *)
Definition meta_step (st : PState) (metaLine : string) : option PState :=
  do f <- currentFile st;
  if startsWith "new file mode" metaLine then
    Some (mkPState (st_files st) (Some (set_isNew f)) (currentHunk st)
            (hunkIndex st))
  else if startsWith "deleted file mode" metaLine then
    Some (mkPState (st_files st) (Some (set_isDeleted f)) (currentHunk st)
            (hunkIndex st))
  else if other_meta metaLine then Some st
  else None.

(** A file header was matched (lines 33-52). *)
Definition open_file (st : PState) (oldP newP : string) : PState :=
  let f := {| oldPath := oldP; newPath := newP; isNew := false;
              isDeleted := false; isRenamed := negb (String.eqb oldP newP);
              hunks := [] |} in
  match currentFile st with
  | Some cf =>
      mkPState (st_files st ++ [push_hunks cf (olist (currentHunk st))])
        (Some f) None 0
  | None => mkPState (st_files st) (Some f) (currentHunk st) 0
  end.

(** A body line (lines 110-122). *)
Definition body_step (st : PState) (line : string) : PState :=
  match currentHunk st, line with
  | Some h, String prefix content =>
      let push t :=
        mkPState (st_files st) (currentFile st)
          (Some (push_line h (mkLine t content))) (hunkIndex st) in
      if Ascii.eqb prefix " " then push Context
      else if Ascii.eqb prefix "-" then push Remove
      else if Ascii.eqb prefix "+" then push Add
      else st
  | _, _ => st
  end.

(** One turn of the main loop (lines 27-125) on [line], outside the
    look-ahead; the boolean tells whether control enters the look-ahead
    loop next. *)
Definition main_step (st : PState) (line : string) : PState * bool :=
  match match_file_header line with
  | Some (oldP, newP) => (open_file st oldP newP, true)
  | None =>
      match match_hunk_header line, currentFile st with
      | Some m, Some cf =>
          (mkPState (st_files st)
             (Some (push_hunks cf (olist (currentHunk st))))
             (Some (newHunk (newPath cf) (hunkIndex st) line m))
             (S (hunkIndex st)), false)
      | _, _ => (body_step st line, false)
      end
  end.

(** The two nested [while] loops share the cursor [lineIndex]; [inMeta]
    records that control is inside the look-ahead loop, whose [break]
    hands the same line to the main loop. *)
Fixpoint parseLoop (inMeta : bool) (st : PState) (ls : list string) : PState :=
  match ls with
  | [] => st
  | line :: rest =>
      match (if inMeta then meta_step st line else None) with
      | Some st' => parseLoop true st' rest
      | None => let (st', m) := main_step st line in parseLoop m st' rest
      end
  end.

(** Lines 127-133. *)
Definition finish (st : PState) : list FileDiff :=
  match currentFile st with
  | Some cf => st_files st ++ [push_hunks cf (olist (currentHunk st))]
  | None => st_files st
  end.

Definition init : PState := mkPState [] None None 0.

Definition parseLines (ls : list string) : list FileDiff :=
  finish (parseLoop false init ls).

Definition parseDiff (diffString : string) : ParsedDiff :=
  mkParsed (parseLines (split_nl diffString)).

Definition getAllHunks (d : ParsedDiff) : list Hunk :=
  flat_map hunks (files d).

Fixpoint getHunk_files (fs : list FileDiff) (i : string) : option Hunk :=
  match fs with
  | [] => None
  | f :: fs' =>
      match find (fun h => String.eqb (id h) i) (hunks f) with
      | Some h => Some h
      | None => getHunk_files fs' i
      end
  end.

Definition getHunk (d : ParsedDiff) (i : string) : option Hunk :=
  getHunk_files (files d) i.

Definition getFileHunks (d : ParsedDiff) (filePath : string) : list Hunk :=
  match find (fun f => String.eqb (newPath f) filePath ||
                       String.eqb (oldPath f) filePath) (files d) with
  | Some f => hunks f
  | None => []
  end.

Definition parseHunkHeader (h : string)
  : option (nat * nat * nat * nat * option string) :=
  do m <- match_hunk_header h;
  Some (parseInt (g_oldStart m), count_or_1 (g_oldCount m),
        parseInt (g_newStart m), count_or_1 (g_newCount m),
        context_of (g_context m)).

Definition count_type (t : LineType) (ls : list DiffLine) : nat :=
  length (filter (fun l => LineType_eqb (type l) t) ls).

Definition validateHunk (h : Hunk) : bool * option string :=
  let contextCount := count_type Context (lines h) in
  let removeCount := count_type Remove (lines h) in
  let addCount := count_type Add (lines h) in
  let expectedOldCount := contextCount + removeCount in
  let expectedNewCount := contextCount + addCount in
  if negb (expectedOldCount =? oldCount h)%nat then
    (false, Some ("Old count mismatch: header says " +++
                  string_of_nat (oldCount h) +++ ", actual is " +++
                  string_of_nat expectedOldCount))
  else if negb (expectedNewCount =? newCount h)%nat then
    (false, Some ("New count mismatch: header says " +++
                  string_of_nat (newCount h) +++ ", actual is " +++
                  string_of_nat expectedNewCount))
  else (true, None).

End Parser.

(** ** manipulator.ts *)

Module Manipulator.
Import Str.

Definition is_context (l : DiffLine) : bool := LineType_eqb (type l) Context.

(** The loop of [isSplittable] (lines 12-30); [true] is the [break] with
    [foundGap] set. *)
Fixpoint isSplittable_loop (minContextGap : nat) (inChangeGroup : bool)
  (contextCount : nat) (ls : list DiffLine) : bool :=
  match ls with
  | [] => false
  | line :: rest =>
      if is_context line then
        if inChangeGroup then
          let contextCount' := S contextCount in
          if (minContextGap <=? contextCount')%nat
          then isSplittable_loop minContextGap false contextCount' rest
          else isSplittable_loop minContextGap true contextCount' rest
        else isSplittable_loop minContextGap false contextCount rest
      else
        if negb inChangeGroup && (minContextGap <=? contextCount)%nat
           && (0 <? contextCount)%nat
        then true
        else isSplittable_loop minContextGap true 0 rest
  end.

Definition isSplittable (hunk : Hunk) (minContextGap : nat) : bool :=
  isSplittable_loop minContextGap false 0 (lines hunk).

(** The state of the grouping loop of [splitHunk] (lines 43-78). *)
Record SplitState := mkSplit {
  groups : list (list DiffLine);
  currentGroup : list DiffLine;
  contextBuffer : list DiffLine;
  inChangeGroup : bool
}.

Definition split_step (minContextGap : nat) (s : SplitState)
  (line : DiffLine) : SplitState :=
  if is_context line then
    let buf := contextBuffer s ++ [line] in
    if inChangeGroup s && (minContextGap <=? length buf)%nat then
      let k := Nat.min minContextGap (length buf) in
      let trailingContext := firstn k buf in
      mkSplit (groups s ++ [currentGroup s ++ trailingContext])
        (skipn k buf) buf false
    else mkSplit (groups s) (currentGroup s) buf (inChangeGroup s)
  else
    let g :=
      if negb (inChangeGroup s) && (length (currentGroup s) =? 0)%nat
      then contextBuffer s
      else currentGroup s ++ contextBuffer s in
    mkSplit (groups s) (g ++ [line]) [] true.

Definition split_groups (minContextGap : nat) (ls : list DiffLine)
  : list (list DiffLine) :=
  let s := fold_left (split_step minContextGap) ls (mkSplit [] [] [] false) in
  if (0 <? length (currentGroup s))%nat
  then groups s ++ [currentGroup s ++ contextBuffer s]
  else groups s.

(** Lines counted on the old side (everything but additions) and on the
    new side (everything but removals). *)
Definition old_lines (ls : list DiffLine) : nat :=
  length (filter (fun l => negb (LineType_eqb (type l) Add)) ls).

Definition new_lines (ls : list DiffLine) : nat :=
  length (filter (fun l => negb (LineType_eqb (type l) Remove)) ls).

(** The counting loop written three times in the source (lines 101-110,
    265-274 and 325-334). *)
Fixpoint count_loop (oldCount newCount : nat) (ls : list DiffLine)
  : nat * nat :=
  match ls with
  | [] => (oldCount, newCount)
  | l :: rest =>
      match type l with
      | Context => count_loop (S oldCount) (S newCount) rest
      | Remove => count_loop (S oldCount) newCount rest
      | Add => count_loop oldCount (S newCount) rest
      end
  end.

(** [hunk.context ? ' ' + hunk.context : ''] *)
Definition contextPart (c : option string) : string :=
  match c with
  | Some c' => if nonempty c' then " " +++ c' else ""
  | None => ""
  end.

Definition header_text (oStart oCount nStart nCount : nat)
  (c : option string) : string :=
  "@@ -" +++ string_of_nat oStart +++ "," +++ string_of_nat oCount +++
  " +" +++ string_of_nat nStart +++ "," +++ string_of_nat nCount +++
  " @@" +++ contextPart c.

(** Lines 92-134: groups back to hunks. *)
Fixpoint groups_to_hunks (hunk : Hunk) (oldLine newLine groupIndex : nat)
  (gs : list (list DiffLine)) : list Hunk :=
  match gs with
  | [] => []
  | group :: rest =>
      let (subOldCount, subNewCount) := count_loop 0 0 group in
      let subHunk :=
        {| id := file hunk +++ ":" +++ string_of_nat (index hunk) +++ "." +++
                 string_of_nat groupIndex;
           file := file hunk;
           index := index hunk;
           header := header_text oldLine subOldCount newLine subNewCount
                       (context hunk);
           oldStart := oldLine;
           oldCount := subOldCount;
           newStart := newLine;
           newCount := subNewCount;
           lines := group;
           context := context hunk |} in
      subHunk ::
      groups_to_hunks hunk (oldLine + old_lines group)
        (newLine + new_lines group) (S groupIndex) rest
  end.

Definition splitHunk (hunk : Hunk) (minContextGap : nat) : list Hunk :=
  if negb (isSplittable hunk minContextGap) then [hunk]
  else groups_to_hunks hunk (oldStart hunk) (newStart hunk) 0
         (split_groups minContextGap (lines hunk)).

Definition selectHunks (d : ParsedDiff) (ids : list string) : list Hunk :=
  filter (fun h => existsb (String.eqb (id h)) ids) (Parser.getAllHunks d).

(** A [Map] keyed by strings, iterated in insertion order:
    [existing = m.get(k) || []; existing.push(v); m.set(k, existing)]. *)
Fixpoint map_push {A} (m : list (string * list A)) (k : string) (v : A)
  : list (string * list A) :=
  match m with
  | [] => [(k, [v])]
  | (k', vs) :: m' =>
      if String.eqb k' k then (k', vs ++ [v]) :: m'
      else (k', vs) :: map_push m' k v
  end.

Definition byFile (hs : list Hunk) : list (string * list Hunk) :=
  fold_left (fun m h => map_push m (file h) h) hs [].

(** [[...fileHunks].sort((a, b) => a.oldStart - b.oldStart)]: the sort of
    an array is stable, so the result is the stable sort by [oldStart]. *)
Fixpoint insert_hunk (h : Hunk) (l : list Hunk) : list Hunk :=
  match l with
  | [] => [h]
  | y :: ys =>
      if (oldStart h <=? oldStart y)%nat then h :: y :: ys
      else y :: insert_hunk h ys
  end.

Definition sort_hunks (l : list Hunk) : list Hunk :=
  fold_right insert_hunk [] l.

Definition line_prefix (t : LineType) : string :=
  match t with Context => " " | Add => "+" | Remove => "-" end.

Definition render_line (l : DiffLine) : string :=
  line_prefix (type l) +++ content l.

Definition hunk_section (h : Hunk) : list string :=
  header h :: map render_line (lines h).

Definition file_section (fh : string * list Hunk) : list string :=
  let (f, fileHunks) := fh in
  ("diff --git a/" +++ f +++ " b/" +++ f) ::
  ("--- a/" +++ f) ::
  ("+++ b/" +++ f) ::
  flat_map hunk_section (sort_hunks fileHunks).

Definition sections (hs : list Hunk) : list string :=
  flat_map file_section (byFile hs).

Definition generatePatch (hs : list Hunk) : string :=
  match hs with
  | [] => ""
  | _ => join_nl (sections hs) +++ nl
  end.

Definition recalculateHeader (hunk : Hunk) : string :=
  let (oldCount, newCount) := count_loop 0 0 (lines hunk) in
  header_text (oldStart hunk) oldCount (newStart hunk) newCount
    (context hunk).

Record Modifications := mkMods {
  removeAdditions : option (list nat);
  keepRemovals : option (list nat)
}.

(** [new Set(xs || [])] and its [has]. *)
Definition set_of (xs : option (list nat)) : list nat :=
  match xs with Some l => l | None => [] end.

Definition has (s : list nat) (i : nat) : bool := existsb (Nat.eqb i) s.

(** The loop of [editHunk] (lines 298-315), from index [i] on. *)
Fixpoint edit_lines (removeAddSet keepRemovalSet : list nat) (i : nat)
  (ls : list DiffLine) : list DiffLine :=
  match ls with
  | [] => []
  | line :: rest =>
      let tl := edit_lines removeAddSet keepRemovalSet (S i) rest in
      match type line with
      | Add => if negb (has removeAddSet i) then line :: tl else tl
      | Remove =>
          if has keepRemovalSet i
          then mkLine Context (content line) :: tl
          else line :: tl
      | Context => line :: tl
      end
  end.

Definition with_lines (h : Hunk) (ls : list DiffLine) : Hunk :=
  {| id := id h; file := file h; index := index h; header := header h;
     oldStart := oldStart h; oldCount := oldCount h;
     newStart := newStart h; newCount := newCount h;
     lines := ls; context := context h |}.

Definition editHunk (hunk : Hunk) (modifications : Modifications) : Hunk :=
  let removeAddSet := set_of (removeAdditions modifications) in
  let keepRemovalSet := set_of (keepRemovals modifications) in
  let newLines := edit_lines removeAddSet keepRemovalSet 0 (lines hunk) in
  let editedHunk := with_lines hunk newLines in
  let (oldCount, newCount) := count_loop 0 0 newLines in
  {| id := id editedHunk; file := file editedHunk;
     index := index editedHunk;
     header := recalculateHeader
                 {| id := id editedHunk; file := file editedHunk;
                    index := index editedHunk; header := header editedHunk;
                    oldStart := oldStart editedHunk; oldCount := oldCount;
                    newStart := newStart editedHunk; newCount := newCount;
                    lines := newLines; context := context editedHunk |};
     oldStart := oldStart editedHunk; oldCount := oldCount;
     newStart := newStart editedHunk; newCount := newCount;
     lines := newLines; context := context editedHunk |}.

(** [/^(.+:\d+):(\d+)$/]: the text after the last colon is the second
    group; the text before it ends with a colon and a run of digits.
    Digits hold no colon, so the match, when there is one, is unique. *)
Fixpoint split_last_colon (s : string) : option (string * string) :=
  match s with
  | EmptyString => None
  | String c s' =>
      match split_last_colon s' with
      | Some (a, b) => Some (String c a, b)
      | None => guard Ascii.eqb c ":"; Some (EmptyString, s')
      end
  end.

(** A non-empty run of digits and nothing else. *)
Definition is_number (s : string) : bool :=
  let (d, r) := take_digits s in nonempty d && negb (nonempty r).

Definition match_line_id (i : string) : option (string * string) :=
  guard negb (has_line_terminator i);
  do (base, d2) <- split_last_colon i;
  guard is_number d2;
  do (a, d1) <- split_last_colon base;
  guard is_number d1;
  guard nonempty a;
  Some (base, d2).

(** [parseHunkId]: the base id and, for a three-part id, the line index. *)
Definition parseHunkId (i : string) : string * option nat :=
  match match_line_id i with
  | Some (base, d2) => (base, Some (parseInt d2))
  | None => (i, None)
  end.

(** [m.get(k)] on the maps built by [map_push]. *)
Fixpoint map_find {A} (m : list (string * list A)) (k : string)
  : option (list A) :=
  match m with
  | [] => None
  | (k', vs) :: m' => if String.eqb k' k then Some vs else map_find m' k
  end.

(** The first loop of [selectHunksWithLines] (lines 177-186): the ids of
    whole hunks, and the line indices asked for under each base id (a
    [Set] there, read here only through [has]). *)
Definition classify_id (acc : list string * list (string * list nat))
  (i : string) : list string * list (string * list nat) :=
  let (wholeHunkIds, linesByHunk) := acc in
  match parseHunkId i with
  | (baseId, Some lineIndex) =>
      (wholeHunkIds, map_push linesByHunk baseId lineIndex)
  | (baseId, None) => (wholeHunkIds ++ [baseId], linesByHunk)
  end.

(** Lines 195-198: the positions of the additions that were not asked
    for, from position [i] on. *)
Fixpoint unselected_additions (selected : list nat) (i : nat)
  (ls : list DiffLine) : list nat :=
  match ls with
  | [] => []
  | l :: rest =>
      if LineType_eqb (type l) Add && negb (has selected i)
      then i :: unselected_additions selected (S i) rest
      else unselected_additions selected (S i) rest
  end.

Definition selectHunksWithLines (d : ParsedDiff) (ids : list string)
  : list Hunk :=
  let (wholeHunkIds, linesByHunk) := fold_left classify_id ids ([], []) in
  flat_map
    (fun hunk =>
       if existsb (String.eqb (id hunk)) wholeHunkIds then [hunk]
       else match map_find linesByHunk (id hunk) with
            | Some selected =>
                [editHunk hunk
                   (mkMods
                      (Some (unselected_additions selected 0 (lines hunk)))
                      None)]
            | None => []
            end)
    (Parser.getAllHunks d).

(** [groupHunks(hunks, label).toPatch()] *)
Definition groupHunks_toPatch (hs : list Hunk) (label : string) : string :=
  generatePatch hs.

End Manipulator.

(** ** llm-interface.ts *)

Module LLM.
Import Str Manipulator.

Record IndexedLine := mkIndexed {
  il_index : nat;
  il_type : LineType;
  il_content : string;
  oldLineNo : option nat;
  newLineNo : option nat
}.

Record LLMHunk := mkLLMHunk {
  l_id : string;
  l_file : string;
  l_context : option string;
  splittable : bool;
  splitCount : option nat;
  summary : string;
  l_lines : list IndexedLine;
  addedLineIndices : list nat;
  removedLineIndices : list nat;
  complexityHint : nat
}.

(** The [forEach] of lines 89-108, from index [i] on, with the running
    line numbers; it returns the three arrays it fills. [oldLine++] and
    [newLine++] are the successor, as in the source while the line numbers
    stay below 2^53. *)
Fixpoint index_lines (i oldLine newLine : nat) (ls : list DiffLine)
  : list IndexedLine * list nat * list nat :=
  match ls with
  | [] => ([], [], [])
  | line :: rest =>
      match type line with
      | Context =>
          let '(ils, adds, rems) :=
            index_lines (S i) (S oldLine) (S newLine) rest in
          (mkIndexed i Context (content line) (Some oldLine) (Some newLine)
             :: ils, adds, rems)
      | Remove =>
          let '(ils, adds, rems) :=
            index_lines (S i) (S oldLine) newLine rest in
          (mkIndexed i Remove (content line) (Some oldLine) None :: ils,
           adds, i :: rems)
      | Add =>
          let '(ils, adds, rems) :=
            index_lines (S i) oldLine (S newLine) rest in
          (mkIndexed i Add (content line) None (Some newLine) :: ils,
           i :: adds, rems)
      end
  end.

Definition summarizeChanges (hunk : Hunk) : string :=
  let adds := filter (fun l => LineType_eqb (type l) Add) (lines hunk) in
  let removes := filter (fun l => LineType_eqb (type l) Remove) (lines hunk) in
  if (length adds =? 0)%nat && (length removes =? 0)%nat then "no changes"
  else
    let parts1 :=
      if (0 <? length adds)%nat
      then ["+" +++ string_of_nat (length adds) +++ " lines"] else [] in
    let parts2 :=
      if (0 <? length removes)%nat
      then ["-" +++ string_of_nat (length removes) +++ " lines"] else [] in
    join ", " (parts1 ++ parts2).

(** Lines 113-120. *)
Definition estimate_complexity (adds rems : list nat) (isSplit : bool)
  : nat :=
  let complexityHint := 1 in
  let complexityHint :=
    if (1 <? length adds)%nat || (1 <? length rems)%nat then 4
    else complexityHint in
  if isSplit then Nat.min complexityHint 3 else complexityHint.

Definition hunkToLLMHunk (hunk : Hunk) : LLMHunk :=
  let '(ils, adds, rems) :=
    index_lines 0 (oldStart hunk) (newStart hunk) (lines hunk) in
  let isSplit := isSplittable hunk 1 in
  {| l_id := id hunk;
     l_file := file hunk;
     l_context := context hunk;
     splittable := isSplit;
     splitCount := if isSplit then Some (length (splitHunk hunk 1)) else None;
     summary := summarizeChanges hunk;
     l_lines := ils;
     addedLineIndices := adds;
     removedLineIndices := rems;
     complexityHint := estimate_complexity adds rems isSplit |}.

Record HunkAnalysis := mkAnalysis {
  a_files : list (string * list LLMHunk);
  totalHunks : nat;
  simpleHunks : list string;
  splittableHunks : list string;
  complexHunks : list string
}.

(** The bucket loop of [analyzeHunks] (lines 303-311). *)
Definition bucket_step (acc : list string * list string * list string)
  (hunk : LLMHunk) : list string * list string * list string :=
  let '(simple, splittableIds, complex) := acc in
  if splittable hunk then (simple, splittableIds ++ [l_id hunk], complex)
  else if (length (addedLineIndices hunk) <=? 1)%nat
          && (length (removedLineIndices hunk) <=? 1)%nat
       then (simple ++ [l_id hunk], splittableIds, complex)
       else (simple, splittableIds, complex ++ [l_id hunk]).

Definition analyzeHunks (diff : ParsedDiff) : HunkAnalysis :=
  let allHunks := Parser.getAllHunks diff in
  let llmHunks := map hunkToLLMHunk allHunks in
  let byFile :=
    fold_left (fun m h => map_push m (l_file h) h) llmHunks [] in
  let '(simple, splittableIds, complex) :=
    fold_left bucket_step llmHunks ([], [], []) in
  {| a_files := byFile;
     totalHunks := length allHunks;
     simpleHunks := simple;
     splittableHunks := splittableIds;
     complexHunks := complex |}.

End LLM.

(** ** interactive.ts *)

Module Interactive.
Import Str Manipulator.

Record LineEdit := mkEdit { lineIndex : nat; newContent : string }.

Inductive Mode := ModeAll | ModeNone | ModePartial.

Record HunkSelection := mkSel {
  hunkId : string;
  mode : Mode;
  includeAdditions : option (list nat);
  includeRemovals : option (list nat);
  lineEdits : option (list LineEdit);
  note : option string
}.

(** The [compensations] of a plan come from a separate pass over the
    document ([parseCompensations]) that the executor never reads; a plan
    is modelled by its commit message and its selections. *)
Record StagingPlan := mkPlan {
  commitMessage : string;
  selections : list HunkSelection
}.

(** *** The regular expressions of [parseStagingPlanDocument] *)

(** [/^Commit message:\s*(.+)$/], group 1. *)
Definition match_commit_message (line : string) : option string :=
  do r <- strip_prefix "Commit message:" line;
  ws_then_rest r.

Inductive FileMode := FileAll | FilePartial | FileSkip.

(** [/^\[(x|~| )\]\s+(\S+)/], with the mode computed at line 659. *)
Definition match_file_checkbox (line : string) : option (FileMode * string) :=
  do r <- strip_prefix "[" line;
  match r with
  | String checkbox r1 =>
      do m <- (if Ascii.eqb checkbox "x" then Some FileAll
               else if Ascii.eqb checkbox "~" then Some FilePartial
               else if Ascii.eqb checkbox " " then Some FileSkip
               else None);
      do r2 <- strip_prefix "]" r1;
      do r3 <- ws1 r2;
      let (filename, _) := span (fun c => negb (is_ws c)) r3 in
      guard nonempty filename; Some (m, filename)
  | EmptyString => None
  end.

(** The tail of [(\S+:\d+)] inside a run [t] of non-blank characters:
    [\S+] is greedy, so the colon chosen is the last one that a digit
    follows; the group ends with the digits after it. *)
Fixpoint heading_tail (t : string) : option string :=
  match t with
  | EmptyString => None
  | String c t' =>
      match heading_tail t' with
      | Some g => Some (String c g)
      | None =>
          guard Ascii.eqb c ":";
          do (d, _) <- digits1 t';
          Some (String c d)
      end
  end.

(** [/^###\s+(\S+:\d+)/], group 1. *)
Definition match_hunk_heading (line : string) : option string :=
  do r <- strip_prefix "###" line;
  do r1 <- ws1 r;
  let (t, _) := span (fun c => negb (is_ws c)) r1 in
  match t with
  | String c t' => do g <- heading_tail t'; Some (String c g)
  | EmptyString => None
  end.

(** [/^\[x\]\s+Include entire hunk/i] *)
Definition match_entire_hunk (line : string) : bool :=
  match (do r <- strip_prefix_ci "[x]" line;
         do r1 <- ws1 r;
         strip_prefix_ci "Include entire hunk" r1) with
  | Some _ => true
  | None => false
  end.

(** [\s+\[\s*(\d+)\]] : the bracketed index after a checkbox; the group
    and what follows the closing bracket. *)
Definition bracket_index (r : string) : option (string * string) :=
  do r1 <- ws1 r;
  do r2 <- strip_prefix "[" r1;
  do (d, r3) <- digits1 (skip_ws r2);
  do r4 <- strip_prefix "]" r3;
  Some (d, r4).

(** [/^\[x\]\s+\[\s*(\d+)\]\s*\+/], group 1. *)
Definition match_add (line : string) : option string :=
  do r <- strip_prefix "[x]" line;
  do (d, r1) <- bracket_index r;
  do _ <- strip_prefix "+" (skip_ws r1);
  Some d.

(** [/^\[x\]\s+\[\s*(\d+)\]\s*-/], group 1. *)
Definition match_remove (line : string) : option string :=
  do r <- strip_prefix "[x]" line;
  do (d, r1) <- bracket_index r;
  do _ <- strip_prefix "-" (skip_ws r1);
  Some d.

(** [/^\[E\]\s+\[\s*(\d+)\]/i], group 1. *)
Definition match_edit_mark (line : string) : option string :=
  do r <- strip_prefix_ci "[E]" line;
  do (d, _) <- bracket_index r;
  Some d.

(** [/^EDIT\s+\[(\d+)\]:\s*(.+)$/], groups 1 and 2. *)
Definition match_edit_directive (line : string) : option (string * string) :=
  do r <- strip_prefix "EDIT" line;
  do r1 <- ws1 r;
  do r2 <- strip_prefix "[" r1;
  do (d, r3) <- digits1 r2;
  do r4 <- strip_prefix "]:" r3;
  do c <- ws_then_rest r4;
  Some (d, c).

(** *** parseStagingPlanDocument *)

(** Lines 639-646: the first line that matches gives the message. *)
Fixpoint find_commit_message (ls : list string) : string :=
  match ls with
  | [] => "untitled commit"
  | line :: rest =>
      match match_commit_message line with
      | Some g => trim g
      | None => find_commit_message rest
      end
  end.

(** [Map.set] and [Map.get] on string keys. *)
Fixpoint map_set {A} (m : list (string * A)) (k : string) (v : A)
  : list (string * A) :=
  match m with
  | [] => [(k, v)]
  | (k', v') :: m' =>
      if String.eqb k' k then (k', v) :: m' else (k', v') :: map_set m' k v
  end.

Fixpoint map_get {A} (m : list (string * A)) (k : string) : option A :=
  match m with
  | [] => None
  | (k', v) :: m' => if String.eqb k' k then Some v else map_get m' k
  end.

(** Lines 652-662. *)
Definition fileLevelSelections (ls : list string)
  : list (string * FileMode) :=
  fold_left
    (fun m line =>
       match match_file_checkbox line with
       | Some (md, filename) => map_set m filename md
       | None => m
       end) ls [].

Definition plain (i : string) (m : Mode) : HunkSelection :=
  mkSel i m None None None None.

(** Lines 665-682. *)
Definition file_level (diff : option ParsedDiff)
  (fl : list (string * FileMode)) : list HunkSelection :=
  match diff, fl with
  | Some d, _ :: _ =>
      flat_map
        (fun f =>
           let md := match map_get fl (newPath f) with
                     | Some m => Some m
                     | None => map_get fl (oldPath f)
                     end in
           match md with
           | Some FileAll => map (fun h => plain (id h) ModeAll) (hunks f)
           | Some FileSkip => map (fun h => plain (id h) ModeNone) (hunks f)
           | _ => []
           end) (files d)
  | _, _ => []
  end.

Definition some_if_nonempty {A} (l : list A) : option (list A) :=
  match l with [] => None | _ => Some l end.

Definition createSelectionWithRemovals (i : string) (entireHunk : bool)
  (additions removals : list nat) (edits : list LineEdit) : HunkSelection :=
  if entireHunk then
    mkSel i ModeAll None None (some_if_nonempty edits) None
  else if (0 <? length additions)%nat || (0 <? length removals)%nat
          || (0 <? length edits)%nat then
    mkSel i ModePartial (some_if_nonempty additions)
      (some_if_nonempty removals) (some_if_nonempty edits) None
  else mkSel i ModeNone None None None None.

Record DocState := mkDoc {
  d_selections : list HunkSelection;
  currentHunkId : option string;
  entireHunkSelected : bool;
  selectedAdditions : list nat;
  selectedRemovals : list nat;
  d_lineEdits : list LineEdit;
  inCodeBlock : bool
}.

Definition flush (s : DocState) : list HunkSelection :=
  match currentHunkId s with
  | Some i =>
      d_selections s ++
      [createSelectionWithRemovals i (entireHunkSelected s)
         (selectedAdditions s) (selectedRemovals s) (d_lineEdits s)]
  | None => d_selections s
  end.

(** Lines 722-744: a line of a code block under a hunk heading; [None]
    when none of the three patterns matches. *)
Definition selection_line (s : DocState) (line : string) : option DocState :=
  match match_add line with
  | Some d =>
      Some (mkDoc (d_selections s) (currentHunkId s) (entireHunkSelected s)
              (selectedAdditions s ++ [parseInt d]) (selectedRemovals s)
              (d_lineEdits s) (inCodeBlock s))
  | None =>
      match match_remove line with
      | Some d =>
          Some (mkDoc (d_selections s) (currentHunkId s)
                  (entireHunkSelected s) (selectedAdditions s)
                  (selectedRemovals s ++ [parseInt d]) (d_lineEdits s)
                  (inCodeBlock s))
      | None =>
          do d <- match_edit_mark line;
          Some (mkDoc (d_selections s) (currentHunkId s)
                  (entireHunkSelected s)
                  (selectedAdditions s ++ [parseInt d]) (selectedRemovals s)
                  (d_lineEdits s) (inCodeBlock s))
      end
  end.

(** Lines 746-755. *)
Definition directive_line (s : DocState) (line : string) : DocState :=
  match match_edit_directive line, currentHunkId s with
  | Some (d, c), Some _ =>
      mkDoc (d_selections s) (currentHunkId s) (entireHunkSelected s)
        (selectedAdditions s) (selectedRemovals s)
        (d_lineEdits s ++ [mkEdit (parseInt d) c]) (inCodeBlock s)
  | _, _ => s
  end.

(** One turn of the loop of lines 690-756. *)
Definition doc_step (s : DocState) (line : string) : DocState :=
  match match_hunk_heading line with
  | Some i => mkDoc (flush s) (Some i) false [] [] [] false
  | None =>
      if match_entire_hunk line then
        mkDoc (d_selections s) (currentHunkId s) true (selectedAdditions s)
          (selectedRemovals s) (d_lineEdits s) (inCodeBlock s)
      else if startsWith "```" line then
        mkDoc (d_selections s) (currentHunkId s) (entireHunkSelected s)
          (selectedAdditions s) (selectedRemovals s) (d_lineEdits s)
          (negb (inCodeBlock s))
      else
        match (if inCodeBlock s
               then match currentHunkId s with
                    | Some _ => selection_line s line
                    | None => None
                    end
               else None) with
        | Some s' => s'
        | None => directive_line s line
        end
  end.

Definition parseStagingPlanLines (ls : list string)
  (diff : option ParsedDiff) : StagingPlan :=
  let pre := file_level diff (fileLevelSelections ls) in
  let s := fold_left doc_step ls (mkDoc pre None false [] [] [] false) in
  mkPlan (find_commit_message ls) (flush s).

Definition parseStagingPlanDocument (document : string)
  (diff : option ParsedDiff) : StagingPlan :=
  parseStagingPlanLines (split_nl document) diff.

(** *** executeStagingPlan *)

Record CheckResult := mkCheck { applies : bool; check_error : option string }.
Record ApplyResult := mkApply { success : bool; apply_error : option string }.

Record ExecResult := mkExec {
  ok : bool;
  error : option string;
  stagedHunks : list string
}.

(** An absent value inside a template string. *)
Definition show (o : option string) : string :=
  match o with Some s => s | None => "undefined" end.

(** Indices of the lines of one type (lines 910-918). *)
Fixpoint indices_of (t : LineType) (i : nat) (ls : list DiffLine)
  : list nat :=
  match ls with
  | [] => []
  | l :: rest =>
      if LineType_eqb (type l) t then i :: indices_of t (S i) rest
      else indices_of t (S i) rest
  end.

(** [!selection.lineEdits?.length] *)
Definition no_edits (sel : HunkSelection) : bool :=
  match lineEdits sel with
  | Some (_ :: _) => false
  | _ => true
  end.

Definition is_all (m : Mode) : bool :=
  match m with ModeAll => true | _ => false end.

(** Lines 904-934: the patch text of one selection. *)
Definition selection_patch (hunk : Hunk) (selection : HunkSelection)
  : string :=
  if is_all (mode selection) && no_edits selection then
    generatePatch [hunk]
  else
    let addIndices := indices_of Add 0 (lines hunk) in
    let removeIndices := indices_of Remove 0 (lines hunk) in
    let includeAddSet :=
      if is_all (mode selection) then addIndices
      else set_of (includeAdditions selection) in
    let removeAdds := filter (fun i => negb (has includeAddSet i)) addIndices in
    let includeRemoveSet :=
      if is_all (mode selection) then removeIndices
      else set_of (includeRemovals selection) in
    let keepRems :=
      filter (fun i => negb (has includeRemoveSet i)) removeIndices in
    let edited := editHunk hunk (mkMods (Some removeAdds) (Some keepRems)) in
    generatePatch [edited].

Section Executor.

(** The version-control tool: a state [World] and the two operations the
    executor calls, each reading the patch text and the state. *)
Variable World : Type.
Variable checkPatch : string -> World -> CheckResult * World.
Variable applyPatchToIndex : string -> World -> ApplyResult * World.

(** The loop of lines 896-956, with [stagedHunks] so far. *)
Fixpoint execLoop (diff : ParsedDiff) (sels : list HunkSelection)
  (staged : list string) (w : World) : ExecResult * World :=
  match sels with
  | [] => (mkExec true None staged, w)
  | selection :: rest =>
      match mode selection with
      | ModeNone => execLoop diff rest staged w
      | _ =>
          match Parser.getHunk diff (hunkId selection) with
          | None =>
              (mkExec false
                 (Some ("Hunk not found: " +++ hunkId selection)) staged, w)
          | Some hunk =>
              let patch := selection_patch hunk selection in
              let (check, w1) := checkPatch patch w in
              if negb (applies check) then
                (mkExec false
                   (Some ("Patch for " +++ hunkId selection +++
                          " won't apply: " +++ show (check_error check)))
                   staged, w1)
              else
                let (result, w2) := applyPatchToIndex patch w1 in
                if negb (success result) then
                  (mkExec false
                     (Some ("Failed to stage " +++ hunkId selection +++
                            ": " +++ show (apply_error result)))
                     staged, w2)
                else execLoop diff rest (staged ++ [hunkId selection]) w2
          end
      end
  end.

Definition executeStagingPlan (diff : ParsedDiff) (plan : StagingPlan)
  (w : World) : ExecResult * World :=
  execLoop diff (selections plan) [] w.

End Executor.

(** *** The worksheet *)

Inductive Include := IncludeAll | IncludeNone | IncludePartial.

Record WorksheetLine := mkWLine {
  w_index : nat;
  w_type : LineType;
  w_content : string;
  w_include : bool
}.

Record WorksheetHunk := mkWHunk {
  w_id : string;
  w_summary : string;
  w_splittable : bool;
  w_hunk_include : Include;
  w_lines : list WorksheetLine
}.

Record WorksheetFile := mkWFile {
  w_path : string;
  w_hunks : list WorksheetHunk
}.

Record StagingWorksheet := mkWorksheet {
  w_commitMessage : string;
  w_files : list WorksheetFile
}.

Definition generateWorksheet (diff : ParsedDiff) (msg : string)
  : StagingWorksheet :=
  mkWorksheet msg
    (map
       (fun f =>
          mkWFile (newPath f)
            (map
               (fun hunk =>
                  let llmHunk := LLM.hunkToLLMHunk hunk in
                  mkWHunk (id hunk) (LLM.summary llmHunk)
                    (LLM.splittable llmHunk) IncludeNone
                    (map
                       (fun l =>
                          mkWLine (LLM.il_index l) (LLM.il_type l)
                            (LLM.il_content l) false)
                       (LLM.l_lines llmHunk)))
               (hunks f)))
       (files diff)).

(** The indices of the included lines of one type (lines 1190-1195). *)
Definition included (t : LineType) (ls : list WorksheetLine) : list nat :=
  map w_index
    (filter (fun l => w_include l && LineType_eqb (w_type l) t) ls).

(** The selections [executeWorksheet] builds (lines 1183-1205). *)
Definition worksheet_selection (hunk : WorksheetHunk)
  : list HunkSelection :=
  match w_hunk_include hunk with
  | IncludeAll => [plain (w_id hunk) ModeAll]
  | IncludePartial =>
      [mkSel (w_id hunk) ModePartial
         (some_if_nonempty (included Add (w_lines hunk)))
         (some_if_nonempty (included Remove (w_lines hunk))) None None]
  | IncludeNone => []
  end.

Definition worksheet_selections (ws : StagingWorksheet)
  : list HunkSelection :=
  flat_map (fun f => flat_map worksheet_selection (w_hunks f)) (w_files ws).

Definition executeWorksheet (World : Type)
  (checkPatch : string -> World -> CheckResult * World)
  (applyPatchToIndex : string -> World -> ApplyResult * World)
  (diff : ParsedDiff) (ws : StagingWorksheet) (w : World)
  : ExecResult * World :=
  executeStagingPlan World checkPatch applyPatchToIndex diff
    (mkPlan (w_commitMessage ws) (worksheet_selections ws)) w.

End Interactive.

(** * Properties *)

Import Str Parser Manipulator LLM Interactive.

(** ** Vocabulary of the statements *)

(** The count invariant of a hunk: [oldCount] is the number of lines that
    are not additions, [newCount] the number of lines that are not
    removals. *)
Definition count_consistent (h : Hunk) : Prop :=
  oldCount h = old_lines (lines h) /\ newCount h = new_lines (lines h).

(** A string of decimal digits. *)
Fixpoint all_digits (s : string) : bool :=
  match s with
  | EmptyString => true
  | String c s' => is_digit c && all_digits s'
  end.

(** What every hunk built by the parser satisfies: its header matches the
    hunk-header pattern, every field but [lines] is the one computed from
    that header at position [i] of file [path], and no text in it holds a
    line feed. *)
Definition good_hunk (path : string) (i : nat) (h : Hunk) : Prop :=
  exists m,
    match_hunk_header (header h) = Some m /\
    with_lines h [] = newHunk path i (header h) m /\
    has_nl (header h) = false /\
    Forall (fun l => has_nl (content l) = false) (lines h).

(** The hunks of a file, numbered from [i] on. *)
Fixpoint good_hunks (path : string) (i : nat) (hs : list Hunk) : Prop :=
  match hs with
  | [] => True
  | h :: t => good_hunk path i h /\ good_hunks path (S i) t
  end.

(** A path that the file-header pattern gives back when the generator
    writes it on both sides. *)
Definition path_ok (p : string) : Prop :=
  match_file_header ("diff --git a/" +++ p +++ " b/" +++ p) = Some (p, p) /\
  has_line_terminator p = false.

(** What every file built by the parser satisfies. *)
Definition good_file (f : FileDiff) : Prop :=
  path_ok (newPath f) /\ good_hunks (newPath f) 0 (hunks f).

(** The invariant of the parser's loop: the files already closed are
    good, the file in progress together with the hunk in progress is
    good, and [hunkIndex] counts the hunks opened in it. *)
Definition inv (st : PState) : Prop :=
  Forall good_file (st_files st) /\
  match currentFile st with
  | None => currentHunk st = None
  | Some cf =>
      path_ok (newPath cf) /\
      good_hunks (newPath cf) 0 (hunks cf ++ olist (currentHunk st)) /\
      hunkIndex st = length (hunks cf ++ olist (currentHunk st))
  end.

(** [h] after [ls] were pushed on its lines. *)
Definition add_lines (h : Hunk) (ls : list DiffLine) : Hunk :=
  with_lines h (lines h ++ ls).

(** The file the parser rebuilds from the generator's simplified header. *)
Definition normal_file (f : FileDiff) : FileDiff :=
  mkFile (newPath f) (newPath f) false false false (hunks f).

(** A file with at least one hunk. *)
Definition has_hunks (f : FileDiff) : bool :=
  match hunks f with [] => false | _ :: _ => true end.

(** Hunks in ascending order of [oldStart]. *)
Fixpoint ascending (l : list Hunk) : bool :=
  match l with
  | [] => true
  | h :: t =>
      match t with
      | [] => true
      | h2 :: _ => (oldStart h <=? oldStart h2)%nat && ascending t
      end
  end.

(** No hunk is in progress outside a file. *)
Definition closed (st : PState) : Prop :=
  currentFile st = None -> currentHunk st = None.

(** The entry of a file in the generator's map. *)
Definition file_group (f : FileDiff) : string * list Hunk :=
  (newPath f, hunks f).

(** The grouping loop of [generatePatch], from the map [m]. *)
Definition push_all (m : list (string * list Hunk)) (hs : list Hunk)
  : list (string * list Hunk) :=
  fold_left (fun m h => map_push m (file h) h) hs m.

(** [ls] without the positions listed in [drop]; [i] is the position of
    the head of [ls]. *)
Fixpoint remove_positions (drop : list nat) (i : nat) (ls : list DiffLine)
  : list DiffLine :=
  match ls with
  | [] => []
  | l :: t =>
      if has drop i then remove_positions drop (S i) t
      else l :: remove_positions drop (S i) t
  end.

(** More than one addition, or more than one removal. *)
Definition several_changes (h : Hunk) : bool :=
  (1 <? count_type Add (lines h))%nat || (1 <? count_type Remove (lines h))%nat.

(** [mode === 'none'] *)
Definition is_none (m : Mode) : bool :=
  match m with ModeNone => true | _ => false end.

(** The selections the loop does not skip. *)
Definition attempted (sels : list HunkSelection) : list HunkSelection :=
  filter (fun s => negb (is_none (mode s))) sels.



(** Two lines that differ at most in the case of a leading [[E]] mark or,
    when no diff is passed, in the case of the [x] of an entire-hunk
    checkbox. *)
Inductive checkbox_variant (with_diff : bool) : string -> string -> Prop :=
| cv_same : forall l, checkbox_variant with_diff l l
| cv_edit_mark : forall rest,
    checkbox_variant with_diff ("[E]" +++ rest) ("[e]" +++ rest)
| cv_entire_hunk : forall rest,
    with_diff = false ->
    match_entire_hunk ("[x]" +++ rest) = true ->
    checkbox_variant with_diff ("[x]" +++ rest) ("[X]" +++ rest).

(** Whether a diff was passed to the plan parser. *)
Definition has_diff (d : option ParsedDiff) : bool :=
  match d with Some _ => true | None => false end.

(** A line of a text with CRLF line endings: empty (after the last line
    feed) or ending with a carriage return. *)
Definition crlf_line (l : string) : Prop :=
  l = "" \/ last_char l = Some (ascii_of_nat 13).

(** The flag [isRenamed] says that the two paths differ. *)
Definition renamed_ok (f : FileDiff) : Prop :=
  isRenamed f = negb (String.eqb (oldPath f) (newPath f)).

Definition renamed_inv (st : PState) : Prop :=
  Forall renamed_ok (st_files st) /\
  match currentFile st with
  | Some cf => renamed_ok cf
  | None => True
  end.

(** A string that does not start with white space. *)
Definition no_lead_ws (s : string) : Prop :=
  match s with
  | EmptyString => True
  | String c _ => is_ws c = false
  end.

(** A string that does not start with a digit. *)
Definition no_lead_digit (s : string) : Prop :=
  match s with
  | EmptyString => True
  | String c _ => is_digit c = false
  end.

Fixpoint all_ws (s : string) : bool :=
  match s with
  | EmptyString => true
  | String c s' => is_ws c && all_ws s'
  end.

(** The contexts a hunk header can carry: none, or a text that is not
    empty, is already trimmed and holds no line terminator. *)
Definition context_wf (c : option string) : Prop :=
  match c with
  | None => True
  | Some t =>
      nonempty t = true /\ trim t = t /\ has_line_terminator t = false
  end.

(** The definition of a splittable hunk: two change lines with nothing
    but context lines between them, at least [minContextGap] of them and
    at least one. *)
Definition has_gap (g : nat) (ls : list DiffLine) : Prop :=
  exists pre c1 ctx c2 post,
    ls = pre ++ c1 :: ctx ++ c2 :: post /\
    is_context c1 = false /\ is_context c2 = false /\
    Forall (fun l => is_context l = true) ctx /\
    Nat.max g 1 <= length ctx.

(** A gap opened before [ls], of which [k] context lines were already
    seen, is closed by a change line of [ls]. *)
Definition gap_from (k g : nat) (ls : list DiffLine) : Prop :=
  exists ctx c2 post,
    ls = ctx ++ c2 :: post /\
    Forall (fun l => is_context l = true) ctx /\
    is_context c2 = false /\
    Nat.max g 1 <= k + length ctx.

(** The change lines of a sequence, in order. *)
Definition changes (ls : list DiffLine) : list DiffLine :=
  filter (fun l => negb (is_context l)) ls.

(** The groups the loop of [splitHunk] ends with. *)
Definition final_groups (s : SplitState) : list (list DiffLine) :=
  if (0 <? length (currentGroup s))%nat
  then groups s ++ [currentGroup s ++ contextBuffer s]
  else groups s.

(** Closed groups, plus the open one when a change group is open. *)
Definition group_count (s : SplitState) : nat :=
  length (groups s) + (if inChangeGroup s then 1 else 0).

Definition open_nonempty (s : SplitState) : Prop :=
  inChangeGroup s = true -> currentGroup s <> [].

(** With a positive gap, outside a change group nothing is pending, and
    inside one the open group holds a change and the buffer is short. *)
Definition split_inv (g : nat) (s : SplitState) : Prop :=
  Forall (fun ls => changes ls <> []) (groups s) /\
  (inChangeGroup s = true ->
   changes (currentGroup s) <> [] /\ length (contextBuffer s) < g) /\
  (inChangeGroup s = false -> currentGroup s = []).

(** The text a hunk expects on the old side: its lines but the additions. *)
Definition old_text (ls : list DiffLine) : list string :=
  map content (filter (fun l => negb (LineType_eqb (type l) Add)) ls).

(** The base ids asked for as whole hunks, and the line indices asked for
    under the base id [k], in the order of the ids. *)
Definition whole_ids (ids : list string) : list string :=
  flat_map (fun i => match parseHunkId i with
                     | (b, None) => [b]
                     | _ => []
                     end) ids.

Definition asked_lines (ids : list string) (k : string) : list nat :=
  flat_map (fun i => match parseHunkId i with
                     | (b, Some n) => if String.eqb b k then [n] else []
                     | _ => []
                     end) ids.

(** Some id names the hunk, as a whole or through one of its lines. *)
Definition named (ids : list string) (h : Hunk) : bool :=
  existsb (fun i => String.eqb (fst (parseHunkId i)) (id h)) ids.

(** [ls] without the additions whose position is not in [sel]; [i] is the
    position of the head of [ls]. *)
Fixpoint keep_selected (sel : list nat) (i : nat) (ls : list DiffLine)
  : list DiffLine :=
  match ls with
  | [] => []
  | l :: rest =>
      if LineType_eqb (type l) Add && negb (has sel i)
      then keep_selected sel (S i) rest
      else l :: keep_selected sel (S i) rest
  end.

(** The calls made to the version-control tool, with their outcome. *)
Inductive Call :=
  | Checked (patch : string) (accepted : bool)
  | Applied (patch : string) (succeeded : bool).

Section Tracing.

Variable World : Type.
Variable checkPatch : string -> World -> CheckResult * World.
Variable applyPatchToIndex : string -> World -> ApplyResult * World.

(** The tool, writing each call and its outcome down next to its state. *)
Definition traced_check (p : string) (s : World * list Call)
  : CheckResult * (World * list Call) :=
  let (r, w') := checkPatch p (fst s) in
  (r, (w', snd s ++ [Checked p (applies r)])).

Definition traced_apply (p : string) (s : World * list Call)
  : ApplyResult * (World * list Call) :=
  let (r, w') := applyPatchToIndex p (fst s) in
  (r, (w', snd s ++ [Applied p (success r)])).

End Tracing.

(** A sequence of calls in which every patch is checked, then applied if
    and only if the check accepted it, and nothing follows a refusal or a
    failure. *)
Fixpoint orderly (t : list Call) : bool :=
  match t with
  | [] => true
  | Checked p false :: rest =>
      match rest with [] => true | _ => false end
  | Checked p true :: Applied q s :: rest =>
      String.eqb p q &&
      (if s then orderly rest
       else match rest with [] => true | _ => false end)
  | _ => false
  end.

Definition applied_ok (c : Call) : bool :=
  match c with Applied _ true => true | _ => false end.

(** The hunks of a worksheet that are marked for staging. *)
Definition marked (ws : StagingWorksheet) : list WorksheetHunk :=
  filter (fun h => match w_hunk_include h with
                   | IncludeNone => false
                   | _ => true
                   end)
    (flat_map w_hunks (w_files ws)).

(** The hunk ids of the headings of a plan document, in order. *)
Definition headings (ls : list string) : list string :=
  flat_map (fun l => match match_hunk_heading l with
                     | Some i => [i]
                     | None => []
                     end) ls.

(** An index list of a selection is absent or holds something. *)
Definition filled {A} (o : option (list A)) : Prop := o <> Some [].

(** The shape of the selections the plan parser writes. *)
Definition selection_wf (s : HunkSelection) : Prop :=
  filled (includeAdditions s) /\ filled (includeRemovals s) /\
  filled (lineEdits s) /\ note s = None /\
  match mode s with
  | ModeAll => includeAdditions s = None /\ includeRemovals s = None
  | ModeNone =>
      includeAdditions s = None /\ includeRemovals s = None /\
      lineEdits s = None
  | ModePartial =>
      includeAdditions s <> None \/ includeRemovals s <> None \/
      lineEdits s <> None
  end.

(** A number that the source handles exactly: below 2^53. On such numbers
    [parseInt], the printing of a number in a template string and [++]
    are what the model says. *)
Definition safe (n : nat) : Prop := (N.of_nat n < 2 ^ 53)%N.

(** ** Test data *)

(** The hunk of the [splitHunk] test of the repository. *)
Definition gap_hunk : Hunk :=
  mkHunk "test:0" "test.txt" 0 "@@ -1,7 +1,9 @@" 1 7 1 9
    [mkLine Context "line 1"; mkLine Add "added 1"; mkLine Context "line 2";
     mkLine Context "line 3"; mkLine Context "line 4"; mkLine Add "added 2";
     mkLine Context "line 5"] None.

(** The hunk of the [keepRemovals] test of the repository. *)
Definition removal_hunk : Hunk :=
  mkHunk "test:0" "test.txt" 0 "@@ -1,3 +1,2 @@" 1 3 1 2
    [mkLine Context "line 1"; mkLine Remove "removed line";
     mkLine Context "line 2"] None.

(** Additions interleaved with a removal. *)
Definition mixed_hunk : Hunk :=
  mkHunk "test:0" "test.txt" 0 "@@ -1,3 +1,4 @@" 1 3 1 4
    [mkLine Context "a"; mkLine Add "b"; mkLine Remove "c"; mkLine Add "d";
     mkLine Context "e"] None.

(** Two additions around one context line, followed by two more context
    lines. *)
Definition tail_hunk : Hunk :=
  mkHunk "f:0" "f" 0 "@@ -1,3 +1,5 @@" 1 3 1 5
    [mkLine Add "a1"; mkLine Context "c1"; mkLine Add "a2";
     mkLine Context "c2"; mkLine Context "c3"] None.

(** Two additions around a gap, and one addition and one removal around a
    gap. *)
Definition two_adds_hunk : Hunk :=
  mkHunk "f:0" "f" 0 "@@ -1,2 +1,4 @@" 1 2 1 4
    [mkLine Add "first change"; mkLine Context "gap 1";
     mkLine Context "gap 2"; mkLine Add "second change"] None.

Definition add_remove_hunk : Hunk :=
  mkHunk "f:0" "f" 0 "@@ -1,2 +1,2 @@" 1 2 1 2
    [mkLine Add "new"; mkLine Context "gap"; mkLine Remove "old"] None.

Definition simple_diff : string :=
  join_nl
    ["diff --git a/file.txt b/file.txt"; "index abc123..def456 100644";
     "--- a/file.txt"; "+++ b/file.txt"; "@@ -1,3 +1,4 @@"; " line 1";
     "+added line"; " line 2"; " line 3"; ""].

(** A header that promises five old lines above a body of one. *)
Definition short_body_diff : string :=
  join_nl ["diff --git a/f b/f"; "@@ -1,5 +1,4 @@"; " x"].

(** Two hunks of one file, the later part of the file first. *)
Definition unordered_diff : string :=
  join_nl
    ["diff --git a/f b/f"; "--- a/f"; "+++ b/f"; "@@ -10,1 +10,1 @@"; " ten";
     "@@ -1,1 +1,1 @@"; " one"; ""].

(** The same file header twice. *)
Definition repeated_file_diff : string :=
  join_nl
    ["diff --git a/f b/f"; "@@ -1,1 +1,1 @@"; " one";
     "diff --git a/f b/f"; "@@ -5,1 +5,1 @@"; " five"].

(** A file with a mode change and no hunk, then a file with one hunk. *)
Definition mode_change_diff : string :=
  join_nl
    ["diff --git a/g b/g"; "old mode 100644"; "new mode 100755";
     "diff --git a/f b/f"; "@@ -1,1 +1,1 @@"; " one"].

(** A file named like the first word of the entire-hunk checkbox. *)
Definition include_diff : string :=
  join_nl ["diff --git a/Include b/Include"; "@@ -1,1 +1,1 @@"; " one"].

Definition include_document (checkbox : string) : string :=
  join_nl ["### Include:0"; checkbox +++ " Include entire hunk"].

Definition import_diff : string :=
  join_nl
    ["diff --git a/file.txt b/file.txt"; "--- a/file.txt"; "+++ b/file.txt";
     "@@ -1,2 +1,3 @@"; " line 1";
     "+import { foo, bar, baz } from 'utils';"; " line 2"; ""].

(** The document of the line-edit test of the repository. *)
Definition edit_document : string :=
  join_nl
    ["# Staging Plan"; ""; "Commit message: test"; ""; "---"; "";
     "## file.txt"; ""; "### file.txt:0"; ""; "[ ] Include entire hunk"; "";
     "```"; "    [ 0]   line 1";
     "[E] [ 1] + import { foo, bar, baz } from 'utils';";
     "    [ 2]   line 2"; "```"; "";
     "EDIT [1]: import { foo, bar } from 'utils';"; ""].

Definition edit_document_lowercase : string :=
  join_nl
    ["# Staging Plan"; ""; "Commit message: test"; ""; "---"; "";
     "## file.txt"; ""; "### file.txt:0"; ""; "[ ] Include entire hunk"; "";
     "```"; "    [ 0]   line 1";
     "[e] [ 1] + import { foo, bar, baz } from 'utils';";
     "    [ 2]   line 2"; "```"; "";
     "EDIT [1]: import { foo, bar } from 'utils';"; ""].

Definition selection_document (checkbox : string) : string :=
  join_nl
    ["Commit message: test"; ""; "### file.txt:0"; "";
     "[ ] Include entire hunk"; ""; "```"; "    [ 0]   line 1";
     checkbox +++ " [ 1] + added line"; "    [ 2]   line 2";
     "    [ 3]   line 3"; "```"; ""].

Definition file_document (checkbox : string) : string :=
  join_nl ["Commit message: test"; ""; checkbox +++ " file.txt"; ""].

(** A version-control tool that accepts every patch and records what was
    applied to the index. *)
Definition Log : Type := list string.

Definition check_any (patch : string) (w : Log) : CheckResult * Log :=
  (mkCheck true None, w).

Definition apply_record (patch : string) (w : Log) : ApplyResult * Log :=
  (mkApply true None, w ++ [patch]).

(** The projection of a hunk that the round-trip property compares. *)
Definition hunk_view (h : Hunk)
  : string * list DiffLine * (nat * nat * nat * nat) :=
  (id h, lines h, (oldStart h, oldCount h, newStart h, newCount h)).

Definition per_file_view (d : ParsedDiff) :=
  map (fun f => map hunk_view (hunks f)) (files d).

(** The simple diff with CRLF line endings. *)
Definition crlf_diff : string :=
  join_nl
    ["diff --git a/file.txt b/file.txt" +++ String (ascii_of_nat 13) "";
     "@@ -1,1 +1,2 @@" +++ String (ascii_of_nat 13) "";
     " line 1" +++ String (ascii_of_nat 13) "";
     "+added" +++ String (ascii_of_nat 13) ""; ""].

(** A rename with one hunk. *)
Definition rename_diff : string :=
  join_nl
    ["diff --git a/old.txt b/new.txt"; "similarity index 90%";
     "rename from old.txt"; "rename to new.txt"; "@@ -1,1 +1,2 @@";
     " line 1"; "+added"; "@@ -9,1 +10,2 @@"; " line 9"; "+more"].

(** A hunk under a function heading. *)
Definition context_hunk : Hunk :=
  mkHunk "app.js:0" "app.js" 0 "@@ -10,5 +10,7 @@ function myFunction()"
    10 5 10 7
    [mkLine Context "a"; mkLine Remove "b"; mkLine Add "c"; mkLine Add "d";
     mkLine Context "e"] (Some "function myFunction()").

Definition context_diff : string :=
  join_nl
    ["diff --git a/app.js b/app.js";
     "@@ -10,3 +10,4 @@   function myFunction()  "; " a"; "-b"; "+c"; "+d";
     " e"].

(** One hunk with two additions around a context line. *)
Definition two_adds_diff : string :=
  join_nl ["diff --git a/f b/f"; "@@ -1,1 +1,3 @@"; "+a"; " c"; "+b"].

(** A version-control tool that refuses every patch. *)
Definition check_refuse (patch : string) (w : Log) : CheckResult * Log :=
  (mkCheck false (Some "does not apply"), w).

(** A header that promises five old and four new lines above a body of
    one removal. *)
Definition stale_header_diff : string :=
  join_nl ["diff --git a/f b/f"; "@@ -1,5 +1,4 @@"; "-x"].


(** ** Counting *)

Lemma count_loop_spec : forall ls a b,
  count_loop a b ls = (a + old_lines ls, b + new_lines ls).
Proof.
  unfold old_lines, new_lines.
  induction ls as [|[t c] ls IH]; intros a b; simpl.
  - f_equal; lia.
  - destruct t; simpl; rewrite IH; f_equal; lia.
Qed.

Lemma count_loop_0 : forall ls,
  count_loop 0 0 ls = (old_lines ls, new_lines ls).
Proof. intros; now rewrite count_loop_spec. Qed.

Lemma editHunk_lines : forall h m,
  lines (editHunk h m) =
  edit_lines (set_of (removeAdditions m)) (set_of (keepRemovals m)) 0 (lines h).
Proof.
  intros h m; unfold editHunk.
  now rewrite count_loop_0.
Qed.

Lemma editHunk_counts : forall h m,
  oldCount (editHunk h m) = old_lines (lines (editHunk h m)) /\
  newCount (editHunk h m) = new_lines (lines (editHunk h m)).
Proof.
  intros h m; unfold editHunk.
  rewrite count_loop_0; simpl; auto.
Qed.

Lemma groups_to_hunks_consistent : forall h gs o n k s,
  In s (groups_to_hunks h o n k gs) -> count_consistent s.
Proof.
  induction gs as [|g gs IH]; intros o n k s; simpl.
  - tauto.
  - rewrite count_loop_0. intros [<-|Hin].
    + split; reflexivity.
    + eapply IH; eauto.
Qed.

(** ** Strings *)

Lemma append_assoc : forall a b c : string, (a +++ b) +++ c = a +++ b +++ c.
Proof. induction a; simpl; intros; [reflexivity | now rewrite IHa]. Qed.

Lemma append_nil_r : forall a : string, a +++ "" = a.
Proof. induction a; simpl; [reflexivity | now rewrite IHa]. Qed.

Lemma strip_prefix_app : forall p r, strip_prefix p (p +++ r) = Some r.
Proof.
  induction p as [|a p IH]; intros r; simpl.
  - reflexivity.
  - now rewrite Ascii.eqb_refl.
Qed.

Lemma strip_prefix_Some : forall p s r,
  strip_prefix p s = Some r -> s = p +++ r.
Proof.
  induction p as [|a p IH]; intros s r; simpl.
  - congruence.
  - destruct s as [|b s]; [discriminate|].
    destruct (Ascii.eqb_spec a b) as [->|]; [|discriminate].
    intros H; now rewrite (IH _ _ H).
Qed.

Lemma has_nl_app : forall a b, has_nl (a +++ b) = has_nl a || has_nl b.
Proof.
  induction a as [|c a IH]; intros b; simpl.
  - reflexivity.
  - now rewrite IH, orb_assoc.
Qed.

Lemma has_lt_app : forall a b,
  has_line_terminator (a +++ b) =
  has_line_terminator a || has_line_terminator b.
Proof.
  induction a as [|c a IH]; intros b; simpl.
  - reflexivity.
  - now rewrite IH, orb_assoc.
Qed.

Lemma LF_is_line_terminator : forall c,
  Ascii.eqb c LF = true -> is_line_terminator c = true.
Proof. intros c H; apply Ascii.eqb_eq in H; subst; reflexivity. Qed.

Lemma no_lt_no_nl : forall s,
  has_line_terminator s = false -> has_nl s = false.
Proof.
  induction s as [|c s IH]; simpl; [reflexivity|].
  intros H; apply orb_false_iff in H as [Hc Hs].
  rewrite (IH Hs), orb_false_r.
  destruct (Ascii.eqb c LF) eqn:E; [|reflexivity].
  now rewrite (LF_is_line_terminator _ E) in Hc.
Qed.

(** *** [split] and [join] *)

Lemma split_nl_cons : forall s, exists l ls, split_nl s = l :: ls.
Proof.
  induction s as [|c s [l [ls IH]]]; simpl.
  - eauto.
  - destruct (Ascii.eqb c LF); [eauto|]. rewrite IH; eauto.
Qed.

Lemma split_nl_no_nl : forall s,
  Forall (fun l => has_nl l = false) (split_nl s).
Proof.
  induction s as [|c s IH]; simpl.
  - repeat constructor.
  - destruct (Ascii.eqb c LF) eqn:E.
    + constructor; [reflexivity | assumption].
    + destruct (split_nl s) as [|l ls]; [repeat constructor; simpl; now rewrite E|].
      inversion IH; subst. constructor; [|assumption].
      simpl. now rewrite E.
Qed.

Lemma split_nl_line : forall l s,
  has_nl l = false -> split_nl (l +++ nl +++ s) = l :: split_nl s.
Proof.
  induction l as [|c l IH]; intros s H; simpl in *.
  - reflexivity.
  - apply orb_false_iff in H as [Hc Hl].
    unfold nl in *. rewrite Hc, (IH s Hl). reflexivity.
Qed.

Lemma split_join_nl : forall ls,
  ls <> [] -> Forall (fun l => has_nl l = false) ls ->
  split_nl (join_nl ls +++ nl) = ls ++ [""].
Proof.
  unfold join_nl.
  induction ls as [|l ls IH]; intros Hne Hall; [congruence|].
  inversion Hall as [|? ? Hl Hls]; subst.
  destruct ls as [|l2 ls].
  - simpl. rewrite <- (append_nil_r nl) at 1.
    now rewrite split_nl_line.
  - change (join nl (l :: l2 :: ls)) with (l +++ nl +++ join nl (l2 :: ls)).
    rewrite !append_assoc, split_nl_line by assumption.
    rewrite IH by (assumption || discriminate). reflexivity.
Qed.

(** *** Decimal numerals *)

Lemma string_of_uint_digits : forall d,
  all_digits (NilEmpty.string_of_uint d) = true.
Proof. induction d; simpl; auto. Qed.

Lemma string_of_nat_digits : forall n, all_digits (string_of_nat n) = true.
Proof. intros; apply string_of_uint_digits. Qed.

Lemma string_of_nat_inj : forall n m,
  string_of_nat n = string_of_nat m -> n = m.
Proof.
  unfold string_of_nat; intros n m H.
  apply Unsigned.to_uint_inj.
  assert (E : Some (Nat.to_uint n) = Some (Nat.to_uint m))
    by (rewrite <- !NilEmpty.usu; now rewrite H).
  now inversion E.
Qed.

(** [a:x = b:y] with [x] and [y] numerals forces [a = b] and [x = y]. *)
Lemma colon_numeral_inj : forall a b x y,
  all_digits x = true -> all_digits y = true ->
  a +++ ":" +++ x = b +++ ":" +++ y -> a = b /\ x = y.
Proof.
  induction a as [|c a IH]; intros b x y Hx Hy E.
  - destruct b as [|c b]; simpl in E.
    + inversion E; auto.
    + inversion E as [[Hc Hx']]; subst x.
      simpl in Hx. clear - Hx.
      exfalso. induction b as [|d b IH]; simpl in Hx.
      * discriminate.
      * apply andb_true_iff in Hx as [_ Hx]. auto.
  - destruct b as [|d b]; simpl in E.
    + inversion E as [[Hc Hy']]; subst y.
      clear - Hy. exfalso.
      induction a as [|d a IH]; simpl in Hy.
      * discriminate.
      * apply andb_true_iff in Hy as [_ Hy]. auto.
    + inversion E as [[Hc E']]; subst d.
      destruct (IH _ _ _ Hx Hy E') as [-> ->]; auto.
Qed.

(** ** The parser's invariant *)

Lemma good_hunks_app : forall path a b i,
  good_hunks path i (a ++ b) <->
  good_hunks path i a /\ good_hunks path (i + length a) b.
Proof.
  induction a as [|h a IH]; intros b i; simpl.
  - rewrite Nat.add_0_r. tauto.
  - rewrite IH, <- plus_n_Sm. simpl. tauto.
Qed.

Lemma greedy_b_eq : forall c s,
  greedy_b (String c s) =
  match greedy_b s with
  | Some (g, t) => Some (String c g, t)
  | None =>
      do t <- strip_prefix " b/" (String c s);
      guard nonempty t; Some (EmptyString, t)
  end.
Proof. reflexivity. Qed.

Lemma greedy_b_None_tail : forall a t,
  greedy_b (a +++ t) = None -> greedy_b t = None.
Proof.
  induction a as [|c a IH]; intros t; simpl; [auto|].
  destruct (greedy_b (a +++ t)) as [[g u]|] eqn:E; [discriminate|].
  intros _. now apply IH.
Qed.

Lemma greedy_b_sound : forall s g t,
  greedy_b s = Some (g, t) ->
  s = g +++ " b/" +++ t /\ nonempty t = true /\ greedy_b t = None.
Proof.
  induction s as [|c s IH]; intros g t; [intros H; discriminate H|].
  rewrite greedy_b_eq.
  destruct (greedy_b s) as [[g' t']|] eqn:E.
  - intros H; inversion H; subst.
    destruct (IH _ _ eq_refl) as (-> & Hne & Hn). auto.
  - destruct (strip_prefix " b/" (String c s)) as [u|] eqn:Es; [|discriminate].
    destruct (nonempty u) eqn:Hu; [|discriminate].
    intros H; inversion H; subst.
    apply strip_prefix_Some in Es.
    split; [exact Es|]. split; [assumption|].
    simpl in Es. inversion Es; subst.
    apply (greedy_b_None_tail "b/"). exact E.
Qed.

Lemma greedy_b_complete : forall t,
  greedy_b t = None -> nonempty t = true ->
  forall g, greedy_b (g +++ " b/" +++ t) = Some (g, t).
Proof.
  intros t Hn Hne. induction g as [|c g IH].
  - change (greedy_b (String " " (String "b" (String "/" t))) = Some ("", t)).
    rewrite 3 greedy_b_eq, Hn. simpl. now rewrite Hne.
  - change (greedy_b (String c (g +++ " b/" +++ t)) = Some (String c g, t)).
    now rewrite greedy_b_eq, IH.
Qed.

Lemma path_ok_intro : forall n,
  greedy_b n = None -> nonempty n = true -> has_line_terminator n = false ->
  path_ok n.
Proof.
  intros n Hn Hne Hlt. split; [|assumption].
  unfold match_file_header. rewrite strip_prefix_app. cbv beta iota.
  rewrite has_lt_app, Hlt.
  change (" b/" +++ n) with (String " " (String "b" (String "/" n))).
  cbn [has_line_terminator]. rewrite Hlt.
  change (negb (false || (is_line_terminator " " ||
            (is_line_terminator "b" || (is_line_terminator "/" || false)))))
    with true.
  cbv beta iota.
  destruct n as [|a n]; [discriminate|].
  change (String a n +++ String " " (String "b" (String "/" (String a n))))
    with (String a (n +++ " b/" +++ String a n)).
  cbv beta iota.
  now rewrite (greedy_b_complete _ Hn Hne).
Qed.

Lemma match_file_header_path_ok : forall line o n,
  match_file_header line = Some (o, n) -> path_ok n.
Proof.
  unfold match_file_header. intros line o n.
  destruct (strip_prefix "diff --git a/" line) as [r|]; [|discriminate].
  destruct (has_line_terminator r) eqn:Hlt; [discriminate|].
  cbv beta iota.
  destruct r as [|c r]; [discriminate|].
  destruct (greedy_b r) as [[g t]|] eqn:E; [|discriminate].
  intros H; inversion H; subst.
  destruct (greedy_b_sound _ _ _ E) as (-> & Hne & Hn).
  cbn [has_line_terminator] in Hlt. rewrite !has_lt_app in Hlt.
  apply orb_false_iff in Hlt as [_ Hlt].
  apply orb_false_iff in Hlt as [_ Hlt].
  apply orb_false_iff in Hlt as [_ Hlt].
  now apply path_ok_intro.
Qed.

Lemma inv_init : inv init.
Proof. split; simpl; auto. Qed.

Lemma meta_step_inv : forall st l st',
  meta_step st l = Some st' -> inv st -> inv st'.
Proof.
  unfold meta_step, inv. intros st l st'.
  destruct (currentFile st) as [cf|] eqn:Ec; [|discriminate].
  destruct (startsWith "new file mode" l);
    [|destruct (startsWith "deleted file mode" l);
      [|destruct (other_meta l); [|discriminate]]];
    intros H; injection H as <-; simpl; auto.
  now rewrite Ec.
Qed.

Lemma good_hunk_push_line : forall path i h l,
  has_nl (content l) = false ->
  good_hunk path i h -> good_hunk path i (push_line h l).
Proof.
  intros path i h l Hl (m & Hm & Hw & Hh & Hls).
  exists m. simpl. repeat split; auto.
  apply Forall_app; split; auto.
Qed.

Lemma body_step_inv : forall st line,
  has_nl line = false -> inv st -> inv (body_step st line).
Proof.
  unfold body_step. intros st line Hnl Hinv.
  destruct (currentHunk st) as [h|] eqn:Eh; [|assumption].
  destruct line as [|p c]; [assumption|].
  simpl in Hnl. apply orb_false_iff in Hnl as [_ Hc].
  assert (K : forall t,
    inv (mkPState (st_files st) (currentFile st)
           (Some (push_line h (mkLine t c))) (hunkIndex st))).
  { intros t. destruct Hinv as [Hf Hc']. split; [exact Hf|]. simpl.
    destruct (currentFile st) as [cf|]; [|congruence].
    rewrite Eh in Hc'. simpl in *.
    destruct Hc' as (Hp & Hg & Hi). split; [assumption|].
    rewrite length_app in *. simpl in *. split; [|assumption].
    apply good_hunks_app in Hg as [Hg1 [Hg2 _]].
    apply good_hunks_app. split; [assumption|]. split; [|exact I].
    apply good_hunk_push_line; assumption. }
  destruct (Ascii.eqb p " "); [apply K|].
  destruct (Ascii.eqb p "-"); [apply K|].
  destruct (Ascii.eqb p "+"); [apply K|assumption].
Qed.

Lemma finish_good : forall st, inv st -> Forall good_file (finish st).
Proof.
  unfold finish, inv. intros st [Hf Hc].
  destruct (currentFile st) as [cf|]; [|assumption].
  destruct Hc as (Hp & Hg & _).
  apply Forall_app; split; [assumption|].
  constructor; [|constructor]. split; assumption.
Qed.

Lemma main_step_inv : forall st line,
  has_nl line = false -> inv st -> inv (fst (main_step st line)).
Proof.
  unfold main_step. intros st line Hnl Hinv.
  destruct (match_file_header line) as [[o n]|] eqn:Ef.
  - simpl. unfold open_file.
    pose proof (match_file_header_path_ok _ _ _ Ef) as Hp.
    pose proof (finish_good _ Hinv) as Hfin. unfold finish in Hfin.
    destruct Hinv as [Hf Hc].
    destruct (currentFile st) as [cf|]; split; simpl; auto.
    rewrite Hc; simpl; auto.
  - destruct (match_hunk_header line) as [m|] eqn:Em;
      [|simpl; now apply body_step_inv].
    destruct (currentFile st) as [cf|] eqn:Ec;
      [|simpl; now apply body_step_inv].
    destruct Hinv as [Hf Hc]. rewrite Ec in Hc.
    destruct Hc as (Hp & Hg & Hi).
    split; simpl; [assumption|]. split; [assumption|].
    rewrite length_app; simpl. split; [|lia].
    apply good_hunks_app. split; [assumption|]. split; [|exact I].
    simpl. rewrite <- Hi.
    exists m. simpl. repeat split; auto.
Qed.

Lemma parseLoop_inv : forall ls b st,
  Forall (fun l => has_nl l = false) ls -> inv st ->
  inv (parseLoop b st ls).
Proof.
  induction ls as [|line rest IH]; intros b st Hall Hinv; simpl.
  - assumption.
  - inversion Hall as [|? ? Hl Hrest]; subst.
    destruct (if b then meta_step st line else None) as [st'|] eqn:Em.
    + destruct b; [|discriminate].
      apply IH; [assumption|]. eapply meta_step_inv; eassumption.
    + pose proof (main_step_inv st line Hl Hinv) as Hm.
      destruct (main_step st line) as [st' m]. apply IH; assumption.
Qed.

Lemma parseDiff_good : forall s, Forall good_file (files (parseDiff s)).
Proof.
  intros s. unfold parseDiff, parseLines. simpl.
  apply finish_good, parseLoop_inv; [apply split_nl_no_nl | apply inv_init].
Qed.

(** ** Hunk identifiers *)

Lemma good_hunk_fields : forall path i h,
  good_hunk path i h ->
  id h = path +++ ":" +++ string_of_nat i /\ file h = path /\ index h = i /\
  parseHunkHeader (header h) =
    Some (oldStart h, oldCount h, newStart h, newCount h, context h).
Proof.
  intros path i h (m & Hm & Hw & _).
  unfold parseHunkHeader. rewrite Hm.
  pose proof (f_equal id Hw) as E1. pose proof (f_equal file Hw) as E2.
  pose proof (f_equal index Hw) as E3.
  pose proof (f_equal oldStart Hw) as E4.
  pose proof (f_equal oldCount Hw) as E5.
  pose proof (f_equal newStart Hw) as E6.
  pose proof (f_equal newCount Hw) as E7.
  pose proof (f_equal context Hw) as E8.
  simpl in *. subst. repeat split; congruence.
Qed.

Lemma good_hunks_ids : forall path hs i,
  good_hunks path i hs ->
  map id hs =
  map (fun k => path +++ ":" +++ string_of_nat k) (seq i (length hs)).
Proof.
  induction hs as [|h hs IH]; intros i; simpl; [reflexivity|].
  intros [Hh Hhs]. rewrite (IH _ Hhs).
  now destruct (good_hunk_fields _ _ _ Hh) as (-> & _).
Qed.

Lemma good_hunks_In : forall path hs i h,
  good_hunks path i hs -> In h hs -> exists k, good_hunk path k h.
Proof.
  induction hs as [|h' hs IH]; intros i h; simpl; [tauto|].
  intros [Hh Hhs] [<-|Hin]; eauto.
Qed.

Lemma id_of_inj : forall p q i j,
  p +++ ":" +++ string_of_nat i = q +++ ":" +++ string_of_nat j ->
  p = q /\ i = j.
Proof.
  intros p q i j E.
  apply colon_numeral_inj in E as [-> E]; auto using string_of_nat_digits.
  split; [reflexivity | now apply string_of_nat_inj].
Qed.

Lemma file_ids_NoDup : forall f,
  good_file f -> NoDup (map id (hunks f)).
Proof.
  intros f [_ Hg]. rewrite (good_hunks_ids _ _ _ Hg).
  apply NoDup_map_NoDup_ForallPairs; [|apply seq_NoDup].
  intros i j _ _ E. now apply id_of_inj in E.
Qed.

Lemma all_ids_NoDup : forall fs,
  Forall good_file fs -> NoDup (map newPath fs) ->
  NoDup (map id (flat_map hunks fs)).
Proof.
  induction fs as [|f fs IH]; intros Hall Hnd; simpl; [constructor|].
  inversion Hall as [|? ? Hf Hfs]; subst.
  inversion Hnd as [|? ? Hnotin Hnd']; subst.
  rewrite map_app.
  apply NoDup_app; [now apply file_ids_NoDup | now apply IH |].
  intros x Hx Hx'.
  apply in_map_iff in Hx as (h & <- & Hh).
  apply in_map_iff in Hx' as (h' & E & Hh').
  apply in_flat_map in Hh' as (g & Hg & Hh').
  rewrite Forall_forall in Hfs. specialize (Hfs g Hg).
  destruct Hf as [_ Hf]. destruct Hfs as [_ Hfs].
  destruct (good_hunks_In _ _ _ _ Hf Hh) as (k & Hk).
  destruct (good_hunks_In _ _ _ _ Hfs Hh') as (k' & Hk').
  destruct (good_hunk_fields _ _ _ Hk) as (E1 & _).
  destruct (good_hunk_fields _ _ _ Hk') as (E2 & _).
  rewrite E1, E2 in E. apply id_of_inj in E as [E _].
  apply Hnotin. rewrite <- E. now apply in_map.
Qed.

(** ** Parsing what the generator writes *)

Lemma add_lines_nil : forall h, add_lines h [] = h.
Proof. intros []; unfold add_lines, with_lines; simpl. now rewrite app_nil_r. Qed.

Lemma add_lines_push : forall h a l,
  push_line (add_lines h a) l = add_lines h (a ++ [l]).
Proof. intros; unfold add_lines, push_line, with_lines; simpl. now rewrite app_assoc. Qed.

Lemma render_line_step : forall F cf h idx l,
  main_step (mkPState F cf (Some h) idx) (render_line l) =
  (mkPState F cf (Some (push_line h l)) idx, false).
Proof. intros F cf h idx [[] c]; reflexivity. Qed.

Lemma render_lines_parse : forall ls F cf h idx rest,
  parseLoop false (mkPState F cf (Some h) idx) (map render_line ls ++ rest) =
  parseLoop false (mkPState F cf (Some (add_lines h ls)) idx) rest.
Proof.
  intros ls F cf h idx rest.
  rewrite <- (add_lines_nil h) at 1.
  change ls with ([] ++ ls) at 2. generalize (@nil DiffLine) as done.
  induction ls as [|l ls IH]; intros done.
  - now rewrite app_nil_r.
  - change (parseLoop false ?st (map render_line (l :: ls) ++ rest))
      with (let (st', m) := main_step st (render_line l) in
            parseLoop m st' (map render_line ls ++ rest)).
    rewrite render_line_step, add_lines_push. cbv beta iota.
    rewrite IH. now rewrite <- app_assoc.
Qed.

Lemma hunk_header_shape : forall line m,
  match_hunk_header line = Some m -> exists r, line = "@@ -" +++ r.
Proof.
  unfold match_hunk_header. intros line m.
  destruct (strip_prefix "@@ -" line) as [r|] eqn:E; [|discriminate].
  intros _. exists r. now apply strip_prefix_Some.
Qed.

Lemma hunk_header_step : forall b F cf ch idx line m rest,
  match_hunk_header line = Some m ->
  parseLoop b (mkPState F (Some cf) ch idx) (line :: rest) =
  parseLoop false
    (mkPState F (Some (push_hunks cf (olist ch)))
       (Some (newHunk (newPath cf) idx line m)) (S idx)) rest.
Proof.
  intros b F cf ch idx line m rest Hm.
  destruct (hunk_header_shape _ _ Hm) as [r ->].
  assert (Hmeta : (if b then meta_step (mkPState F (Some cf) ch idx)
                                ("@@ -" +++ r) else None) = None)
    by (destruct b; reflexivity).
  cbn [parseLoop]. rewrite Hmeta.
  unfold main_step.
  change (match_file_header ("@@ -" +++ r)) with (@None (string * string)).
  rewrite Hm. reflexivity.
Qed.

Lemma good_hunk_rebuild : forall path i h m,
  with_lines h [] = newHunk path i (header h) m ->
  add_lines (newHunk path i (header h) m) (lines h) = h.
Proof.
  intros path i h m Hw. rewrite <- Hw.
  destruct h; reflexivity.
Qed.

Lemma hunk_section_parse : forall h b F cf ch idx rest,
  good_hunk (newPath cf) idx h ->
  parseLoop b (mkPState F (Some cf) ch idx) (hunk_section h ++ rest) =
  parseLoop false
    (mkPState F (Some (push_hunks cf (olist ch))) (Some h) (S idx)) rest.
Proof.
  intros h b F cf ch idx rest (m & Hm & Hw & _).
  unfold hunk_section. rewrite <- app_comm_cons.
  rewrite (hunk_header_step _ _ _ _ _ _ _ _ Hm), render_lines_parse.
  now rewrite (good_hunk_rebuild _ _ _ _ Hw).
Qed.

Lemma push_hunks_push : forall cf a b,
  push_hunks (push_hunks cf a) b = push_hunks cf (a ++ b).
Proof. intros; unfold push_hunks; simpl. now rewrite app_assoc. Qed.

Lemma hunk_sections_parse : forall hs b F cf ch idx rest,
  hs <> [] -> good_hunks (newPath cf) idx hs ->
  exists cf' ch',
    parseLoop b (mkPState F (Some cf) ch idx)
      (flat_map hunk_section hs ++ rest) =
    parseLoop false (mkPState F (Some cf') (Some ch') (idx + length hs)) rest
    /\ push_hunks cf' [ch'] = push_hunks cf (olist ch ++ hs).
Proof.
  induction hs as [|h hs IH]; intros b F cf ch idx rest Hne Hg;
    [congruence|].
  destruct Hg as [Hh Hhs].
  cbn [flat_map]. rewrite <- app_assoc, (hunk_section_parse _ _ _ _ _ _ _ Hh).
  destruct hs as [|h2 hs].
  - exists (push_hunks cf (olist ch)), h. simpl.
    rewrite Nat.add_1_r, push_hunks_push. auto.
  - destruct (IH false F (push_hunks cf (olist ch)) (Some h) (S idx) rest)
      as (cf' & ch' & E & Hp); [discriminate | exact Hhs |].
    assert (En : S idx + length (h2 :: hs) = idx + length (h :: h2 :: hs))
      by (simpl; lia).
    exists cf', ch'. rewrite E, Hp, push_hunks_push, En.
    split; reflexivity.
Qed.

Lemma sort_ascending : forall l, ascending l = true -> sort_hunks l = l.
Proof.
  induction l as [|h t IH]; intros H; [reflexivity|].
  change (sort_hunks (h :: t)) with (insert_hunk h (sort_hunks t)).
  destruct t as [|h2 t]; [reflexivity|].
  cbn [ascending] in H. apply andb_true_iff in H as [Hle Ht].
  rewrite (IH Ht). cbn [insert_hunk]. now rewrite Hle.
Qed.

Lemma open_file_closed : forall st o n,
  closed st ->
  open_file st o n =
  mkPState (finish st)
    (Some (mkFile o n false false (negb (String.eqb o n)) [])) None 0.
Proof.
  unfold closed, open_file, finish. intros st o n H.
  destruct (currentFile st); [reflexivity|]. now rewrite H.
Qed.

Lemma file_section_parse : forall f st rest,
  closed st -> good_file f -> hunks f <> [] ->
  ascending (hunks f) = true ->
  exists st',
    parseLoop false st (file_section (newPath f, hunks f) ++ rest) =
    parseLoop false st' rest /\
    finish st' = finish st ++ [normal_file f] /\ closed st'.
Proof.
  intros f st rest Hst [[Hpath Hlt] Hg] Hne Hasc.
  unfold file_section. rewrite (sort_ascending _ Hasc).
  set (F := newPath f) in *.
  set (f0 := mkFile F F false false (negb (String.eqb F F)) []).
  destruct (hunk_sections_parse (hunks f) true (finish st) f0 None 0 rest
              Hne Hg) as (cf' & ch' & E & Hp).
  exists (mkPState (finish st) (Some cf') (Some ch') (0 + length (hunks f))).
  split; [|split].
  - rewrite <- E. rewrite <- !app_comm_cons.
    cbn [parseLoop]. unfold main_step. rewrite Hpath.
    rewrite (open_file_closed _ _ _ Hst). fold f0.
    reflexivity.
  - unfold finish at 1. simpl. fold (push_hunks cf' [ch']). rewrite Hp.
    unfold f0, normal_file, push_hunks. simpl.
    now rewrite String.eqb_refl.
  - intros H; discriminate H.
Qed.

Lemma file_sections_parse : forall fs st rest,
  closed st ->
  Forall (fun f => good_file f /\ hunks f <> [] /\
                   ascending (hunks f) = true) fs ->
  exists st',
    parseLoop false st (flat_map file_section (map file_group fs) ++ rest) =
    parseLoop false st' rest /\
    finish st' = finish st ++ map normal_file fs /\ closed st'.
Proof.
  induction fs as [|f fs IH]; intros st rest Hst Hall.
  - exists st. simpl. rewrite app_nil_r. auto.
  - inversion Hall as [|? ? (Hf & Hne & Hasc) Hfs]; subst.
    cbn [map flat_map]. rewrite <- app_assoc.
    destruct (file_section_parse f st
                (flat_map file_section (map file_group fs) ++ rest)
                Hst Hf Hne Hasc) as (st1 & E1 & F1 & C1).
    destruct (IH st1 rest C1 Hfs) as (st2 & E2 & F2 & C2).
    exists st2. unfold file_group at 1. rewrite E1, E2, F2, F1.
    rewrite <- app_assoc. auto.
Qed.

Lemma parse_sections : forall fs,
  Forall (fun f => good_file f /\ hunks f <> [] /\
                   ascending (hunks f) = true) fs ->
  parseLines (flat_map file_section (map file_group fs) ++ [""]) =
  map normal_file fs.
Proof.
  intros fs Hall. unfold parseLines.
  destruct (file_sections_parse fs init [""] (fun _ => eq_refl) Hall)
    as (st' & E & Hf & _).
  rewrite E. cbn [parseLoop]. unfold main_step.
  change (match_file_header "") with (@None (string * string)).
  change (match_hunk_header "") with (@None HeaderMatch).
  cbv beta iota.
  replace (body_step st' "") with st'
    by (unfold body_step; now destruct (currentHunk st')).
  exact Hf.
Qed.

(** ** Grouping by file *)

Lemma map_push_new : forall (m : list (string * list Hunk)) k v,
  ~ In k (map fst m) -> map_push m k v = m ++ [(k, [v])].
Proof.
  induction m as [|[k' vs] m IH]; intros k v Hk; simpl; [reflexivity|].
  simpl in Hk.
  destruct (String.eqb_spec k' k) as [->|_]; [tauto|].
  rewrite IH; tauto.
Qed.

Lemma map_push_last : forall (m : list (string * list Hunk)) k vs v,
  ~ In k (map fst m) ->
  map_push (m ++ [(k, vs)]) k v = m ++ [(k, vs ++ [v])].
Proof.
  induction m as [|[k' vs'] m IH]; intros k vs v Hk; simpl.
  - now rewrite String.eqb_refl.
  - simpl in Hk. destruct (String.eqb_spec k' k) as [->|_]; [tauto|].
    rewrite IH; tauto.
Qed.

Lemma push_all_cons : forall m h t,
  push_all m (h :: t) = push_all (map_push m (file h) h) t.
Proof. reflexivity. Qed.

Lemma push_all_app : forall a b m,
  push_all m (a ++ b) = push_all (push_all m a) b.
Proof. intros; unfold push_all; apply fold_left_app. Qed.

Lemma push_all_block : forall blk m k vs,
  Forall (fun h => file h = k) blk -> ~ In k (map fst m) ->
  push_all (m ++ [(k, vs)]) blk = m ++ [(k, vs ++ blk)].
Proof.
  induction blk as [|h blk IH]; intros m k vs Hall Hk.
  - simpl. now rewrite app_nil_r.
  - inversion Hall as [|? ? Hh Hblk]; subst.
    rewrite push_all_cons, map_push_last by assumption.
    rewrite IH by assumption.
    now rewrite <- app_assoc.
Qed.

Lemma good_file_hunk_files : forall f,
  good_file f -> Forall (fun h => file h = newPath f) (hunks f).
Proof.
  intros f [_ Hg]. apply Forall_forall. intros h Hh.
  destruct (good_hunks_In _ _ _ _ Hg Hh) as (k & Hk).
  now destruct (good_hunk_fields _ _ _ Hk) as (_ & E & _).
Qed.

Lemma push_all_files : forall fs m,
  Forall good_file fs -> NoDup (map newPath fs) ->
  (forall f, In f fs -> ~ In (newPath f) (map fst m)) ->
  push_all m (flat_map hunks fs) = m ++ map file_group (filter has_hunks fs).
Proof.
  induction fs as [|f fs IH]; intros m Hall Hnd Hm; simpl.
  - now rewrite app_nil_r.
  - inversion Hall as [|? ? Hf Hfs]; subst.
    inversion Hnd as [|? ? Hnotin Hnd']; subst.
    rewrite push_all_app.
    pose proof (good_file_hunk_files f Hf) as Hfiles.
    unfold has_hunks at 1.
    destruct (hunks f) as [|h hs] eqn:Eh.
    + simpl. apply IH; auto. intros g Hg. apply Hm. now right.
    + assert (Hk : ~ In (newPath f) (map fst m)) by (apply Hm; now left).
      inversion Hfiles as [|? ? Hh Hhs]; subst.
      assert (E : push_all m (h :: hs) = m ++ [(newPath f, h :: hs)]).
      { rewrite push_all_cons, Hh, map_push_new by assumption.
        now rewrite push_all_block. }
      rewrite E, IH; auto.
      * rewrite <- app_assoc. simpl. unfold file_group at 2.
        now rewrite Eh.
      * intros g Hg Hin. rewrite map_app, in_app_iff in Hin.
        destruct Hin as [Hin|[Hin|[]]].
        -- apply (Hm g); [now right | assumption].
        -- simpl in Hin. apply Hnotin. rewrite Hin. now apply in_map.
Qed.

Lemma byFile_files : forall fs,
  Forall good_file fs -> NoDup (map newPath fs) ->
  byFile (flat_map hunks fs) = map file_group (filter has_hunks fs).
Proof.
  intros fs Hall Hnd.
  exact (push_all_files fs [] Hall Hnd (fun _ _ H => H)).
Qed.

Lemma flat_map_has_hunks : forall fs,
  flat_map hunks (filter has_hunks fs) = flat_map hunks fs.
Proof.
  induction fs as [|f fs IH]; simpl; [reflexivity|].
  unfold has_hunks at 1. destruct (hunks f) eqn:E; simpl.
  - assumption.
  - now rewrite E, IH.
Qed.

Lemma flat_map_normal : forall fs,
  flat_map hunks (map normal_file fs) = flat_map hunks fs.
Proof. induction fs as [|f fs IH]; simpl; [reflexivity | now rewrite IH]. Qed.

(** ** Lines written by the generator hold no line feed *)

Lemma render_line_no_nl : forall l,
  has_nl (content l) = false -> has_nl (render_line l) = false.
Proof. intros [[] c] H; simpl in *; assumption. Qed.

Lemma hunk_section_no_nl : forall path i h,
  good_hunk path i h ->
  Forall (fun l => has_nl l = false) (hunk_section h).
Proof.
  intros path i h (m & _ & _ & Hh & Hls).
  constructor; [assumption|].
  apply Forall_forall. intros x Hx.
  apply in_map_iff in Hx as (l & <- & Hl).
  rewrite Forall_forall in Hls. apply render_line_no_nl; auto.
Qed.

Lemma hunk_sections_no_nl : forall path hs i,
  good_hunks path i hs ->
  Forall (fun l => has_nl l = false) (flat_map hunk_section hs).
Proof.
  induction hs as [|h hs IH]; intros i; [constructor|].
  intros [Hh Hhs]. cbn [flat_map]. apply Forall_app. split.
  - eapply hunk_section_no_nl; eassumption.
  - eapply IH; eassumption.
Qed.

Lemma file_section_no_nl : forall f,
  good_file f -> ascending (hunks f) = true ->
  Forall (fun l => has_nl l = false) (file_section (file_group f)).
Proof.
  intros f [[_ Hlt] Hg] Hasc.
  unfold file_group, file_section. rewrite (sort_ascending _ Hasc).
  pose proof (no_lt_no_nl _ Hlt) as Hnl.
  repeat constructor.
  - rewrite !has_nl_app, Hnl. reflexivity.
  - rewrite has_nl_app, Hnl. reflexivity.
  - rewrite has_nl_app, Hnl. reflexivity.
  - eapply hunk_sections_no_nl; eassumption.
Qed.

(** ** Round trip through the generator *)

Lemma sections_no_nl : forall fs,
  Forall (fun f => good_file f /\ hunks f <> [] /\
                   ascending (hunks f) = true) fs ->
  Forall (fun l => has_nl l = false)
    (flat_map file_section (map file_group fs)).
Proof.
  induction fs as [|f fs IH]; intros Hall; [constructor|].
  inversion Hall as [|? ? (Hf & _ & Hasc) Hfs]; subst.
  cbn [map flat_map]. apply Forall_app. split.
  - now apply file_section_no_nl.
  - now apply IH.
Qed.

Lemma round_trip_files : forall fs,
  Forall good_file fs -> NoDup (map newPath fs) ->
  Forall (fun f => ascending (hunks f) = true) fs ->
  files (parseDiff (generatePatch (flat_map hunks fs))) =
  map normal_file (filter has_hunks fs).
Proof.
  intros fs Hgood Hnd Hasc.
  assert (Hall : Forall (fun f => good_file f /\ hunks f <> [] /\
                                  ascending (hunks f) = true)
                   (filter has_hunks fs)).
  { apply Forall_forall. intros f Hf. apply filter_In in Hf as [Hin Hh].
    rewrite Forall_forall in Hgood, Hasc.
    repeat split; try apply Hgood; try apply Hasc; auto.
    unfold has_hunks in Hh. now destruct (hunks f). }
  unfold generatePatch, sections.
  rewrite (byFile_files fs Hgood Hnd).
  destruct (flat_map hunks fs) as [|h hs] eqn:Ehs.
  - rewrite <- flat_map_has_hunks in Ehs.
    destruct (filter has_hunks fs) as [|f gs]; [reflexivity|].
    inversion Hall as [|? ? (_ & Hne & _) _]; subst.
    simpl in Ehs. destruct (hunks f); [congruence | discriminate].
  - unfold parseDiff. cbn [files]. rewrite split_join_nl.
    + now apply parse_sections.
    + rewrite <- flat_map_has_hunks in Ehs.
      destruct (filter has_hunks fs) as [|f gs]; [discriminate|].
      discriminate.
    + now apply sections_no_nl.
Qed.

(** ** Editing *)

Lemma has_In : forall s i, has s i = true <-> In i s.
Proof.
  unfold has. intros s i. rewrite existsb_exists. split.
  - intros (x & Hx & E). apply Nat.eqb_eq in E. now subst.
  - intros H. exists i. split; [assumption | apply Nat.eqb_refl].
Qed.

Lemma edit_lines_remove : forall drop ls k,
  (forall j l, nth_error ls j = Some l -> In (k + j) drop -> type l = Add) ->
  edit_lines drop [] k ls = remove_positions drop k ls.
Proof.
  induction ls as [|l t IH]; intros k H; [reflexivity|].
  assert (Ht : edit_lines drop [] (S k) t = remove_positions drop (S k) t).
  { apply IH. intros j l' Hj Hin. apply (H (S j) l' Hj).
    now rewrite <- plus_n_Sm. }
  cbn [edit_lines remove_positions]. rewrite Ht.
  destruct (has drop k) eqn:Eh.
  - apply has_In in Eh.
    rewrite (H 0 l eq_refl) by now rewrite Nat.add_0_r. reflexivity.
  - destruct (type l); reflexivity.
Qed.

Lemma edit_lines_idle : forall K ls k,
  (forall i, In i K -> i < k) -> edit_lines [] K k ls = ls.
Proof.
  induction ls as [|l t IH]; intros k H; [reflexivity|].
  cbn [edit_lines]. rewrite IH by (intros i Hi; specialize (H i Hi); lia).
  destruct l as [[] c]; cbn; try reflexivity.
  destruct (has K k) eqn:E; [|reflexivity].
  apply has_In in E. specialize (H k E). lia.
Qed.

Lemma edit_lines_keep : forall c ls k i,
  nth_error ls i = Some (mkLine Remove c) ->
  edit_lines [] [k + i] k ls =
  firstn i ls ++ mkLine Context c :: skipn (S i) ls.
Proof.
  induction ls as [|l t IH]; intros k i H.
  - destruct i; discriminate.
  - destruct i as [|i].
    + simpl in H. injection H as ->.
      cbn [edit_lines type content firstn skipn app].
      unfold has at 1. cbn [existsb]. rewrite Nat.add_0_r, Nat.eqb_refl.
      cbn [orb]. rewrite edit_lines_idle; [reflexivity|].
      intros j [<-|[]]. lia.
    + cbn [nth_error] in H.
      cbn [edit_lines firstn skipn app].
      rewrite <- plus_n_Sm.
      change (S (k + i)) with (S k + i).
      rewrite (IH (S k) i H).
      assert (E : has [S k + i] k = false).
      { unfold has. cbn [existsb]. rewrite orb_false_r.
        apply Nat.eqb_neq. lia. }
      rewrite E. destruct l as [[] c']; reflexivity.
Qed.

Lemma nth_error_split_at : forall (ls : list DiffLine) i l,
  nth_error ls i = Some l -> ls = firstn i ls ++ l :: skipn (S i) ls.
Proof.
  induction ls as [|x t IH]; intros i l H.
  - destruct i; discriminate.
  - destruct i as [|i]; simpl in *.
    + now injection H as ->.
    + now rewrite <- (IH i l H).
Qed.

Lemma old_lines_app : forall a b, old_lines (a ++ b) = old_lines a + old_lines b.
Proof. intros; unfold old_lines. now rewrite filter_app, length_app. Qed.

Lemma new_lines_app : forall a b, new_lines (a ++ b) = new_lines a + new_lines b.
Proof. intros; unfold new_lines. now rewrite filter_app, length_app. Qed.

Lemma keep_counts : forall ls i c,
  nth_error ls i = Some (mkLine Remove c) ->
  old_lines (firstn i ls ++ mkLine Context c :: skipn (S i) ls) =
    old_lines ls /\
  new_lines (firstn i ls ++ mkLine Context c :: skipn (S i) ls) =
    S (new_lines ls).
Proof.
  intros ls i c H.
  pose proof (nth_error_split_at ls i _ H) as E.
  rewrite E at 3 6.
  rewrite !old_lines_app, !new_lines_app.
  change (mkLine Context c :: skipn (S i) ls)
    with ([mkLine Context c] ++ skipn (S i) ls).
  change (mkLine Remove c :: skipn (S i) ls)
    with ([mkLine Remove c] ++ skipn (S i) ls).
  rewrite !old_lines_app, !new_lines_app.
  unfold old_lines, new_lines; simpl. lia.
Qed.

(** ** Complexity *)

Lemma index_lines_counts : forall ls i o n,
  length (snd (fst (index_lines i o n ls))) = count_type Add ls /\
  length (snd (index_lines i o n ls)) = count_type Remove ls.
Proof.
  unfold count_type.
  induction ls as [|[t c] ls IH]; intros i o n; [now split|].
  cbn [index_lines type].
  destruct t.
  - specialize (IH (S i) (S o) (S n)).
    destruct (index_lines (S i) (S o) (S n) ls) as [[ils adds] rems].
    simpl in *. exact IH.
  - specialize (IH (S i) o (S n)).
    destruct (index_lines (S i) o (S n) ls) as [[ils adds] rems].
    simpl in *. destruct IH as [-> ->]. auto.
  - specialize (IH (S i) (S o) n).
    destruct (index_lines (S i) (S o) n ls) as [[ils adds] rems].
    simpl in *. destruct IH as [-> ->]. auto.
Qed.

(** ** The executor *)

Section ExecutorFacts.

Variable World : Type.
Variable check : string -> World -> CheckResult * World.
Variable apply : string -> World -> ApplyResult * World.
Variable diff : ParsedDiff.

Let run := execLoop World check apply diff.

(** The loop over [pre ++ post] is the loop over [pre], continued over
    [post] only when [pre] ended without a failure. *)
Lemma execLoop_app : forall pre post staged w,
  run (pre ++ post) staged w =
  (let (r, w') := run pre staged w in
   if ok r then run post (stagedHunks r) w' else (r, w')).
Proof.
  unfold run.
  induction pre as [|s pre IH]; intros post staged w; [reflexivity|].
  rewrite <- app_comm_cons. simpl.
  destruct (mode s); try apply IH;
    (destruct (getHunk diff (hunkId s)) as [h|]; [|reflexivity];
     destruct (check (selection_patch h s) w) as [c w1];
     destruct (negb (applies c)); [reflexivity|];
     destruct (apply (selection_patch h s) w1) as [a w2];
     destruct (negb (success a)); [reflexivity|]; apply IH).
Qed.

(** After a run without failure, [stagedHunks] grew by the ids of the
    selections that were not skipped, in order. *)
Lemma execLoop_ok_staged : forall sels staged w r w',
  run sels staged w = (r, w') -> ok r = true ->
  error r = None /\
  stagedHunks r = staged ++ map hunkId (attempted sels).
Proof.
  unfold run.
  induction sels as [|s sels IH]; intros staged w r w'.
  - cbn. intros H _. injection H as <- <-. cbn. now rewrite app_nil_r.
  - simpl.
    destruct (mode s) eqn:Em; simpl;
      try (intros H Hok; exact (IH _ _ _ _ H Hok));
      (destruct (getHunk diff (hunkId s)) as [h|];
       [|intros H Hok; injection H as <- <-; discriminate Hok];
       destruct (check (selection_patch h s) w) as [c w1];
       destruct (negb (applies c));
       [intros H Hok; injection H as <- <-; discriminate Hok|];
       destruct (apply (selection_patch h s) w1) as [a w2];
       destruct (negb (success a));
       [intros H Hok; injection H as <- <-; discriminate Hok|];
       intros H Hok; destruct (IH _ _ _ _ H Hok) as [He Hs];
       split; [exact He|]; rewrite Hs, <- app_assoc; reflexivity).
Qed.

End ExecutorFacts.






(** ** Letter case of the checkbox characters *)

Lemma variant_commit_message : forall b l l',
  checkbox_variant b l l' ->
  match_commit_message l = match_commit_message l'.
Proof. intros b l l' []; reflexivity. Qed.

Lemma variant_file_checkbox : forall l l',
  checkbox_variant true l l' ->
  match_file_checkbox l = match_file_checkbox l'.
Proof. intros l l' [| |rest H]; try reflexivity. discriminate H. Qed.

Lemma variant_doc_step : forall b l l',
  checkbox_variant b l l' -> forall s, doc_step s l = doc_step s l'.
Proof.
  intros b l l' [l0|rest|rest _ H] s; try reflexivity.
  unfold doc_step.
  change (match_entire_hunk ("[X]" +++ rest))
    with (match_entire_hunk ("[x]" +++ rest)).
  rewrite H. reflexivity.
Qed.

Lemma fold_left_variant : forall (A : Type) (R : string -> string -> Prop)
  (f : A -> string -> A) ls ls',
  Forall2 R ls ls' -> (forall l l', R l l' -> forall s, f s l = f s l') ->
  forall s, fold_left f ls s = fold_left f ls' s.
Proof.
  intros A R f ls ls' H Hf. induction H as [|l l' ls ls' Hl _ IH]; intros s.
  - reflexivity.
  - simpl. now rewrite (Hf _ _ Hl), IH.
Qed.

Lemma find_commit_message_variant : forall b ls ls',
  Forall2 (checkbox_variant b) ls ls' ->
  find_commit_message ls = find_commit_message ls'.
Proof.
  intros b ls ls' H. induction H as [|l l' ls ls' Hl _ IH]; [reflexivity|].
  simpl. now rewrite (variant_commit_message _ _ _ Hl), IH.
Qed.

Lemma parse_lines_variant : forall ls ls' diff,
  Forall2 (checkbox_variant (has_diff diff)) ls ls' ->
  parseStagingPlanLines ls diff = parseStagingPlanLines ls' diff.
Proof.
  intros ls ls' diff H. unfold parseStagingPlanLines.
  rewrite (find_commit_message_variant _ _ _ H).
  assert (E : file_level diff (fileLevelSelections ls) =
              file_level diff (fileLevelSelections ls')).
  { destruct diff as [d|]; [|reflexivity].
    unfold fileLevelSelections.
    rewrite (fold_left_variant _ _ _ _ _ H); [reflexivity|].
    intros l l' Hl s. cbn [has_diff] in Hl.
    now rewrite (variant_file_checkbox _ _ Hl). }
  rewrite E.
  rewrite (fold_left_variant _ _ doc_step _ _ H); [reflexivity|].
  intros l l' Hl. now apply (variant_doc_step _ _ _ Hl).
Qed.

(** * The properties C1 to C10 of the specification *)

(** ** C1: count consistency *)

(** C1, as stated, fails for the parser: [parseDiff] copies [oldCount] and
    [newCount] from the hunk header, so a header that disagrees with its
    body gives a hunk whose [oldCount] is not the number of its non-Add
    lines. *)
Lemma C1_parser_trusts_header :
  ~ (forall h, In h (getAllHunks (parseDiff short_body_diff)) ->
               count_consistent h).
Proof.
  intros H.
  assert (Hin : In (mkHunk "f:0" "f" 0 "@@ -1,5 +1,4 @@" 1 5 1 4
                      [mkLine Context "x"] None)
                  (getAllHunks (parseDiff short_body_diff)))
    by (vm_compute; now left).
  destruct (H _ Hin) as [Hold _]. vm_compute in Hold. discriminate Hold.
Qed.

(** C1, amended: every hunk returned by [editHunk] and every sub-hunk that
    [splitHunk] builds for a splittable hunk has [oldCount] equal to the
    number of its non-Add lines and [newCount] equal to the number of its
    non-Remove lines; [splitHunk] returns a hunk that is not splittable
    unchanged, so its counts are consistent when they were; and a hunk
    built by [parseDiff] carries the start lines and counts that
    [parseHunkHeader] reads in its header (a count left out being 1),
    whatever its body holds. *)
Theorem C1_count_consistency :
  (forall h m, count_consistent (editHunk h m)) /\
  (forall h g s,
     In s (splitHunk h g) ->
     isSplittable h g = true \/ count_consistent h ->
     count_consistent s) /\
  (forall text h,
     In h (getAllHunks (parseDiff text)) ->
     parseHunkHeader (header h) =
       Some (oldStart h, oldCount h, newStart h, newCount h, context h)).
Proof.
  split; [|split].
  - intros h m. apply editHunk_counts.
  - intros h g s Hin Hcase. unfold splitHunk in Hin.
    destruct (isSplittable h g); cbn [negb] in Hin.
    + eapply groups_to_hunks_consistent; eassumption.
    + destruct Hin as [<-|[]]. destruct Hcase as [Hc|Hc]; [discriminate|assumption].
  - intros text h Hin. apply in_flat_map in Hin as (f & Hf & Hh).
    pose proof (parseDiff_good text) as Hgood.
    rewrite Forall_forall in Hgood. destruct (Hgood f Hf) as [_ Hg].
    destruct (good_hunks_In _ _ _ _ Hg Hh) as (k & Hk).
    now destruct (good_hunk_fields _ _ _ Hk) as (_ & _ & _ & E).
Qed.

Lemma C1_count_consistency_witness :
  count_consistent (editHunk mixed_hunk (mkMods (Some [1]) (Some [2]))) /\
  count_consistent
    (mkHunk "test.txt:0.1" "test.txt" 0 "@@ -3,4 +4,5 @@" 3 4 4 5
       [mkLine Context "line 2"; mkLine Context "line 3";
        mkLine Context "line 4"; mkLine Add "added 2";
        mkLine Context "line 5"] None) /\
  parseHunkHeader "@@ -1,5 +1,4 @@" = Some (1, 5, 1, 4, None).
Proof.
  destruct C1_count_consistency as (Hedit & Hsplit & Hparse).
  split; [apply Hedit|]. split.
  - apply (Hsplit gap_hunk 1).
    + vm_compute. right. left. reflexivity.
    + left. vm_compute. reflexivity.
  - apply (Hparse short_body_diff
             (mkHunk "f:0" "f" 0 "@@ -1,5 +1,4 @@" 1 5 1 4
                [mkLine Context "x"] None)).
    vm_compute. left. reflexivity.
Defined.

(** ** C2: edit index semantics *)

(** C2, as stated, fails: [editHunk] counts the lines of its result and
    does not adjust the counts it was given. For a hunk that [parseDiff]
    read under a header that disagrees with the body (here the header
    says 5 old and 4 new lines and the body is one removal), keeping the
    removal gives [oldCount] 1 and [newCount] 1: [oldCount] is not
    unchanged and [newCount] is not one more. *)
Lemma C2_counts_are_recounted :
  exists h,
    getAllHunks (parseDiff stale_header_diff) = [h] /\
    nth_error (lines h) 0 = Some (mkLine Remove "x") /\
    oldCount h = 5 /\ newCount h = 4 /\
    oldCount (editHunk h (mkMods None (Some [0]))) = 1 /\
    newCount (editHunk h (mkMods None (Some [0]))) = 1.
Proof. eexists. vm_compute. repeat split; reflexivity. Qed.

(** C2, amended: for every hunk [h] and every set [drop] of positions of
    Add lines of [h], the lines of [editHunk h {removeAdditions: drop}] are the
    lines of [h] without the positions in [drop]; and when line [i] of
    [h] is a Remove line, [editHunk h {keepRemovals: [i]}] has the lines
    of [h] with line [i] rewritten to Context with the same content, its
    [oldCount] is the number of old-side lines of [h] and its [newCount]
    one more than the number of new-side lines of [h]: for a hunk whose
    counts agree with its lines, [oldCount] is unchanged and [newCount]
    grows by one. *)
Theorem C2_edit_index_semantics : forall h,
  (forall drop,
     (forall i, In i drop ->
                exists c, nth_error (lines h) i = Some (mkLine Add c)) ->
     lines (editHunk h (mkMods (Some drop) None)) =
     remove_positions drop 0 (lines h)) /\
  (forall i c,
     nth_error (lines h) i = Some (mkLine Remove c) ->
     let e := editHunk h (mkMods None (Some [i])) in
     lines e = firstn i (lines h) ++ mkLine Context c :: skipn (S i) (lines h)
     /\ oldCount e = old_lines (lines h)
     /\ newCount e = S (new_lines (lines h))
     /\ (count_consistent h ->
         oldCount e = oldCount h /\ newCount e = S (newCount h))).
Proof.
  intros h. split.
  - intros drop Hdrop. rewrite editHunk_lines. cbn [set_of removeAdditions keepRemovals].
    apply edit_lines_remove. intros j l Hj Hin.
    destruct (Hdrop _ Hin) as [c Hc]. simpl in Hc. rewrite Hj in Hc.
    now injection Hc as ->.
  - intros i c Hi e.
    assert (El : lines e =
                 firstn i (lines h) ++ mkLine Context c :: skipn (S i) (lines h)).
    { unfold e. rewrite editHunk_lines. cbn [set_of removeAdditions keepRemovals].
      now apply (edit_lines_keep c (lines h) 0 i). }
    destruct (editHunk_counts h (mkMods None (Some [i]))) as [Eo En].
    fold e in Eo, En. rewrite El in Eo, En.
    destruct (keep_counts _ _ _ Hi) as [Ko Kn]. rewrite Ko in Eo. rewrite Kn in En.
    repeat split; try assumption.
    + destruct H as [Ho _]. congruence.
    + destruct H as [_ Hn]. congruence.
Qed.

Lemma C2_edit_index_semantics_witness :
  lines (editHunk mixed_hunk (mkMods (Some [3]) None)) =
    [mkLine Context "a"; mkLine Add "b"; mkLine Remove "c";
     mkLine Context "e"] /\
  lines (editHunk removal_hunk (mkMods None (Some [1]))) =
    [mkLine Context "line 1"; mkLine Context "removed line";
     mkLine Context "line 2"] /\
  oldCount (editHunk removal_hunk (mkMods None (Some [1]))) = 3 /\
  newCount (editHunk removal_hunk (mkMods None (Some [1]))) = 3.
Proof.
  split.
  - refine (proj1 (C2_edit_index_semantics mixed_hunk) [3] _).
    intros i [<-|[]]. exists "d". reflexivity.
  - destruct (proj2 (C2_edit_index_semantics removal_hunk) 1 "removed line"
                eq_refl) as (Hl & _ & _ & Hc).
    destruct (Hc (conj eq_refl eq_refl)) as [Ho Hn].
    split; [exact Hl|]. split; [exact Ho | exact Hn].
Defined.

(** ** C3: round trip *)

(** C3, as stated, fails: [generatePatch] writes the hunks of a file in
    ascending order of [oldStart] and the parser numbers hunks in the
    order it meets them, so after the round trip the id [f:0] names the
    hunk that was [f:1].  It also fails when two files of the diff have
    the same path, whose hunks the generator puts under one header, and
    when a file has no hunk, which the generator does not write. *)
Lemma C3_round_trip_reorders :
  (let d := parseDiff unordered_diff in
   per_file_view (parseDiff (generatePatch (getAllHunks d))) <>
   per_file_view d) /\
  (let d := parseDiff repeated_file_diff in
   per_file_view (parseDiff (generatePatch (getAllHunks d))) <>
   per_file_view d) /\
  (let d := parseDiff mode_change_diff in
   per_file_view (parseDiff (generatePatch (getAllHunks d))) <>
   per_file_view d).
Proof. repeat split; vm_compute; intros H; discriminate H. Qed.

(** C3, amended: for every text whose parse [d] has pairwise distinct file
    paths and, in every file, hunks in ascending order of [oldStart],
    parsing [generatePatch (getAllHunks d)] gives back every hunk of [d]
    unchanged (id, lines, start lines and counts), file by file, for the
    files that have a hunk; such a file comes back with the generator's
    simplified header (old path equal to the new path, not new, not
    deleted) and a file without a hunk does not come back. *)
Theorem C3_round_trip : forall text,
  let d := parseDiff text in
  NoDup (map newPath (files d)) ->
  Forall (fun f => ascending (hunks f) = true) (files d) ->
  let d' := parseDiff (generatePatch (getAllHunks d)) in
  files d' = map normal_file (filter has_hunks (files d)) /\
  getAllHunks d' = getAllHunks d /\
  per_file_view d' = per_file_view (mkParsed (filter has_hunks (files d))).
Proof.
  intros text d Hnd Hasc d'.
  assert (E : files d' = map normal_file (filter has_hunks (files d))).
  { unfold d', getAllHunks.
    apply round_trip_files; [apply parseDiff_good | assumption | assumption]. }
  split; [exact E|]. split.
  - unfold getAllHunks. now rewrite E, flat_map_normal, flat_map_has_hunks.
  - unfold per_file_view. rewrite E. cbn [files]. now rewrite map_map.
Qed.

Lemma C3_round_trip_witness :
  getAllHunks
    (parseDiff (generatePatch (getAllHunks (parseDiff simple_diff)))) =
  getAllHunks (parseDiff simple_diff).
Proof.
  refine (proj1 (proj2 (C3_round_trip simple_diff _ _))).
  - vm_compute. constructor; [intros [] | constructor].
  - vm_compute. constructor; [reflexivity | constructor].
Defined.

(** ** C4: splitting at context gaps *)

(** C4 fails on the code: on the hunk of the repository's own test, with
    gap 1, the first context line of the gap closes the first sub-hunk
    and is written again at the head of the second one ([contextBuffer]
    is not emptied when a group is closed), and the second sub-hunk
    starts at old line 3 although its first line is old line 2.  On a
    hunk that ends with more context than the gap, the last sub-hunk is
    closed at the gap and the context after it is in no sub-hunk. *)
Theorem C4_split_repeats_gap_context :
  isSplittable gap_hunk 1 = true /\
  map lines (splitHunk gap_hunk 1) =
    [[mkLine Context "line 1"; mkLine Add "added 1"; mkLine Context "line 2"];
     [mkLine Context "line 2"; mkLine Context "line 3";
      mkLine Context "line 4"; mkLine Add "added 2";
      mkLine Context "line 5"]] /\
  map oldStart (splitHunk gap_hunk 1) = [1; 3] /\
  concat (map lines (splitHunk gap_hunk 1)) <> lines gap_hunk /\
  isSplittable tail_hunk 1 = true /\
  map lines (splitHunk tail_hunk 1) =
    [[mkLine Add "a1"; mkLine Context "c1"];
     [mkLine Context "c1"; mkLine Add "a2"; mkLine Context "c2"]].
Proof.
  repeat split; try reflexivity.
  vm_compute. intros H. discriminate H.
Qed.

(** ** C5: the executor halts at a missing hunk *)




(** ** C6: complexity hint *)

(** C6, as stated, fails twice: a splittable hunk with two additions has
    hint 3, not at least 4; and a splittable hunk with one addition and
    one removal has hint 1, not 3. *)
Lemma C6_hint_counterexample :
  ~ (several_changes two_adds_hunk = true ->
     4 <= complexityHint (hunkToLLMHunk two_adds_hunk)) /\
  ~ (isSplittable add_remove_hunk 1 = true ->
     complexityHint (hunkToLLMHunk add_remove_hunk) = 3).
Proof.
  split; intros H.
  - assert (K : 4 <= 3) by (apply H; reflexivity). lia.
  - assert (K : 1 = 3) by (apply H; reflexivity). discriminate K.
Qed.

(** C6, amended: the hint is 1 when the hunk has at most one addition and
    at most one removal, splittable or not; otherwise it is 3 when the
    hunk is splittable and 4 when it is not. *)
Theorem C6_complexity_hint : forall h,
  complexityHint (hunkToLLMHunk h) =
  if several_changes h then (if isSplittable h 1 then 3 else 4) else 1.
Proof.
  intros h. unfold hunkToLLMHunk, several_changes.
  pose proof (index_lines_counts (lines h) 0 (oldStart h) (newStart h))
    as [Ha Hr].
  destruct (index_lines 0 (oldStart h) (newStart h) (lines h))
    as [[ils adds] rems].
  cbn [complexityHint]. simpl in Ha, Hr. unfold estimate_complexity.
  rewrite Ha, Hr.
  destruct ((1 <? count_type Add (lines h))%nat
            || (1 <? count_type Remove (lines h))%nat);
    destruct (isSplittable h 1); reflexivity.
Qed.

(** ** C7: line edits *)

(** The patch of a selection never reads the new content of its line
    edits: only whether there is any. *)
Lemma selection_patch_ignores_edits : forall hunk i m adds rems n e1 es1 e2 es2,
  selection_patch hunk (mkSel i m adds rems (Some (e1 :: es1)) n) =
  selection_patch hunk (mkSel i m adds rems (Some (e2 :: es2)) n).
Proof. reflexivity. Qed.

(** C7 fails on the code.  On the document of the repository's line-edit
    test, the parser does register index 1 as an included addition and
    records the edit without rewriting anything; but the executor then
    applies a patch that still carries the original content of line 1:
    the new content of the edit is written nowhere. *)
Theorem C7_edit_content_not_applied :
  let diff := parseDiff import_diff in
  let plan := parseStagingPlanDocument edit_document (Some diff) in
  selections plan =
    [mkSel "file.txt:0" ModePartial (Some [1]) None
       (Some [mkEdit 1 "import { foo, bar } from 'utils';"]) None] /\
  executeStagingPlan Log check_any apply_record diff plan [] =
    (mkExec true None ["file.txt:0"],
     [join_nl
        ["diff --git a/file.txt b/file.txt"; "--- a/file.txt";
         "+++ b/file.txt"; "@@ -1,2 +1,3 @@"; " line 1";
         "+import { foo, bar, baz } from 'utils';"; " line 2"; ""]]).
Proof. split; vm_compute; reflexivity. Qed.

(** ** C8: letter case of checkboxes *)

(** What the parser does read in either case: the mark [[E]] of a line,
    and, when no diff is passed, the [x] of an entire-hunk checkbox. Two
    documents whose lines differ only in this way give the same commit
    message and selections. *)
Lemma checkbox_case_read : forall doc doc' diff,
  Forall2 (checkbox_variant (has_diff diff)) (split_nl doc) (split_nl doc') ->
  parseStagingPlanDocument doc diff = parseStagingPlanDocument doc' diff.
Proof.
  intros doc doc' diff H. unfold parseStagingPlanDocument.
  now apply parse_lines_variant.
Qed.

Lemma checkbox_case_read_example :
  parseStagingPlanDocument edit_document (Some (parseDiff import_diff)) =
  parseStagingPlanDocument edit_document_lowercase
    (Some (parseDiff import_diff)).
Proof.
  apply checkbox_case_read.
  vm_compute.
  repeat (constructor; [first [apply cv_same
                              | apply (cv_edit_mark true
                                  " [ 1] + import { foo, bar, baz } from 'utils';")]|]).
  constructor.
Defined.

(** C8: the code does not read an upper-case [X] where the claim says it
    does. The patterns of the entire-hunk checkbox and of the [[E]] mark
    carry the flag [i] and match in either case; the patterns of the
    per-line selection checkboxes and of the file-level checkbox do not,
    so no line that starts with [[X]] matches them. In the document of
    the repository's selection test, [[x] [ 1] + added line] gives a
    partial selection of addition 1, and the same line with [[X]] gives
    a selection of mode [none]; with a diff, [[x] file.txt] selects all
    hunks of the file and [[X] file.txt] selects nothing. Besides, the
    lower-case entire-hunk line is also read by the file-level pattern,
    as a file named [Include]: with a diff that has such a file the two
    cases of the entire-hunk checkbox differ as well. *)
Theorem C8_uppercase_X_ignored :
  match_entire_hunk "[X] Include entire hunk" = true /\
  match_edit_mark "[e] [ 1] + added line" = Some "1" /\
  (forall rest,
     match_add ("[X]" +++ rest) = None /\
     match_remove ("[X]" +++ rest) = None /\
     match_file_checkbox ("[X]" +++ rest) = None) /\
  selections (parseStagingPlanDocument (selection_document "[x]") None) =
    [mkSel "file.txt:0" ModePartial (Some [1]) None None None] /\
  selections (parseStagingPlanDocument (selection_document "[X]") None) =
    [plain "file.txt:0" ModeNone] /\
  selections (parseStagingPlanDocument (file_document "[x]")
                (Some (parseDiff simple_diff))) =
    [plain "file.txt:0" ModeAll] /\
  selections (parseStagingPlanDocument (file_document "[X]")
                (Some (parseDiff simple_diff))) = [] /\
  selections (parseStagingPlanDocument (include_document "[x]")
                (Some (parseDiff include_diff))) =
    [plain "Include:0" ModeAll; plain "Include:0" ModeAll] /\
  selections (parseStagingPlanDocument (include_document "[X]")
                (Some (parseDiff include_diff))) =
    [plain "Include:0" ModeAll].
Proof.
  split; [reflexivity|]. split; [reflexivity|]. split.
  - intros rest. repeat split; reflexivity.
  - vm_compute. repeat split; reflexivity.
Qed.

(** ** C9: hunk ids *)

(** C9, as stated, fails: the hunk index restarts at every file header,
    so a text that names the same file in two headers gives two hunks
    with the id [f:0]. *)
Lemma C9_duplicate_ids :
  ~ NoDup (map id (getAllHunks (parseDiff repeated_file_diff))).
Proof.
  vm_compute. intros H. inversion H as [|x l Hnotin _]. apply Hnotin.
  left. reflexivity.
Qed.

(** C9, amended: in the result of one call of [parseDiff] the ids of the
    hunks of each file are pairwise distinct; and all hunk ids are
    pairwise distinct when no two files of the result have the same new
    path. *)
Theorem C9_id_uniqueness : forall text,
  let d := parseDiff text in
  (forall f, In f (files d) -> NoDup (map id (hunks f))) /\
  (NoDup (map newPath (files d)) -> NoDup (map id (getAllHunks d))).
Proof.
  intros text d. pose proof (parseDiff_good text) as Hgood. fold d in Hgood.
  split.
  - intros f Hf. rewrite Forall_forall in Hgood.
    apply file_ids_NoDup. now apply Hgood.
  - intros Hnd. now apply all_ids_NoDup.
Qed.

Lemma C9_id_uniqueness_witness :
  NoDup (map id (getAllHunks (parseDiff unordered_diff))).
Proof.
  apply (proj2 (C9_id_uniqueness unordered_diff)).
  vm_compute. constructor; [intros [] | constructor].
Defined.

(** ** C10: an empty partial selection *)



(** * Further properties of the code *)

(** ** The parser on text without file headers *)

Lemma parseLoop_no_file : forall ls b,
  Forall (fun l => match_file_header l = None) ls ->
  parseLoop b init ls = init.
Proof.
  induction ls as [|l ls IH]; intros b H; [reflexivity|].
  inversion H as [|? ? Hl Hls]; subst.
  cbn [parseLoop].
  replace (if b then meta_step init l else None) with (@None PState)
    by (destruct b; reflexivity).
  unfold main_step. rewrite Hl.
  replace (match match_hunk_header l with
           | Some m =>
               match currentFile init with
               | Some cf =>
                   (mkPState (st_files init)
                      (Some (push_hunks cf (olist (currentHunk init))))
                      (Some (newHunk (newPath cf) (hunkIndex init) l m))
                      (S (hunkIndex init)), false)
               | None => (body_step init l, false)
               end
           | None => (body_step init l, false)
           end) with (init, false)
    by (destruct (match_hunk_header l); reflexivity).
  now apply IH.
Qed.

Lemma has_lt_last : forall l,
  last_char l = Some (ascii_of_nat 13) -> has_line_terminator l = true.
Proof.
  induction l as [|c l IH]; [discriminate|].
  destruct l as [|c' l].
  - intros H. injection H as ->. reflexivity.
  - intros H. cbn [has_line_terminator] in *.
    change (last_char (String c (String c' l))) with (last_char (String c' l)) in H.
    rewrite (IH H). apply orb_true_r.
Qed.

Lemma crlf_no_file_header : forall l,
  crlf_line l -> match_file_header l = None.
Proof.
  intros l [->|H]; [reflexivity|].
  unfold match_file_header.
  destruct (strip_prefix "diff --git a/" l) as [r|] eqn:E; [|reflexivity].
  apply strip_prefix_Some in E. subst l.
  assert (Hr : has_line_terminator r = true).
  { apply has_lt_last in H. rewrite has_lt_app in H.
    now destruct (has_line_terminator r). }
  now rewrite Hr.
Qed.

(** X1: text in which no line is a file header gives no file at all:
    hunk headers and body lines outside a file are ignored. *)
Theorem X1_no_file_header_no_files : forall text,
  Forall (fun l => match_file_header l = None) (split_nl text) ->
  files (parseDiff text) = [].
Proof.
  intros text H. unfold parseDiff, parseLines. cbn [files].
  now rewrite parseLoop_no_file.
Qed.

Lemma X1_no_file_header_no_files_witness :
  files (parseDiff (join_nl ["@@ -1,2 +1,3 @@"; " line 1"; "+added"])) = [].
Proof.
  apply X1_no_file_header_no_files.
  vm_compute. repeat constructor.
Defined.

(** X2: a text with CRLF line endings gives no file: a file header that
    a carriage return follows is not a file header for the parser. *)
Theorem X2_crlf_text_gives_no_files : forall text,
  Forall crlf_line (split_nl text) -> files (parseDiff text) = [].
Proof.
  intros text H. unfold parseDiff, parseLines. cbn [files].
  rewrite parseLoop_no_file; [reflexivity|].
  eapply Forall_impl; [|exact H]. apply crlf_no_file_header.
Qed.

Lemma X2_crlf_text_gives_no_files_witness : files (parseDiff crlf_diff) = [].
Proof.
  apply X2_crlf_text_gives_no_files.
  vm_compute. repeat (constructor; [first [now left | now right]|]).
  constructor.
Defined.

(** ** The shape of parsed files *)

Lemma good_hunks_nth : forall path hs k i h,
  good_hunks path k hs -> nth_error hs i = Some h -> good_hunk path (k + i) h.
Proof.
  induction hs as [|x hs IH]; intros k i h Hg Hn.
  - destruct i; discriminate.
  - destruct Hg as [Hx Hhs]. destruct i as [|i]; cbn in Hn.
    + injection Hn as <-. now rewrite Nat.add_0_r.
    + rewrite <- plus_n_Sm. apply (IH (S k) i h Hhs Hn).
Qed.

(** X3: in every file of a parsed diff, the hunk at position [i] has
    index [i], carries the file's new path as [file], and has the id
    [<newPath>:<i>]. *)
Theorem X3_hunk_numbering : forall text f i h,
  In f (files (parseDiff text)) ->
  nth_error (hunks f) i = Some h ->
  index h = i /\ file h = newPath f /\
  id h = newPath f +++ ":" +++ string_of_nat i.
Proof.
  intros text f i h Hf Hn.
  pose proof (parseDiff_good text) as Hgood.
  rewrite Forall_forall in Hgood. destruct (Hgood f Hf) as [_ Hg].
  pose proof (good_hunks_nth _ _ 0 i h Hg Hn) as Hh.
  destruct (good_hunk_fields _ _ _ Hh) as (E1 & E2 & E3 & _).
  auto.
Qed.

Lemma X3_hunk_numbering_witness :
  index (mkHunk "new.txt:1" "new.txt" 1 "@@ -9,1 +10,2 @@" 9 1 10 2
           [mkLine Context "line 9"; mkLine Add "more"] None) = 1.
Proof.
  refine (proj1 (X3_hunk_numbering rename_diff
            (mkFile "old.txt" "new.txt" false false true
               [mkHunk "new.txt:0" "new.txt" 0 "@@ -1,1 +1,2 @@" 1 1 1 2
                  [mkLine Context "line 1"; mkLine Add "added"] None;
                mkHunk "new.txt:1" "new.txt" 1 "@@ -9,1 +10,2 @@" 9 1 10 2
                  [mkLine Context "line 9"; mkLine Add "more"] None])
            1 _ _ _)).
  - vm_compute. left. reflexivity.
  - reflexivity.
Defined.

Lemma renamed_meta_step : forall st l st',
  meta_step st l = Some st' -> renamed_inv st -> renamed_inv st'.
Proof.
  unfold meta_step, renamed_inv. intros st l st'.
  destruct (currentFile st) as [cf|] eqn:Ec; [|discriminate].
  destruct (startsWith "new file mode" l);
    [|destruct (startsWith "deleted file mode" l);
      [|destruct (other_meta l); [|discriminate]]];
    intros H; injection H as <-; simpl; auto.
  now rewrite Ec.
Qed.

Lemma renamed_body_step : forall st l,
  renamed_inv st -> renamed_inv (body_step st l).
Proof.
  unfold body_step. intros st l H.
  destruct (currentHunk st); [|assumption].
  destruct l as [|p c]; [assumption|].
  destruct (Ascii.eqb p " "); [exact H|].
  destruct (Ascii.eqb p "-"); [exact H|].
  destruct (Ascii.eqb p "+"); [exact H|assumption].
Qed.

Lemma renamed_main_step : forall st l,
  renamed_inv st -> renamed_inv (fst (main_step st l)).
Proof.
  unfold main_step. intros st l [Hf Hc].
  destruct (match_file_header l) as [[o n]|].
  - cbn [fst]. unfold open_file.
    destruct (currentFile st) as [cf|]; split; cbn; auto; try reflexivity.
    apply Forall_app. split; [assumption|]. constructor; [exact Hc|constructor].
  - destruct (match_hunk_header l);
      [|cbn [fst]; apply renamed_body_step; now split].
    destruct (currentFile st) as [cf|] eqn:Ec.
    + split; cbn; assumption.
    + cbn [fst]. apply renamed_body_step. split; [assumption|now rewrite Ec].
Qed.

Lemma renamed_parseLoop : forall ls b st,
  renamed_inv st -> renamed_inv (parseLoop b st ls).
Proof.
  induction ls as [|l ls IH]; intros b st H; [assumption|].
  cbn [parseLoop].
  destruct (if b then meta_step st l else None) as [st'|] eqn:Em.
  - destruct b; [|discriminate]. apply IH. eapply renamed_meta_step; eauto.
  - pose proof (renamed_main_step st l H) as Hm.
    destruct (main_step st l). now apply IH.
Qed.

(** X4: in a parsed diff, [isRenamed] is set exactly for the files whose
    old and new paths differ, and no path of a file is empty or holds a
    line terminator. *)
Theorem X4_parsed_file_paths : forall text f,
  In f (files (parseDiff text)) ->
  (isRenamed f = true <-> oldPath f <> newPath f) /\
  newPath f <> "" /\ has_line_terminator (newPath f) = false.
Proof.
  intros text f Hf.
  assert (Hr : renamed_ok f).
  { pose proof (renamed_parseLoop (split_nl text) false init
                  (conj (Forall_nil _) I)) as [H1 H2].
    unfold parseDiff, parseLines, finish in Hf. cbn [files] in Hf.
    destruct (currentFile (parseLoop false init (split_nl text))) as [cf|].
    - apply in_app_iff in Hf as [Hf|[<-|[]]].
      + rewrite Forall_forall in H1. now apply H1.
      + exact H2.
    - rewrite Forall_forall in H1. now apply H1. }
  pose proof (parseDiff_good text) as Hgood.
  rewrite Forall_forall in Hgood. destruct (Hgood f Hf) as [[Hp Hlt] _].
  split; [|split; [|exact Hlt]].
  - unfold renamed_ok in Hr. rewrite Hr.
    destruct (String.eqb_spec (oldPath f) (newPath f)); cbn; split;
      congruence.
  - intros E. rewrite E in Hp. discriminate Hp.
Qed.

Lemma X4_parsed_file_paths_witness :
  isRenamed (mkFile "old.txt" "new.txt" false false true
               [mkHunk "new.txt:0" "new.txt" 0 "@@ -1,1 +1,2 @@" 1 1 1 2
                  [mkLine Context "line 1"; mkLine Add "added"] None;
                mkHunk "new.txt:1" "new.txt" 1 "@@ -9,1 +10,2 @@" 9 1 10 2
                  [mkLine Context "line 9"; mkLine Add "more"] None]) = true
  <-> "old.txt" <> "new.txt".
Proof.
  refine (proj1 (X4_parsed_file_paths rename_diff _ _)).
  vm_compute. left. reflexivity.
Defined.

(** ** Looking up a hunk *)

Lemma find_id_Some : forall hs i h,
  find (fun h => String.eqb (id h) i) hs = Some h -> In h hs /\ id h = i.
Proof.
  intros hs i h H. apply find_some in H as [Hin E].
  split; [assumption | now apply String.eqb_eq].
Qed.

Lemma getHunk_files_Some : forall fs i h,
  getHunk_files fs i = Some h -> In h (flat_map hunks fs) /\ id h = i.
Proof.
  induction fs as [|f fs IH]; intros i h; cbn; [discriminate|].
  destruct (find (fun h => String.eqb (id h) i) (hunks f)) as [h'|] eqn:E.
  - intros H. injection H as <-. apply find_id_Some in E as [Hin E].
    split; [apply in_app_iff; now left | assumption].
  - intros H. apply IH in H as [Hin E']. split; [|assumption].
    apply in_app_iff. now right.
Qed.

Lemma getHunk_files_None : forall fs i,
  getHunk_files fs i = None <->
  (forall h, In h (flat_map hunks fs) -> id h <> i).
Proof.
  induction fs as [|f fs IH]; intros i; cbn.
  - split; [intros _ h [] | reflexivity].
  - destruct (find (fun h => String.eqb (id h) i) (hunks f)) as [h'|] eqn:E.
    + split; [discriminate|]. intros H. apply find_id_Some in E as [Hin E].
      exfalso. apply (H h'); [apply in_app_iff; now left | assumption].
    + rewrite IH. split; intros H h Hin.
      * apply in_app_iff in Hin as [Hin|Hin]; [|now apply H].
        intros Eid. apply (find_none _ _ E) in Hin.
        apply String.eqb_neq in Hin. contradiction.
      * apply H. apply in_app_iff. now right.
Qed.

Lemma NoDup_map_eq : forall (A B : Type) (f : A -> B) l a b,
  NoDup (map f l) -> In a l -> In b l -> f a = f b -> a = b.
Proof.
  induction l as [|x l IH]; intros a b Hnd Ha Hb E; [destruct Ha|].
  cbn in Hnd. inversion Hnd as [|? ? Hnotin Hnd']; subst.
  destruct Ha as [->|Ha], Hb as [->|Hb]; auto.
  - exfalso. apply Hnotin. rewrite E. now apply in_map.
  - exfalso. apply Hnotin. rewrite <- E. now apply in_map.
Qed.

(** X5: [getHunk] answers with a hunk of the diff that has the id asked
    for, and answers [undefined] exactly when no hunk of the diff has
    that id. *)
Theorem X5_getHunk_sound_complete : forall d i,
  (forall h, getHunk d i = Some h -> In h (getAllHunks d) /\ id h = i) /\
  (getHunk d i = None <-> forall h, In h (getAllHunks d) -> id h <> i).
Proof.
  intros d i. split.
  - intros h. apply getHunk_files_Some.
  - apply getHunk_files_None.
Qed.

(** X6: in a parsed diff whose files have pairwise distinct new paths,
    looking a hunk up by its own id gives that hunk back. *)
Theorem X6_getHunk_finds_parsed_hunk : forall text h,
  let d := parseDiff text in
  NoDup (map newPath (files d)) ->
  In h (getAllHunks d) ->
  getHunk d (id h) = Some h.
Proof.
  intros text h d Hnd Hin.
  pose proof (all_ids_NoDup _ (parseDiff_good text) Hnd) as Hids.
  fold d in Hids.
  destruct (getHunk d (id h)) as [h'|] eqn:E.
  - destruct (getHunk_files_Some _ _ _ E) as [Hin' Eid].
    f_equal. now apply (NoDup_map_eq _ _ id (flat_map hunks (files d))).
  - exfalso. apply (proj1 (getHunk_files_None _ _) E h Hin). reflexivity.
Qed.

Lemma X6_getHunk_finds_parsed_hunk_witness :
  getHunk (parseDiff rename_diff) "new.txt:1" =
  Some (mkHunk "new.txt:1" "new.txt" 1 "@@ -9,1 +10,2 @@" 9 1 10 2
          [mkLine Context "line 9"; mkLine Add "more"] None).
Proof.
  apply (X6_getHunk_finds_parsed_hunk rename_diff
           (mkHunk "new.txt:1" "new.txt" 1 "@@ -9,1 +10,2 @@" 9 1 10 2
              [mkLine Context "line 9"; mkLine Add "more"] None)).
  - vm_compute. constructor; [intros [] | constructor].
  - vm_compute. right. left. reflexivity.
Defined.

(** ** The explicit checker *)

Lemma count_type_old : forall ls,
  count_type Context ls + count_type Remove ls = old_lines ls.
Proof.
  unfold count_type, old_lines.
  induction ls as [|[[] c] ls IH]; cbn in *; lia.
Qed.

Lemma count_type_new : forall ls,
  count_type Context ls + count_type Add ls = new_lines ls.
Proof.
  unfold count_type, new_lines.
  induction ls as [|[[] c] ls IH]; cbn in *; lia.
Qed.

(** X7: [validateHunk] accepts a hunk exactly when its counts agree with
    its lines; otherwise it reports the old count first, then the new
    count, each with the count of the header and the count of the
    lines. *)
Theorem X7_validateHunk_decides_consistency : forall h,
  (validateHunk h = (true, None) <-> count_consistent h) /\
  (oldCount h <> old_lines (lines h) ->
   validateHunk h =
   (false, Some ("Old count mismatch: header says " +++
                 string_of_nat (oldCount h) +++ ", actual is " +++
                 string_of_nat (old_lines (lines h))))) /\
  (oldCount h = old_lines (lines h) -> newCount h <> new_lines (lines h) ->
   validateHunk h =
   (false, Some ("New count mismatch: header says " +++
                 string_of_nat (newCount h) +++ ", actual is " +++
                 string_of_nat (new_lines (lines h))))).
Proof.
  intros h. unfold validateHunk, count_consistent.
  rewrite count_type_old, count_type_new.
  destruct (Nat.eqb_spec (old_lines (lines h)) (oldCount h)) as [Eo|No];
    cbn [negb].
  - destruct (Nat.eqb_spec (new_lines (lines h)) (newCount h)) as [En|Nn];
      cbn [negb].
    + repeat split; auto; try congruence.
    + repeat split; try congruence; try (intros; discriminate).
      intros [_ H]. congruence.
  - repeat split; try congruence; try (intros; discriminate).
    intros [H _]. congruence.
Qed.

Lemma X7_validateHunk_decides_consistency_witness :
  validateHunk gap_hunk =
  (false, Some "Old count mismatch: header says 7, actual is 5").
Proof.
  refine (proj1 (proj2 (X7_validateHunk_decides_consistency gap_hunk)) _).
  vm_compute. intros H. discriminate H.
Defined.

(** X8: whatever hunk and modifications [editHunk] is given, and whatever
    splittable hunk [splitHunk] is given, [validateHunk] accepts every
    hunk they return. *)
Theorem X8_manipulator_output_validates :
  (forall h m, validateHunk (editHunk h m) = (true, None)) /\
  (forall h g s,
     isSplittable h g = true -> In s (splitHunk h g) ->
     validateHunk s = (true, None)).
Proof.
  assert (V : forall h, count_consistent h -> validateHunk h = (true, None)).
  { intros h [Ho Hn]. unfold validateHunk.
    rewrite count_type_old, count_type_new, <- Ho, <- Hn, !Nat.eqb_refl.
    reflexivity. }
  split.
  - intros h m. apply V. apply editHunk_counts.
  - intros h g s Hs Hin. apply V. unfold splitHunk in Hin.
    rewrite Hs in Hin. cbn [negb] in Hin.
    eapply groups_to_hunks_consistent; eassumption.
Qed.

Lemma X8_manipulator_output_validates_witness :
  validateHunk
    (mkHunk "test.txt:0.0" "test.txt" 0 "@@ -1,2 +1,3 @@" 1 2 1 3
       [mkLine Context "line 1"; mkLine Add "added 1";
        mkLine Context "line 2"] None) = (true, None).
Proof.
  apply (proj2 X8_manipulator_output_validates gap_hunk 1).
  - reflexivity.
  - vm_compute. left. reflexivity.
Defined.

(** ** Numerals and trimming *)

Lemma string_of_nat_nonempty : forall n, nonempty (string_of_nat n) = true.
Proof.
  intros n. unfold string_of_nat.
  assert (H : Nat.to_uint n <> Nil).
  { rewrite <- (Unsigned.of_to n) at 1. rewrite Unsigned.to_of.
    apply DecimalFacts.unorm_nonnil. }
  destruct (Nat.to_uint n); try reflexivity. congruence.
Qed.

Lemma parseInt_string_of_nat : forall n, parseInt (string_of_nat n) = n.
Proof.
  intros n. unfold parseInt, string_of_nat.
  rewrite NilEmpty.usu. apply Unsigned.of_to.
Qed.

Lemma span_digits_app : forall a r,
  all_digits a = true -> no_lead_digit r -> take_digits (a +++ r) = (a, r).
Proof.
  unfold take_digits.
  induction a as [|c a IH]; intros r Ha Hr.
  - destruct r as [|c r]; [reflexivity|]. cbn in *. now rewrite Hr.
  - cbn in Ha. apply andb_true_iff in Ha as [Hc Ha].
    cbn [String.append span]. now rewrite Hc, (IH r Ha Hr).
Qed.

Lemma digits1_numeral : forall a r,
  all_digits a = true -> nonempty a = true -> no_lead_digit r ->
  digits1 (a +++ r) = Some (a, r).
Proof.
  intros a r Ha Hne Hr. unfold digits1.
  now rewrite (span_digits_app a r Ha Hr), Hne.
Qed.

Lemma match_hunk_header_numerals : forall os oc ns nc ctx,
  all_digits os = true -> nonempty os = true ->
  all_digits oc = true -> nonempty oc = true ->
  all_digits ns = true -> nonempty ns = true ->
  all_digits nc = true -> nonempty nc = true ->
  has_line_terminator ctx = false ->
  match_hunk_header
    ("@@ -" +++ os +++ "," +++ oc +++ " +" +++ ns +++ "," +++ nc +++
     " @@" +++ ctx) =
  Some (mkHeaderMatch os (Some oc) ns (Some nc) ctx).
Proof.
  intros os oc ns nc ctx H1 N1 H2 N2 H3 N3 H4 N4 Hc.
  unfold match_hunk_header.
  rewrite strip_prefix_app.
  rewrite (digits1_numeral os _ H1 N1) by reflexivity.
  cbv beta iota.
  change (opt_count ("," +++ oc +++ " +" +++ ns +++ "," +++ nc +++ " @@" +++ ctx))
    with (match digits1 (oc +++ " +" +++ ns +++ "," +++ nc +++ " @@" +++ ctx) with
          | Some (d, r') => (Some d, r')
          | None => (@None string,
                     "," +++ oc +++ " +" +++ ns +++ "," +++ nc +++ " @@" +++ ctx)
          end).
  rewrite (digits1_numeral oc _ H2 N2) by reflexivity.
  cbv beta iota. rewrite strip_prefix_app.
  rewrite (digits1_numeral ns _ H3 N3) by reflexivity.
  cbv beta iota.
  change (opt_count ("," +++ nc +++ " @@" +++ ctx))
    with (match digits1 (nc +++ " @@" +++ ctx) with
          | Some (d, r') => (Some d, r')
          | None => (@None string, "," +++ nc +++ " @@" +++ ctx)
          end).
  rewrite (digits1_numeral nc _ H4 N4) by reflexivity.
  cbv beta iota. rewrite strip_prefix_app, Hc. reflexivity.
Qed.

Lemma rev_string_acc : forall s acc,
  rev_string acc s = rev_string "" s +++ acc.
Proof.
  induction s as [|c s IH]; intros acc; cbn; [reflexivity|].
  rewrite IH, (IH (String c "")), append_assoc. reflexivity.
Qed.

Lemma rev_string_app : forall a b,
  rev_string "" (a +++ b) = rev_string "" b +++ rev_string "" a.
Proof.
  induction a as [|c a IH]; intros b; cbn.
  - now rewrite append_nil_r.
  - rewrite (rev_string_acc (a +++ b) (String c "")),
      (rev_string_acc a (String c "")), IH.
    now rewrite append_assoc.
Qed.

Lemma rev_string_invol : forall s, rev_string "" (rev_string "" s) = s.
Proof.
  induction s as [|c s IH]; cbn; [reflexivity|].
  rewrite (rev_string_acc s (String c "")), rev_string_app, IH. reflexivity.
Qed.

Lemma skip_ws_split : forall s,
  exists w, s = w +++ skip_ws s /\ all_ws w = true /\ no_lead_ws (skip_ws s).
Proof.
  unfold skip_ws. induction s as [|c s (w & E & Hw & Hn)].
  - exists "". cbn. auto.
  - cbn [span]. destruct (is_ws c) eqn:Ec.
    + destruct (span is_ws s) as [a b]. cbn [snd] in *.
      exists (String c w). cbn. rewrite Ec, Hw. rewrite E at 1. auto.
    + exists "". cbn. auto.
Qed.

Lemma skip_ws_id : forall s, no_lead_ws s -> skip_ws s = s.
Proof.
  unfold skip_ws. intros [|c s] H; [reflexivity|].
  cbn in *. now rewrite H.
Qed.

Lemma no_lead_ws_app : forall a b,
  nonempty a = true -> no_lead_ws (a +++ b) -> no_lead_ws a.
Proof. intros [|c a] b H; [discriminate | trivial]. Qed.

Lemma trim_shape : forall s,
  exists u, trim s = rev_string "" u /\ no_lead_ws u /\
            no_lead_ws (rev_string "" u).
Proof.
  intros s. unfold trim.
  destruct (skip_ws_split s) as (w0 & _ & _ & Ht).
  set (t := skip_ws s) in *.
  destruct (skip_ws_split (rev_string "" t)) as (w & E & _ & Hu).
  set (u := skip_ws (rev_string "" t)) in *.
  exists u. split; [reflexivity|]. split; [assumption|].
  destruct u as [|c u'] eqn:Eu; [exact I|].
  apply (f_equal (rev_string "")) in E.
  rewrite rev_string_invol, rev_string_app in E.
  rewrite E in Ht. eapply no_lead_ws_app; [|exact Ht].
  cbn. rewrite (rev_string_acc u' (String c "")).
  now destruct (rev_string "" u').
Qed.

Lemma trim_idempotent : forall s, trim (trim s) = trim s.
Proof.
  intros s. destruct (trim_shape s) as (u & E & Hu & Hr).
  rewrite E. unfold trim.
  now rewrite (skip_ws_id _ Hr), rev_string_invol, (skip_ws_id _ Hu).
Qed.

Lemma trim_leading_space : forall s, trim (" " +++ s) = trim s.
Proof.
  intros s. unfold trim, skip_ws. cbn [String.append span].
  change (is_ws " ") with true. cbv iota.
  now destruct (span is_ws s).
Qed.

Lemma has_lt_skip_ws : forall s,
  has_line_terminator s = false -> has_line_terminator (skip_ws s) = false.
Proof.
  intros s H. destruct (skip_ws_split s) as (w & E & _ & _).
  rewrite E, has_lt_app in H. now apply orb_false_iff in H as [_ H].
Qed.

Lemma has_lt_rev : forall s,
  has_line_terminator (rev_string "" s) = has_line_terminator s.
Proof.
  induction s as [|c s IH]; cbn; [reflexivity|].
  rewrite (rev_string_acc s (String c "")), has_lt_app, IH. cbn.
  rewrite orb_false_r. apply orb_comm.
Qed.

Lemma has_lt_trim : forall s,
  has_line_terminator s = false -> has_line_terminator (trim s) = false.
Proof.
  intros s H. unfold trim.
  rewrite has_lt_rev. apply has_lt_skip_ws.
  rewrite has_lt_rev. now apply has_lt_skip_ws.
Qed.

Lemma context_of_wf : forall g,
  has_line_terminator g = false -> context_wf (context_of g).
Proof.
  intros g H. unfold context_of, context_wf.
  destruct (nonempty (trim g)) eqn:E; [|exact I].
  split; [assumption|]. split; [apply trim_idempotent | now apply has_lt_trim].
Qed.

Lemma context_round_trip : forall c,
  context_wf c ->
  has_line_terminator (contextPart c) = false /\
  context_of (contextPart c) = c.
Proof.
  intros [t|]; [|now split].
  intros (Hne & Ht & Hlt). unfold contextPart. rewrite Hne. split.
  - cbn. exact Hlt.
  - unfold context_of. now rewrite trim_leading_space, Ht, Hne.
Qed.

Lemma header_text_parses : forall a b c d ctx,
  context_wf ctx ->
  parseHunkHeader (header_text a b c d ctx) = Some (a, b, c, d, ctx).
Proof.
  intros a b c d ctx Hwf.
  destruct (context_round_trip ctx Hwf) as [Hlt Hctx].
  unfold parseHunkHeader, header_text.
  rewrite match_hunk_header_numerals;
    auto using string_of_nat_digits, string_of_nat_nonempty.
  cbn [g_oldStart g_oldCount g_newStart g_newCount g_context count_or_1].
  now rewrite !parseInt_string_of_nat, Hctx.
Qed.

Lemma good_hunk_context_wf : forall path i h,
  good_hunk path i h -> context_wf (context h).
Proof.
  intros path i h (m & Hm & Hw & _).
  pose proof (f_equal context Hw) as E. cbn in E. rewrite E.
  apply context_of_wf.
  unfold match_hunk_header in Hm.
  destruct (strip_prefix "@@ -" (header h)); [|discriminate].
  destruct (digits1 s) as [[os r2]|]; [|discriminate].
  destruct (opt_count r2) as [oc r3].
  destruct (strip_prefix " +" r3); [|discriminate].
  destruct (digits1 s0) as [[ns r5]|]; [|discriminate].
  destruct (opt_count r5) as [nc r6].
  destruct (strip_prefix " @@" r6) as [ctx|]; [|discriminate].
  destruct (has_line_terminator ctx) eqn:Hc; [discriminate|].
  cbn in Hm. injection Hm as <-. exact Hc.
Qed.

(** X9: the header that [recalculateHeader] writes is read back by
    [parseHunkHeader] as the hunk's start lines, the counts of its lines
    and its context, for every hunk whose context is absent or a trimmed,
    non-empty text without line terminator, and whose start lines and
    number of lines are below 2^53, where the source prints and reads
    numbers exactly. *)
Theorem X9_recalculateHeader_round_trip : forall h,
  context_wf (context h) ->
  safe (oldStart h) -> safe (newStart h) -> safe (length (lines h)) ->
  parseHunkHeader (recalculateHeader h) =
  Some (oldStart h, old_lines (lines h), newStart h, new_lines (lines h),
        context h).
Proof.
  intros h Hwf _ _ _. unfold recalculateHeader. rewrite count_loop_0.
  now apply header_text_parses.
Qed.

Lemma X9_recalculateHeader_round_trip_witness :
  parseHunkHeader (recalculateHeader context_hunk) =
  Some (10, 3, 10, 4, Some "function myFunction()").
Proof.
  apply (X9_recalculateHeader_round_trip context_hunk).
  - vm_compute. repeat split; reflexivity.
  - reflexivity.
  - reflexivity.
  - reflexivity.
Defined.

(** X10: after [editHunk], and in every sub-hunk of a split, the header
    agrees with the numeric fields: for a hunk of a parsed diff whose
    start lines and number of lines are below 2^53, the header of the
    edited hunk, and of each sub-hunk whose start lines are below 2^53
    when the hunk is splittable, is read back by [parseHunkHeader] as
    that hunk's own [oldStart], [oldCount], [newStart], [newCount] and
    [context]. *)
Theorem X10_derived_headers_agree : forall text h,
  In h (getAllHunks (parseDiff text)) ->
  safe (oldStart h) -> safe (newStart h) -> safe (length (lines h)) ->
  (forall m,
     let e := editHunk h m in
     parseHunkHeader (header e) =
     Some (oldStart e, oldCount e, newStart e, newCount e, context e)) /\
  (forall g s,
     isSplittable h g = true -> In s (splitHunk h g) ->
     safe (oldStart s) -> safe (newStart s) ->
     parseHunkHeader (header s) =
     Some (oldStart s, oldCount s, newStart s, newCount s, context s)).
Proof.
  intros text h Hin _ _ _.
  assert (Hwf : context_wf (context h)).
  { apply in_flat_map in Hin as (f & Hf & Hh).
    pose proof (parseDiff_good text) as Hgood.
    rewrite Forall_forall in Hgood. destruct (Hgood f Hf) as [_ Hg].
    destruct (good_hunks_In _ _ _ _ Hg Hh) as (k & Hk).
    eapply good_hunk_context_wf; eassumption. }
  split.
  - intros m e. unfold e, editHunk, recalculateHeader.
    rewrite !count_loop_0. cbn. now apply header_text_parses.
  - intros g s Hs Hsin _ _. unfold splitHunk in Hsin. rewrite Hs in Hsin.
    cbn [negb] in Hsin.
    revert Hsin. generalize (oldStart h) (newStart h) 0.
    induction (split_groups g (lines h)) as [|grp gs IH];
      intros o n k; cbn [groups_to_hunks]; [intros []|].
    rewrite count_loop_0. intros [<-|Hsin].
    + cbn. now apply header_text_parses.
    + eapply IH; eassumption.
Qed.

Lemma X10_derived_headers_agree_witness :
  parseHunkHeader
    (header (editHunk
               (mkHunk "app.js:0" "app.js" 0
                  "@@ -10,3 +10,4 @@   function myFunction()  " 10 3 10 4
                  [mkLine Context "a"; mkLine Remove "b"; mkLine Add "c";
                   mkLine Add "d"; mkLine Context "e"]
                  (Some "function myFunction()"))
               (mkMods (Some [2]) None))) =
  Some (10, 3, 10, 3, Some "function myFunction()").
Proof.
  refine (proj1 (X10_derived_headers_agree context_diff _ _ _ _ _)
            (mkMods (Some [2]) None)).
  - vm_compute. left. reflexivity.
  - reflexivity.
  - reflexivity.
  - reflexivity.
Defined.

(** ** Splittable hunks *)

Lemma has_gap_cons_context : forall g l rest,
  is_context l = true -> (has_gap g (l :: rest) <-> has_gap g rest).
Proof.
  intros g l rest Hl. split.
  - intros (pre & c1 & ctx & c2 & post & E & H1 & H2 & Hc & Hn).
    destruct pre as [|p pre]; cbn in E; injection E as -> E.
    + congruence.
    + exists pre, c1, ctx, c2, post. auto.
  - intros (pre & c1 & ctx & c2 & post & E & H1 & H2 & Hc & Hn).
    exists (l :: pre), c1, ctx, c2, post. rewrite E. auto.
Qed.

Lemma has_gap_cons_change : forall g l rest,
  is_context l = false ->
  (has_gap g (l :: rest) <-> gap_from 0 g rest \/ has_gap g rest).
Proof.
  intros g l rest Hl. split.
  - intros (pre & c1 & ctx & c2 & post & E & H1 & H2 & Hc & Hn).
    destruct pre as [|p pre]; cbn in E; injection E as -> E.
    + left. exists ctx, c2, post. auto.
    + right. exists pre, c1, ctx, c2, post. auto.
  - intros [(ctx & c2 & post & E & Hc & H2 & Hn)
           |(pre & c1 & ctx & c2 & post & E & H1 & H2 & Hc & Hn)].
    + exists [], l, ctx, c2, post. rewrite E. auto.
    + exists (l :: pre), c1, ctx, c2, post. rewrite E. auto.
Qed.

Lemma gap_from_cons_context : forall k g l rest,
  is_context l = true ->
  (gap_from k g (l :: rest) <-> gap_from (S k) g rest).
Proof.
  intros k g l rest Hl. split.
  - intros (ctx & c2 & post & E & Hc & H2 & Hn).
    destruct ctx as [|c ctx]; cbn in E; injection E as -> E.
    + congruence.
    + inversion Hc; subst. exists ctx, c2, post.
      cbn in Hn. repeat split; auto. lia.
  - intros (ctx & c2 & post & E & Hc & H2 & Hn).
    exists (l :: ctx), c2, post. rewrite E. cbn.
    repeat split; auto. lia.
Qed.

Lemma gap_from_cons_change : forall k g l rest,
  is_context l = false ->
  (gap_from k g (l :: rest) <-> Nat.max g 1 <= k).
Proof.
  intros k g l rest Hl. split.
  - intros (ctx & c2 & post & E & Hc & H2 & Hn).
    destruct ctx as [|c ctx]; cbn in E; injection E as -> E.
    + cbn in Hn. lia.
    + inversion Hc; subst. congruence.
  - intros Hn. exists [], l, rest. cbn. repeat split; auto. lia.
Qed.

Lemma gap_from_weaken : forall k k' g ls,
  k <= k' -> gap_from k g ls -> gap_from k' g ls.
Proof.
  intros k k' g ls Hk (ctx & c2 & post & E & Hc & H2 & Hn).
  exists ctx, c2, post. repeat split; auto. lia.
Qed.

Lemma has_gap_gap_from : forall g ls k,
  Nat.max g 1 <= k -> has_gap g ls -> gap_from k g ls.
Proof.
  induction ls as [|l ls IH]; intros k Hk H.
  - destruct H as (pre & c1 & ctx & c2 & post & E & _).
    destruct pre; discriminate.
  - destruct (is_context l) eqn:Hl.
    + apply gap_from_cons_context; [assumption|].
      apply IH; [lia|]. now apply (has_gap_cons_context g l ls Hl).
    + now apply gap_from_cons_change.
Qed.

Lemma loop_waiting : forall g ls cc,
  Nat.max g 1 <= cc ->
  (isSplittable_loop g false cc ls = true <-> gap_from cc g ls).
Proof.
  induction ls as [|l ls IH]; intros cc Hcc.
  - cbn. split; [discriminate|].
    intros (ctx & c2 & post & E & _). destruct ctx; discriminate.
  - cbn [isSplittable_loop]. destruct (is_context l) eqn:Hl.
    + rewrite (IH cc Hcc). split.
      * intros H. apply gap_from_cons_context; [assumption|].
        eapply gap_from_weaken; [|exact H]. lia.
      * intros H. apply gap_from_cons_context in H; [|assumption].
        destruct H as (ctx & c2 & post & E & Hc & H2 & Hn).
        exists ctx, c2, post. repeat split; auto. lia.
    + assert (E : negb false && (g <=? cc)%nat && (0 <? cc)%nat = true).
      { rewrite (proj2 (Nat.leb_le g cc)), (proj2 (Nat.ltb_lt 0 cc)) by lia.
        reflexivity. }
      rewrite E. split; [intros _|reflexivity].
      now apply gap_from_cons_change.
Qed.

Lemma loop_in_group : forall g ls cc,
  cc < Nat.max g 1 ->
  (isSplittable_loop g true cc ls = true <->
   gap_from cc g ls \/ has_gap g ls).
Proof.
  induction ls as [|l ls IH]; intros cc Hcc.
  - cbn. split; [discriminate|].
    intros [(ctx & c2 & post & E & _)
           |(pre & c1 & ctx & c2 & post & E & _)];
      [destruct ctx | destruct pre]; discriminate.
  - cbn [isSplittable_loop]. destruct (is_context l) eqn:Hl.
    + rewrite (has_gap_cons_context g l ls Hl),
        (gap_from_cons_context cc g l ls Hl).
      destruct (Nat.leb_spec g (S cc)) as [Hle|Hgt].
      * rewrite loop_waiting by lia. split; [auto|].
        intros [H|H]; [assumption|]. apply has_gap_gap_from; [lia|assumption].
      * apply IH. lia.
    + cbn [negb andb].
      rewrite (IH 0) by lia.
      rewrite (has_gap_cons_change g l ls Hl),
        (gap_from_cons_change cc g l ls Hl).
      split; [auto|]. intros [H|H]; [lia|assumption].
Qed.

Lemma loop_initial : forall g ls,
  isSplittable_loop g false 0 ls = true <-> has_gap g ls.
Proof.
  induction ls as [|l ls IH].
  - cbn. split; [discriminate|].
    intros (pre & c1 & ctx & c2 & post & E & _). destruct pre; discriminate.
  - cbn [isSplittable_loop]. destruct (is_context l) eqn:Hl.
    + now rewrite IH, (has_gap_cons_context g l ls Hl).
    + replace (negb false && (g <=? 0)%nat && (0 <? 0)%nat) with false
        by (cbn; now rewrite andb_false_r).
      rewrite loop_in_group by lia.
      now rewrite (has_gap_cons_change g l ls Hl).
Qed.

(** X11: [isSplittable] holds exactly for the hunks that have two change
    lines separated by context lines only, at least [minContextGap] of
    them and at least one. *)
Theorem X11_isSplittable_characterised : forall h g,
  isSplittable h g = true <-> has_gap g (lines h).
Proof. intros h g. apply loop_initial. Qed.

Lemma X11_isSplittable_characterised_witness :
  isSplittable gap_hunk 2 = true.
Proof.
  apply (proj2 (X11_isSplittable_characterised gap_hunk 2)).
  exists [mkLine Context "line 1"], (mkLine Add "added 1"),
    [mkLine Context "line 2"; mkLine Context "line 3";
     mkLine Context "line 4"], (mkLine Add "added 2"),
    [mkLine Context "line 5"].
  repeat split; try reflexivity.
  - repeat constructor.
  - cbn. lia.
Defined.

(** ** Splitting *)

Lemma split_step_context : forall g s l,
  is_context l = true ->
  split_step g s l =
  (let buf := contextBuffer s ++ [l] in
   if inChangeGroup s && (g <=? length buf)%nat then
     mkSplit (groups s ++ [currentGroup s ++
                           firstn (Nat.min g (length buf)) buf])
       (skipn (Nat.min g (length buf)) buf) buf false
   else mkSplit (groups s) (currentGroup s) buf (inChangeGroup s)).
Proof. intros g s l H. unfold split_step. now rewrite H. Qed.

Lemma split_step_change : forall g s l,
  is_context l = false ->
  split_step g s l =
  mkSplit (groups s)
    ((if negb (inChangeGroup s) && (length (currentGroup s) =? 0)%nat
      then contextBuffer s
      else currentGroup s ++ contextBuffer s) ++ [l]) [] true.
Proof. intros g s l H. unfold split_step. now rewrite H. Qed.

Lemma open_nonempty_step : forall g s l,
  open_nonempty s -> open_nonempty (split_step g s l).
Proof.
  intros g s l H. destruct (is_context l) eqn:Hl.
  - rewrite split_step_context by assumption. cbv zeta.
    destruct (inChangeGroup s && (g <=? length (contextBuffer s ++ [l]))%nat);
      unfold open_nonempty; cbn; [discriminate | exact H].
  - rewrite split_step_change by assumption.
    unfold open_nonempty; cbn. intros _ E.
    apply app_eq_nil in E as [_ E]. discriminate E.
Qed.

Lemma group_count_step : forall g s l,
  group_count s <= group_count (split_step g s l).
Proof.
  intros g s l. unfold group_count. destruct (is_context l) eqn:Hl.
  - rewrite split_step_context by assumption. cbv zeta.
    destruct (inChangeGroup s) eqn:Ei; cbn [andb].
    + destruct (g <=? length (contextBuffer s ++ [l]))%nat; cbn.
      * rewrite length_app. cbn. lia.
      * lia.
    + cbn. lia.
  - rewrite split_step_change by assumption. cbn.
    destruct (inChangeGroup s); lia.
Qed.

Lemma group_count_fold : forall g ls s,
  open_nonempty s ->
  group_count s <= group_count (fold_left (split_step g) ls s) /\
  open_nonempty (fold_left (split_step g) ls s).
Proof.
  induction ls as [|l ls IH]; intros s H; cbn; [auto|].
  destruct (IH (split_step g s l) (open_nonempty_step g s l H)) as [Hc Ho].
  split; [|assumption].
  pose proof (group_count_step g s l). lia.
Qed.

Lemma final_groups_count : forall s,
  open_nonempty s -> group_count s <= length (final_groups s).
Proof.
  intros s H. unfold group_count, final_groups.
  destruct (inChangeGroup s) eqn:Ei.
  - specialize (H Ei). destruct (currentGroup s); [congruence|].
    cbn. rewrite length_app. cbn. lia.
  - destruct (0 <? length (currentGroup s))%nat;
      [rewrite length_app; cbn|]; lia.
Qed.

Lemma splittable_two_groups : forall g ls s cc,
  isSplittable_loop g (inChangeGroup s) cc ls = true ->
  open_nonempty s ->
  (inChangeGroup s = true -> length (contextBuffer s) = cc) ->
  (inChangeGroup s = false -> 0 < cc -> 1 <= length (groups s)) ->
  2 <= length (final_groups (fold_left (split_step g) ls s)).
Proof.
  induction ls as [|l ls IH]; intros s cc Hiss Ho Hbuf Hgr;
    [discriminate|].
  cbn [isSplittable_loop fold_left] in *.
  destruct (is_context l) eqn:Hl.
  - pose proof (open_nonempty_step g s l Ho) as Ho'.
    rewrite split_step_context in * by assumption. cbv zeta in *.
    destruct (inChangeGroup s) eqn:Ei.
    + specialize (Hbuf eq_refl).
      assert (El : length (contextBuffer s ++ [l]) = S cc)
        by (rewrite length_app; cbn; lia).
      rewrite El in *. cbn [andb] in *.
      destruct (g <=? S cc)%nat.
      * apply (IH _ (S cc)); cbn; auto; try discriminate.
        intros _ _. rewrite length_app. cbn. lia.
      * apply (IH _ (S cc)); cbn; auto. intros E. discriminate E.
    + cbn [andb] in *. apply (IH _ cc); cbn; auto.
      intros E. discriminate E.
  - pose proof (open_nonempty_step g s l Ho) as Ho'.
    rewrite split_step_change in * by assumption.
    destruct (negb (inChangeGroup s) && (g <=? cc)%nat && (0 <? cc)%nat)
      eqn:Efound.
    + apply andb_true_iff in Efound as [Efound Hpos].
      apply andb_true_iff in Efound as [Hin _].
      apply negb_true_iff in Hin. apply Nat.ltb_lt in Hpos.
      specialize (Hgr Hin Hpos).
      match goal with
      | |- 2 <= length (final_groups (fold_left _ _ ?s')) =>
          destruct (group_count_fold g ls s' Ho') as [Hc Hf];
          pose proof (final_groups_count _ Hf) as Hfin;
          unfold group_count at 1 in Hc; cbn in Hc
      end.
      lia.
    + apply (IH _ 0); cbn; auto. intros E. discriminate E.
Qed.

Lemma groups_to_hunks_length : forall h gs o n k,
  length (groups_to_hunks h o n k gs) = length gs.
Proof.
  induction gs as [|g gs IH]; intros o n k; cbn; [reflexivity|].
  destruct (count_loop 0 0 g). cbn. now rewrite IH.
Qed.

Lemma groups_to_hunks_lines : forall h gs o n k,
  map lines (groups_to_hunks h o n k gs) = gs.
Proof.
  induction gs as [|g gs IH]; intros o n k; cbn; [reflexivity|].
  destruct (count_loop 0 0 g). cbn. now rewrite IH.
Qed.

(** X12: a splittable hunk is split into at least two sub-hunks; a hunk
    that is not splittable comes back alone and unchanged; and the
    [splitCount] shown for a splittable hunk is at least 2. *)
Theorem X12_split_count : forall h g,
  (isSplittable h g = true -> 2 <= length (splitHunk h g)) /\
  (isSplittable h g = false -> splitHunk h g = [h]) /\
  (splittable (hunkToLLMHunk h) = true ->
   exists n, splitCount (hunkToLLMHunk h) = Some n /\ 2 <= n).
Proof.
  assert (K : forall h g, isSplittable h g = true ->
                          2 <= length (splitHunk h g)).
  { intros h g H. unfold splitHunk. rewrite H. cbn [negb].
    rewrite groups_to_hunks_length.
    change (split_groups g (lines h))
      with (final_groups (fold_left (split_step g) (lines h)
                            (mkSplit [] [] [] false))).
    apply (splittable_two_groups g (lines h) (mkSplit [] [] [] false) 0);
      cbn; auto; try discriminate; try lia. }
  intros h g. split; [apply K|]. split.
  - intros H. unfold splitHunk. now rewrite H.
  - unfold hunkToLLMHunk.
    destruct (index_lines 0 (oldStart h) (newStart h) (lines h))
      as [[ils adds] rems]. cbn.
    intros H. rewrite H. eexists. split; [reflexivity|]. now apply K.
Qed.

Lemma X12_split_count_witness : 2 <= length (splitHunk gap_hunk 1).
Proof.
  apply (proj1 (X12_split_count gap_hunk 1)). reflexivity.
Defined.

Lemma changes_app : forall a b, changes (a ++ b) = changes a ++ changes b.
Proof. intros a b. apply filter_app. Qed.

Lemma changes_firstn_skipn : forall k buf,
  changes buf = [] ->
  changes (firstn k buf) = [] /\ changes (skipn k buf) = [].
Proof.
  intros k buf H. rewrite <- (firstn_skipn k buf), changes_app in H.
  now apply app_eq_nil in H.
Qed.

Lemma changes_context : forall l, is_context l = true -> changes [l] = [].
Proof. intros l H. unfold changes. cbn. now rewrite H. Qed.

Lemma changes_change : forall l, is_context l = false -> changes [l] = [l].
Proof. intros l H. unfold changes. cbn. now rewrite H. Qed.

(** One step of the loop of [splitHunk] adds the line to the changes seen so
    far when it is a change, and keeps the buffer free of changes. *)
Lemma split_step_changes : forall g s l,
  changes (contextBuffer s) = [] ->
  changes (concat (groups (split_step g s l)) ++
           currentGroup (split_step g s l)) =
  changes (concat (groups s) ++ currentGroup s) ++ changes [l] /\
  changes (contextBuffer (split_step g s l)) = [].
Proof.
  intros g s l Hb. destruct (is_context l) eqn:Hl.
  - assert (Hb' : changes (contextBuffer s ++ [l]) = [])
      by (now rewrite changes_app, Hb, changes_context).
    rewrite split_step_context by assumption. cbv zeta.
    rewrite (changes_context l Hl), app_nil_r.
    destruct (inChangeGroup s && (g <=? length (contextBuffer s ++ [l]))%nat);
      cbn [groups currentGroup contextBuffer]; split; auto.
    destruct (changes_firstn_skipn
                (Nat.min g (length (contextBuffer s ++ [l]))) _ Hb')
      as [Hf Hs].
    rewrite concat_app. cbn [concat]. rewrite app_nil_r.
    rewrite !changes_app, Hf, Hs, !app_nil_r. reflexivity.
  - rewrite split_step_change by assumption.
    cbn [groups currentGroup contextBuffer]. split; [|reflexivity].
    destruct (negb (inChangeGroup s) && (length (currentGroup s) =? 0)%nat)
      eqn:E.
    + apply andb_true_iff in E as [_ E]. apply Nat.eqb_eq in E.
      apply length_zero_iff_nil in E. rewrite E, app_nil_r.
      rewrite !changes_app, Hb. reflexivity.
    + rewrite !changes_app, Hb, app_nil_r, app_assoc. reflexivity.
Qed.

Lemma split_fold_changes : forall g ls s,
  changes (contextBuffer s) = [] ->
  let s' := fold_left (split_step g) ls s in
  changes (concat (groups s') ++ currentGroup s') =
  changes (concat (groups s) ++ currentGroup s) ++ changes ls /\
  changes (contextBuffer s') = [].
Proof.
  induction ls as [|l ls IH]; intros s Hb; cbn [fold_left].
  - cbn. rewrite app_nil_r. auto.
  - destruct (split_step_changes g s l Hb) as [Hs Hb'].
    destruct (IH _ Hb') as [H1 H2]. cbv zeta. split; [|assumption].
    rewrite H1, Hs, <- app_assoc, <- changes_app. reflexivity.
Qed.

Lemma final_groups_changes : forall s,
  changes (contextBuffer s) = [] ->
  changes (concat (final_groups s)) =
  changes (concat (groups s) ++ currentGroup s).
Proof.
  intros s Hb. unfold final_groups.
  destruct (0 <? length (currentGroup s))%nat eqn:E.
  - rewrite concat_app. cbn [concat]. rewrite app_nil_r.
    rewrite !changes_app, Hb, app_nil_r. reflexivity.
  - apply Nat.ltb_ge in E.
    assert (E' : currentGroup s = [])
      by (apply length_zero_iff_nil; lia).
    rewrite E', app_nil_r. reflexivity.
Qed.

(** X13: splitting loses and reorders no change: the added and removed
    lines of the sub-hunks, read in order, are those of the hunk. *)
Theorem X13_split_preserves_changes : forall h g,
  changes (concat (map lines (splitHunk h g))) = changes (lines h).
Proof.
  intros h g. unfold splitHunk.
  destruct (negb (isSplittable h g)).
  - cbn. now rewrite app_nil_r.
  - rewrite groups_to_hunks_lines.
    change (split_groups g (lines h))
      with (final_groups (fold_left (split_step g) (lines h)
                            (mkSplit [] [] [] false))).
    destruct (split_fold_changes g (lines h) (mkSplit [] [] [] false)
                eq_refl) as [H1 H2].
    rewrite final_groups_changes by assumption.
    rewrite H1. reflexivity.
Qed.

Lemma split_inv_step : forall g s l,
  1 <= g -> split_inv g s -> split_inv g (split_step g s l).
Proof.
  intros g s l Hg (Hgr & Hin & Hout). destruct (is_context l) eqn:Hl.
  - rewrite split_step_context by assumption. cbv zeta.
    destruct (inChangeGroup s) eqn:Ei; cbn [andb].
    + destruct (Hin eq_refl) as [Hc Hlen].
      assert (El : length (contextBuffer s ++ [l]) =
                   S (length (contextBuffer s)))
        by (rewrite length_app; cbn; lia).
      destruct (g <=? length (contextBuffer s ++ [l]))%nat eqn:E.
      * apply Nat.leb_le in E.
        assert (Eg : length (contextBuffer s ++ [l]) = g) by lia.
        rewrite Eg, Nat.min_id.
        unfold split_inv.
        cbn [groups currentGroup contextBuffer inChangeGroup].
        split; [|split].
        -- apply Forall_app. split; [assumption|].
           constructor; [|constructor].
           rewrite changes_app. intros E'.
           apply app_eq_nil in E' as [E' _]. contradiction.
        -- intros E'. discriminate E'.
        -- intros _. apply length_zero_iff_nil.
           rewrite length_skipn. lia.
      * apply Nat.leb_gt in E. unfold split_inv.
        cbn [groups currentGroup contextBuffer inChangeGroup].
        split; [assumption|]. split.
        -- intros _. split; [assumption | lia].
        -- intros E'. discriminate E'.
    + unfold split_inv.
      cbn [groups currentGroup contextBuffer inChangeGroup].
      split; [assumption|]. split.
      * intros E'. discriminate E'.
      * assumption.
  - rewrite split_step_change by assumption. unfold split_inv.
    cbn [groups currentGroup contextBuffer inChangeGroup].
    split; [assumption|]. split.
    + intros _. split; [|cbn; lia].
      rewrite changes_app, (changes_change l Hl). intros E.
      apply app_eq_nil in E as [_ E]. discriminate E.
    + intros E. discriminate E.
Qed.

Lemma split_inv_fold : forall g ls s,
  1 <= g -> split_inv g s -> split_inv g (fold_left (split_step g) ls s).
Proof.
  induction ls as [|l ls IH]; intros s Hg H; cbn [fold_left]; auto.
  apply IH; [assumption|]. now apply split_inv_step.
Qed.

Lemma split_inv_final : forall g s,
  split_inv g s -> Forall (fun ls => changes ls <> []) (final_groups s).
Proof.
  intros g s (Hgr & Hin & Hout). unfold final_groups.
  destruct (0 <? length (currentGroup s))%nat eqn:E; [|assumption].
  apply Nat.ltb_lt in E. apply Forall_app. split; [assumption|].
  constructor; [|constructor].
  destruct (inChangeGroup s).
  - destruct (Hin eq_refl) as [Hc _]. rewrite changes_app. intros E'.
    apply app_eq_nil in E' as [E' _]. contradiction.
  - rewrite (Hout eq_refl) in E. cbn in E. lia.
Qed.

(** X14: with a positive gap, every sub-hunk of a splittable hunk holds at
    least one added or removed line. *)
Theorem X14_sub_hunks_hold_a_change : forall h g,
  1 <= g -> isSplittable h g = true ->
  Forall (fun sub => changes (lines sub) <> []) (splitHunk h g).
Proof.
  intros h g Hg Hs. unfold splitHunk. rewrite Hs. cbn [negb].
  apply Forall_map with (f := lines)
                        (P := fun ls => changes ls <> []).
  rewrite groups_to_hunks_lines.
  change (split_groups g (lines h))
    with (final_groups (fold_left (split_step g) (lines h)
                          (mkSplit [] [] [] false))).
  apply (split_inv_final g). apply split_inv_fold; [assumption|].
  repeat split; cbn; auto; discriminate.
Qed.

Lemma X14_sub_hunks_hold_a_change_witness :
  Forall (fun sub => changes (lines sub) <> []) (splitHunk gap_hunk 1).
Proof.
  apply X14_sub_hunks_hold_a_change; [lia | reflexivity].
Defined.

(** ** Editing a hunk *)

Lemma edit_lines_old_text : forall A R ls k,
  old_text (edit_lines A R k ls) = old_text ls /\
  length (edit_lines A R k ls) <= length ls.
Proof.
  induction ls as [|[t c] ls IH]; intros k; [split; auto|].
  destruct (IH (S k)) as [IH1 IH2].
  cbn [edit_lines type content].
  destruct t.
  - unfold old_text in *. cbn. rewrite IH1. split; [reflexivity | lia].
  - destruct (has A k); cbn [negb].
    + unfold old_text in *. cbn. split; [assumption | lia].
    + unfold old_text in *. cbn. split; [assumption | lia].
  - destruct (has R k); unfold old_text in *; cbn; rewrite IH1;
      (split; [reflexivity | lia]).
Qed.

Lemma old_text_length : forall ls, length (old_text ls) = old_lines ls.
Proof. intros ls. unfold old_text, old_lines. apply length_map. Qed.

(** X15: whatever the modifications, the edited hunk expects the same old
    text at the same place: the contents of its lines other than additions
    are those of the hunk, its [oldCount] is their number, [oldStart] is
    kept, and no line is added. *)
Theorem X15_editHunk_keeps_old_side : forall h m,
  old_text (lines (editHunk h m)) = old_text (lines h) /\
  oldCount (editHunk h m) = old_lines (lines h) /\
  oldStart (editHunk h m) = oldStart h /\
  length (lines (editHunk h m)) <= length (lines h).
Proof.
  intros h m.
  destruct (edit_lines_old_text (set_of (removeAdditions m))
              (set_of (keepRemovals m)) (lines h) 0) as [H1 H2].
  rewrite <- editHunk_lines in H1, H2.
  split; [assumption|]. split; [|split; [|assumption]].
  - rewrite (proj1 (editHunk_counts h m)), <- !old_text_length.
    now rewrite H1.
  - unfold editHunk. now destruct (count_loop 0 0 _).
Qed.

Lemma edit_lines_stray : forall A R ls k,
  (forall j l, nth_error ls j = Some l -> In (k + j) A -> type l <> Add) ->
  (forall j l, nth_error ls j = Some l -> In (k + j) R -> type l <> Remove) ->
  edit_lines A R k ls = ls.
Proof.
  induction ls as [|l t IH]; intros k HA HR; [reflexivity|].
  assert (Ht : edit_lines A R (S k) t = t).
  { apply IH; intros j l' Hj Hin.
    - apply (HA (S j) l' Hj). now rewrite <- plus_n_Sm.
    - apply (HR (S j) l' Hj). now rewrite <- plus_n_Sm. }
  cbn [edit_lines]. rewrite Ht.
  destruct (type l) eqn:Et; [reflexivity| |].
  - destruct (has A k) eqn:Eh; [|reflexivity].
    apply has_In in Eh. exfalso.
    apply (HA 0 l eq_refl); [now rewrite Nat.add_0_r | assumption].
  - destruct (has R k) eqn:Eh; [|reflexivity].
    apply has_In in Eh. exfalso.
    apply (HR 0 l eq_refl); [now rewrite Nat.add_0_r | assumption].
Qed.

(** X16: indices that do not name a line of the right kind are ignored:
    when no index of [removeAdditions] points at an addition and no index
    of [keepRemovals] points at a removal (out of range, or a line of
    another type), the lines are kept as they are and the counts are those
    of the lines. *)
Theorem X16_editHunk_ignores_stray_indices : forall h m,
  (forall i l, In i (set_of (removeAdditions m)) ->
               nth_error (lines h) i = Some l -> type l <> Add) ->
  (forall i l, In i (set_of (keepRemovals m)) ->
               nth_error (lines h) i = Some l -> type l <> Remove) ->
  lines (editHunk h m) = lines h /\
  oldCount (editHunk h m) = old_lines (lines h) /\
  newCount (editHunk h m) = new_lines (lines h).
Proof.
  intros h m HA HR.
  assert (E : lines (editHunk h m) = lines h).
  { rewrite editHunk_lines. apply edit_lines_stray.
    - intros j l Hj Hin. now apply (HA j l).
    - intros j l Hj Hin. now apply (HR j l). }
  destruct (editHunk_counts h m) as [Ho Hn].
  rewrite E in Ho, Hn. auto.
Qed.

Lemma X16_editHunk_ignores_stray_indices_witness :
  lines (editHunk removal_hunk (mkMods (Some [1; 7]) (Some [0; 9]))) =
  lines removal_hunk.
Proof.
  apply (X16_editHunk_ignores_stray_indices removal_hunk
           (mkMods (Some [1; 7]) (Some [0; 9]))).
  - intros i l [<-|[<-|[]]] H; cbn in H; [|discriminate H].
    injection H as <-. discriminate.
  - intros i l [<-|[<-|[]]] H; cbn in H; [|discriminate H].
    injection H as <-. discriminate.
Defined.

(** ** Grouping and ordering in the generated patch *)

Lemma map_find_push : forall A (m : list (string * list A)) k v k',
  map_find (map_push m k v) k' =
  if String.eqb k k'
  then Some (match map_find m k with Some vs => vs | None => [] end ++ [v])
  else map_find m k'.
Proof.
  induction m as [|[k0 vs] m IH]; intros k v k'.
  - cbn. destruct (String.eqb k k'); reflexivity.
  - cbn [map_push map_find]. destruct (String.eqb k0 k) eqn:E0.
    + apply String.eqb_eq in E0. subst k0. cbn [map_find].
      destruct (String.eqb k k'); reflexivity.
    + cbn [map_find]. rewrite IH.
      destruct (String.eqb k0 k') eqn:E1; [|reflexivity].
      apply String.eqb_eq in E1. subst k'. now rewrite String.eqb_sym, E0.
Qed.

Lemma map_find_In : forall (m : list (string * list Hunk)) k vs,
  map_find m k = Some vs -> In (k, vs) m.
Proof.
  induction m as [|[k0 vs0] m IH]; intros k vs H; [discriminate|].
  cbn [map_find] in H. destruct (String.eqb k0 k) eqn:E.
  - apply String.eqb_eq in E. injection H as <-. subst. now left.
  - right. now apply IH.
Qed.

Lemma In_map_find : forall (m : list (string * list Hunk)) k vs,
  NoDup (map fst m) -> In (k, vs) m -> map_find m k = Some vs.
Proof.
  induction m as [|[k0 vs0] m IH]; intros k vs Hnd Hin; [destruct Hin|].
  cbn [map fst] in Hnd. inversion Hnd as [|? ? Hnot Hnd']; subst.
  cbn [map_find]. destruct Hin as [E|Hin].
  - injection E as -> ->. now rewrite String.eqb_refl.
  - destruct (String.eqb k0 k) eqn:E.
    + apply String.eqb_eq in E. subst k0. exfalso. apply Hnot.
      apply (in_map fst) in Hin. exact Hin.
    + now apply IH.
Qed.

Lemma map_find_None_keys : forall (m : list (string * list Hunk)) k,
  map_find m k = None -> ~ In k (map fst m).
Proof.
  induction m as [|[k0 vs0] m IH]; intros k H; [intros []|].
  cbn [map_find] in H. destruct (String.eqb k0 k) eqn:E; [discriminate|].
  apply String.eqb_neq in E. cbn. intros [E'|Hin]; [congruence|].
  now apply (IH k H).
Qed.

Lemma map_push_keys : forall (m : list (string * list Hunk)) k v,
  map fst (map_push m k v) =
  match map_find m k with
  | Some _ => map fst m
  | None => map fst m ++ [k]
  end.
Proof.
  induction m as [|[k0 vs0] m IH]; intros k v; [reflexivity|].
  cbn [map_push map_find]. destruct (String.eqb k0 k); [reflexivity|].
  cbn [map fst]. rewrite IH. now destruct (map_find m k).
Qed.

Lemma map_push_NoDup : forall (m : list (string * list Hunk)) k v,
  NoDup (map fst m) -> NoDup (map fst (map_push m k v)).
Proof.
  intros m k v H. rewrite map_push_keys.
  destruct (map_find m k) eqn:E; [assumption|].
  apply NoDup_app; [assumption | repeat constructor; intros [] |].
  intros x Hx [<-|[]]. now apply (map_find_None_keys m k E).
Qed.

Lemma push_all_NoDup : forall hs m,
  NoDup (map fst m) -> NoDup (map fst (push_all m hs)).
Proof.
  induction hs as [|h hs IH]; intros m H; [assumption|].
  rewrite push_all_cons. apply IH. now apply map_push_NoDup.
Qed.

Lemma push_all_find : forall hs m k,
  map_find (push_all m hs) k =
  match filter (fun h => String.eqb (file h) k) hs with
  | [] => map_find m k
  | f => Some (match map_find m k with Some vs => vs | None => [] end ++ f)
  end.
Proof.
  induction hs as [|h hs IH]; intros m k; [reflexivity|].
  rewrite push_all_cons, IH, map_find_push. cbn [filter].
  destruct (String.eqb (file h) k) eqn:E.
  - apply String.eqb_eq in E. rewrite E.
    destruct (filter (fun h0 => String.eqb (file h0) k) hs);
      [reflexivity|].
    now rewrite <- app_assoc.
  - reflexivity.
Qed.

(** X17: the generator writes one section per file named by the hunks: the
    keys of its map are distinct, every hunk's file is one of them, and the
    hunks under a key are the hunks of that file, in the order given. *)
Theorem X17_patch_groups_by_file : forall hs,
  NoDup (map fst (byFile hs)) /\
  (forall h, In h hs -> In (file h) (map fst (byFile hs))) /\
  (forall k vs, In (k, vs) (byFile hs) ->
     vs <> [] /\ vs = filter (fun h => String.eqb (file h) k) hs).
Proof.
  intros hs.
  assert (Hnd : NoDup (map fst (byFile hs)))
    by (apply (push_all_NoDup hs []); constructor).
  assert (Hf : forall k, map_find (byFile hs) k =
                         match filter (fun h => String.eqb (file h) k) hs with
                         | [] => None
                         | f => Some f
                         end).
  { intros k. apply (push_all_find hs [] k). }
  split; [assumption|]. split.
  - intros h Hin.
    assert (Hk : In h (filter (fun h0 => String.eqb (file h0) (file h)) hs)).
    { apply filter_In. split; [assumption | apply String.eqb_refl]. }
    specialize (Hf (file h)).
    destruct (filter (fun h0 => String.eqb (file h0) (file h)) hs) as [|x f];
      [destruct Hk|].
    apply map_find_In in Hf. apply (in_map fst) in Hf. exact Hf.
  - intros k vs Hin. apply (In_map_find _ _ _ Hnd) in Hin.
    rewrite Hf in Hin.
    destruct (filter (fun h => String.eqb (file h) k) hs) as [|x f];
      [discriminate|].
    injection Hin as <-. split; [discriminate | reflexivity].
Qed.

Lemma insert_hunk_perm : forall h l, Permutation (h :: l) (insert_hunk h l).
Proof.
  induction l as [|y ys IH]; cbn; [apply Permutation_refl|].
  destruct (oldStart h <=? oldStart y)%nat; [apply Permutation_refl|].
  eapply perm_trans; [apply perm_swap|]. now apply perm_skip.
Qed.

Lemma insert_hunk_ascending : forall h l,
  ascending l = true -> ascending (insert_hunk h l) = true.
Proof.
  induction l as [|y ys IH]; intros H; [reflexivity|].
  cbn [insert_hunk]. destruct (oldStart h <=? oldStart y)%nat eqn:E.
  - cbn [ascending]. rewrite E. exact H.
  - apply Nat.leb_gt in E.
    assert (Hys : ascending ys = true).
    { cbn [ascending] in H. destruct ys; [reflexivity|].
      now apply andb_true_iff in H. }
    specialize (IH Hys). destruct ys as [|z zs].
    + cbn. rewrite andb_true_r. apply Nat.leb_le. lia.
    + cbn [ascending] in H. apply andb_true_iff in H as [Hyz _].
      cbn [insert_hunk] in *.
      destruct (oldStart h <=? oldStart z)%nat.
      * cbn [ascending] in *. rewrite IH, andb_true_r.
        apply Nat.leb_le. lia.
      * cbn [ascending] in *. now rewrite Hyz, IH.
Qed.

Lemma insert_hunk_stable : forall n h l,
  filter (fun x => (oldStart x =? n)%nat) (insert_hunk h l) =
  filter (fun x => (oldStart x =? n)%nat) (h :: l).
Proof.
  induction l as [|y ys IH]; [reflexivity|].
  cbn [insert_hunk]. destruct (oldStart h <=? oldStart y)%nat eqn:E;
    [reflexivity|].
  apply Nat.leb_gt in E. cbn [filter] in *. rewrite IH.
  destruct (oldStart h =? n)%nat eqn:Eh; [|reflexivity].
  destruct (oldStart y =? n)%nat eqn:Ey; [|reflexivity].
  apply Nat.eqb_eq in Eh, Ey. lia.
Qed.

(** X18: within a file the generator orders the hunks by [oldStart]: the
    sorted list is a permutation of the hunks, it is ascending, and hunks
    with the same [oldStart] keep the order they were given in. *)
Theorem X18_patch_orders_hunks : forall l,
  Permutation l (sort_hunks l) /\
  ascending (sort_hunks l) = true /\
  (forall n, filter (fun x => (oldStart x =? n)%nat) (sort_hunks l) =
             filter (fun x => (oldStart x =? n)%nat) l).
Proof.
  induction l as [|h l (Hp & Ha & Hs)]; [repeat split; constructor|].
  cbn [sort_hunks fold_right]. fold (sort_hunks l). split; [|split].
  - eapply perm_trans; [apply perm_skip, Hp | apply insert_hunk_perm].
  - now apply insert_hunk_ascending.
  - intros n. rewrite insert_hunk_stable. cbn [filter]. now rewrite Hs.
Qed.

(** ** Selecting hunks and lines by id *)

Lemma classify_fold : forall ids W0 L0,
  exists L,
    fold_left classify_id ids (W0, L0) = (W0 ++ whole_ids ids, L) /\
    forall k,
      map_find L k =
      match asked_lines ids k with
      | [] => map_find L0 k
      | f => Some (match map_find L0 k with Some vs => vs | None => [] end
                   ++ f)
      end.
Proof.
  induction ids as [|i ids IH]; intros W0 L0.
  - exists L0. cbn. now rewrite app_nil_r.
  - cbn [fold_left whole_ids asked_lines flat_map].
    unfold classify_id at 2.
    destruct (parseHunkId i) as [b [n|]].
    + destruct (IH W0 (map_push L0 b n)) as (L & HL & Hf).
      exists L. split; [exact HL|].
      intros k. rewrite Hf, map_find_push.
      fold (asked_lines ids k).
      destruct (String.eqb b k) eqn:E.
      * apply String.eqb_eq in E. subst b. cbn [app].
        destruct (asked_lines ids k); [reflexivity|].
        now rewrite <- app_assoc.
      * reflexivity.
    + destruct (IH (W0 ++ [b]) L0) as (L & HL & Hf).
      exists L. split.
      * rewrite HL. fold (whole_ids ids). now rewrite <- app_assoc.
      * intros k. rewrite Hf. reflexivity.
Qed.

Lemma whole_ids_plain : forall ids,
  (forall i, In i ids -> match_line_id i = None) -> whole_ids ids = ids.
Proof.
  induction ids as [|i ids IH]; intros H; [reflexivity|].
  cbn [whole_ids flat_map]. unfold parseHunkId at 1.
  rewrite (H i (or_introl eq_refl)). cbn [app]. fold (whole_ids ids).
  now rewrite IH by (intros j Hj; apply H; now right).
Qed.

Lemma asked_lines_plain : forall ids k,
  (forall i, In i ids -> match_line_id i = None) -> asked_lines ids k = [].
Proof.
  induction ids as [|i ids IH]; intros k H; [reflexivity|].
  cbn [asked_lines flat_map]. unfold parseHunkId at 1.
  rewrite (H i (or_introl eq_refl)). cbn [app]. fold (asked_lines ids k).
  now rewrite IH by (intros j Hj; apply H; now right).
Qed.

(** X19: with ids that are not line ids, [selectHunksWithLines] is
    [selectHunks]. *)
Theorem X19_whole_ids_select_as_selectHunks : forall d ids,
  (forall i, In i ids -> match_line_id i = None) ->
  selectHunksWithLines d ids = selectHunks d ids.
Proof.
  intros d ids H. unfold selectHunksWithLines, selectHunks.
  destruct (classify_fold ids [] []) as (L & HL & Hf).
  change ([] ++ whole_ids ids) with (whole_ids ids) in HL.
  cbn [map_find] in Hf. rewrite HL.
  rewrite (whole_ids_plain ids H). cbn [app].
  induction (getAllHunks d) as [|h hs IH]; [reflexivity|].
  cbn [flat_map filter]. rewrite IH.
  destruct (existsb (String.eqb (id h)) ids); [reflexivity|].
  rewrite Hf, (asked_lines_plain ids (id h) H). reflexivity.
Qed.

Lemma X19_whole_ids_select_as_selectHunks_witness :
  selectHunksWithLines (parseDiff simple_diff) ["file.txt:0"] =
  selectHunks (parseDiff simple_diff) ["file.txt:0"].
Proof.
  apply X19_whole_ids_select_as_selectHunks.
  intros i [<-|[]]. reflexivity.
Defined.

Lemma named_split : forall ids h,
  named ids h =
  existsb (String.eqb (id h)) (whole_ids ids) ||
  match asked_lines ids (id h) with [] => false | _ => true end.
Proof.
  induction ids as [|i ids IH]; intros h; [reflexivity|].
  unfold named in *. cbn [existsb whole_ids asked_lines flat_map].
  fold (whole_ids ids). fold (asked_lines ids (id h)). rewrite IH.
  destruct (parseHunkId i) as [b [n|]]; cbn [fst app].
  - destruct (String.eqb b (id h)); cbn [app orb].
    + now rewrite orb_true_r.
    + reflexivity.
  - change ([b] ++ whole_ids ids) with (b :: whole_ids ids).
    change ([] ++ asked_lines ids (id h)) with (asked_lines ids (id h)).
    cbn [existsb]. rewrite (String.eqb_sym (id h) b).
    now rewrite orb_assoc.
Qed.

Lemma editHunk_id : forall h m, id (editHunk h m) = id h.
Proof. intros h m. unfold editHunk. now destruct (count_loop 0 0 _). Qed.

(** X20: the result holds one hunk for each hunk of the diff that some id
    names, as a whole or through one of its lines, in the order of the
    diff and under the same id. *)
Theorem X20_selected_hunks_are_the_named_ones : forall d ids,
  map id (selectHunksWithLines d ids) =
  map id (filter (named ids) (getAllHunks d)).
Proof.
  intros d ids. unfold selectHunksWithLines.
  destruct (classify_fold ids [] []) as (L & HL & Hf).
  change ([] ++ whole_ids ids) with (whole_ids ids) in HL.
  cbn [map_find] in Hf. rewrite HL.
  cbn [app].
  induction (getAllHunks d) as [|h hs IH]; [reflexivity|].
  cbn [flat_map filter]. rewrite map_app, IH, named_split.
  destruct (existsb (String.eqb (id h)) (whole_ids ids)); [reflexivity|].
  rewrite Hf. cbn [orb map_find].
  destruct (asked_lines ids (id h)); [reflexivity|].
  cbn [map app]. now rewrite editHunk_id.
Qed.

Lemma has_unselected : forall sel ls k i,
  has (unselected_additions sel k ls) i = true <->
  exists l, k <= i /\ nth_error ls (i - k) = Some l /\
            type l = Add /\ has sel i = false.
Proof.
  induction ls as [|l ls IH]; intros k i.
  - cbn. split; [discriminate|].
    intros (l & _ & H & _). destruct (i - k); discriminate.
  - cbn [unselected_additions].
    assert (Hrest : has (unselected_additions sel (S k) ls) i = true <->
                    exists l', S k <= i /\ nth_error (l :: ls) (i - k) = Some l'
                               /\ type l' = Add /\ has sel i = false).
    { rewrite IH. split; intros (l' & Hk & Hn & Ht & Hs); exists l';
        (split; [assumption|]); (split; [|auto]).
      - replace (i - k) with (S (i - S k)) by lia. exact Hn.
      - replace (i - k) with (S (i - S k)) in Hn by lia. exact Hn. }
    destruct (LineType_eqb (type l) Add && negb (has sel k)) eqn:E.
    + unfold has at 1. cbn [existsb]. fold (has (unselected_additions sel (S k) ls) i).
      rewrite orb_true_iff, Hrest. apply andb_true_iff in E as [Et Es].
      apply negb_true_iff in Es.
      split.
      * intros [Ei|(l' & Hk & Hrem)].
        -- apply Nat.eqb_eq in Ei. subst i. exists l.
           rewrite Nat.sub_diag. repeat split; auto.
           now destruct (type l).
        -- exists l'. split; [lia | exact Hrem].
      * intros (l' & Hk & Hn & Ht & Hs).
        destruct (Nat.eq_dec i k) as [->|Hne];
          [left; apply Nat.eqb_refl|].
        right. exists l'. repeat split; auto. lia.
    + rewrite Hrest. split.
      * intros (l' & Hk & Hrem). exists l'. split; [lia | exact Hrem].
      * intros (l' & Hk & Hn & Ht & Hs).
        destruct (Nat.eq_dec i k) as [->|Hne].
        -- rewrite Nat.sub_diag in Hn. cbn in Hn. injection Hn as <-.
           rewrite Ht, Hs in E. discriminate E.
        -- exists l'. repeat split; auto. lia.
Qed.

Lemma edit_lines_keep_selected : forall A sel ls k,
  (forall j l, nth_error ls j = Some l -> type l = Add ->
               has A (k + j) = negb (has sel (k + j))) ->
  edit_lines A [] k ls = keep_selected sel k ls.
Proof.
  induction ls as [|l ls IH]; intros k H; [reflexivity|].
  cbn [edit_lines keep_selected].
  rewrite IH by (intros j l' Hj Ht;
                 replace (S k + j) with (k + S j) by lia;
                 apply (H (S j) l' Hj Ht)).
  destruct (type l) eqn:Et; cbn [LineType_eqb andb]; try reflexivity.
  rewrite <- (Nat.add_0_r k) at 1 3.
  rewrite (H 0 l eq_refl Et), Nat.add_0_r.
  now destruct (has sel k).
Qed.

Lemma select_lines_spec : forall sel ls,
  edit_lines (unselected_additions sel 0 ls) [] 0 ls = keep_selected sel 0 ls.
Proof.
  intros sel ls. apply edit_lines_keep_selected. intros j l Hj Ht.
  cbn [Nat.add].
  destruct (has sel j) eqn:Es; cbn [negb].
  - destruct (has (unselected_additions sel 0 ls) j) eqn:E; [|reflexivity].
    apply has_unselected in E as (l' & _ & _ & _ & E). congruence.
  - apply has_unselected. exists l. rewrite Nat.sub_0_r.
    repeat split; auto. lia.
Qed.

(** X21: a whole-hunk id wins over line ids: a hunk of the diff named by a
    whole-hunk id is in the result as it is. Without one, a hunk named by
    line ids is in the result with the additions at the asked positions
    only, every context line and removal kept, and counts that agree with
    its lines. *)
Theorem X21_line_selection : forall d ids h,
  In h (getAllHunks d) ->
  (In (id h) (whole_ids ids) -> In h (selectHunksWithLines d ids)) /\
  (~ In (id h) (whole_ids ids) -> asked_lines ids (id h) <> [] ->
   exists o, In o (selectHunksWithLines d ids) /\
             id o = id h /\
             lines o = keep_selected (asked_lines ids (id h)) 0 (lines h) /\
             count_consistent o).
Proof.
  intros d ids h Hin. unfold selectHunksWithLines.
  destruct (classify_fold ids [] []) as (L & HL & Hf).
  change ([] ++ whole_ids ids) with (whole_ids ids) in HL.
  cbn [map_find] in Hf. rewrite HL.
  cbn [app]. split.
  - intros Hw. apply in_flat_map. exists h. split; [assumption|].
    assert (E : existsb (String.eqb (id h)) (whole_ids ids) = true).
    { apply existsb_exists. exists (id h).
      split; [assumption | apply String.eqb_refl]. }
    rewrite E. now left.
  - intros Hw Hl.
    exists (editHunk h
              (mkMods (Some (unselected_additions (asked_lines ids (id h)) 0
                               (lines h))) None)).
    split; [|split; [apply editHunk_id|split]].
    + apply in_flat_map. exists h. split; [assumption|].
      assert (E : existsb (String.eqb (id h)) (whole_ids ids) = false).
      { apply not_true_is_false. intros E. apply Hw.
        apply existsb_exists in E as (x & Hx & E).
        apply String.eqb_eq in E. now rewrite E. }
      rewrite E, Hf. cbn [map_find].
      destruct (asked_lines ids (id h)); [contradiction|]. now left.
    + rewrite editHunk_lines. cbn [set_of removeAdditions keepRemovals].
      apply select_lines_spec.
    + apply editHunk_counts.
Qed.

Lemma X21_line_selection_witness :
  exists o, In o (selectHunksWithLines (parseDiff two_adds_diff) ["f:0:2"]) /\
            lines o = [mkLine Context "c"; mkLine Add "b"].
Proof.
  destruct (X21_line_selection (parseDiff two_adds_diff) ["f:0:2"]
              (mkHunk "f:0" "f" 0 "@@ -1,1 +1,3 @@" 1 1 1 3
                 [mkLine Add "a"; mkLine Context "c"; mkLine Add "b"] None))
    as [_ H].
  - left. reflexivity.
  - destruct H as (o & Ho & _ & Hl & _).
    + intros [].
    + discriminate.
    + exists o. split; [exact Ho | exact Hl].
Defined.

(** ** The view of a hunk given to the model *)

Lemma old_lines_cons : forall l ls,
  old_lines (l :: ls) =
  (match type l with Add => 0 | _ => 1 end) + old_lines ls.
Proof. intros [[] c] ls; reflexivity. Qed.

Lemma new_lines_cons : forall l ls,
  new_lines (l :: ls) =
  (match type l with Remove => 0 | _ => 1 end) + new_lines ls.
Proof. intros [[] c] ls; reflexivity. Qed.

Lemma index_lines_spec : forall ls i o n,
  snd (fst (index_lines i o n ls)) = indices_of Add i ls /\
  snd (index_lines i o n ls) = indices_of Remove i ls /\
  length (fst (fst (index_lines i o n ls))) = length ls /\
  forall j l, nth_error ls j = Some l ->
    nth_error (fst (fst (index_lines i o n ls))) j =
    Some (mkIndexed (i + j) (type l) (content l)
            (match type l with
             | Add => None
             | _ => Some (o + old_lines (firstn j ls))
             end)
            (match type l with
             | Remove => None
             | _ => Some (n + new_lines (firstn j ls))
             end)).
Proof.
  induction ls as [|[t c] ls IH]; intros i o n.
  - cbn. repeat split; auto. intros j l H. destruct j; discriminate.
  - cbn [index_lines type content indices_of].
    destruct t; cbn [LineType_eqb].
    + destruct (IH (S i) (S o) (S n)) as (Ha & Hr & Hl & Hn).
      destruct (index_lines (S i) (S o) (S n) ls) as [[ils adds] rems].
      cbn [fst snd] in *. repeat split; auto; [cbn; lia|].
      intros [|j] l H; cbn [nth_error] in *.
      * injection H as <-. cbn. now rewrite !Nat.add_0_r.
      * rewrite (Hn j l H). cbn [firstn].
        rewrite old_lines_cons, new_lines_cons. cbn [type].
        replace (S i + j) with (i + S j) by lia.
        replace (S o + old_lines (firstn j ls))
          with (o + (1 + old_lines (firstn j ls))) by lia.
        replace (S n + new_lines (firstn j ls))
          with (n + (1 + new_lines (firstn j ls))) by lia.
        reflexivity.
    + destruct (IH (S i) o (S n)) as (Ha & Hr & Hl & Hn).
      destruct (index_lines (S i) o (S n) ls) as [[ils adds] rems].
      cbn [fst snd] in *. repeat split; auto;
        [now rewrite Ha | cbn; lia |].
      intros [|j] l H; cbn [nth_error] in *.
      * injection H as <-. cbn. now rewrite !Nat.add_0_r.
      * rewrite (Hn j l H). cbn [firstn].
        rewrite old_lines_cons, new_lines_cons. cbn [type].
        replace (S i + j) with (i + S j) by lia.
        replace (S n + new_lines (firstn j ls))
          with (n + (1 + new_lines (firstn j ls))) by lia.
        reflexivity.
    + destruct (IH (S i) (S o) n) as (Ha & Hr & Hl & Hn).
      destruct (index_lines (S i) (S o) n ls) as [[ils adds] rems].
      cbn [fst snd] in *. repeat split; auto;
        [now rewrite Hr | cbn; lia |].
      intros [|j] l H; cbn [nth_error] in *.
      * injection H as <-. cbn. now rewrite !Nat.add_0_r.
      * rewrite (Hn j l H). cbn [firstn].
        rewrite old_lines_cons, new_lines_cons. cbn [type].
        replace (S i + j) with (i + S j) by lia.
        replace (S o + old_lines (firstn j ls))
          with (o + (1 + old_lines (firstn j ls))) by lia.
        reflexivity.
Qed.

Lemma hunkToLLMHunk_fields : forall h,
  l_id (hunkToLLMHunk h) = id h /\
  splittable (hunkToLLMHunk h) = isSplittable h 1 /\
  l_lines (hunkToLLMHunk h) =
    fst (fst (index_lines 0 (oldStart h) (newStart h) (lines h))) /\
  addedLineIndices (hunkToLLMHunk h) =
    snd (fst (index_lines 0 (oldStart h) (newStart h) (lines h))) /\
  removedLineIndices (hunkToLLMHunk h) =
    snd (index_lines 0 (oldStart h) (newStart h) (lines h)) /\
  complexityHint (hunkToLLMHunk h) =
    estimate_complexity (addedLineIndices (hunkToLLMHunk h))
      (removedLineIndices (hunkToLLMHunk h)) (isSplittable h 1).
Proof.
  intros h. unfold hunkToLLMHunk.
  destruct (index_lines 0 (oldStart h) (newStart h) (lines h))
    as [[ils adds] rems].
  cbn. repeat split; reflexivity.
Qed.

(** X22: for a hunk whose line numbers stay below 2^53 (start line plus
    number of lines, on either side), the indexed view lists the lines of
    the hunk one for one: line [i] carries index [i], its type and
    content, the old line number [oldStart] plus the old-side lines above
    it unless it is an addition, and the new line number [newStart] plus
    the new-side lines above it unless it is a removal.
    [addedLineIndices] and [removedLineIndices] are the positions of the
    additions and of the removals, ascending. *)
Theorem X22_indexed_view : forall h,
  safe (oldStart h + length (lines h)) ->
  safe (newStart h + length (lines h)) ->
  addedLineIndices (hunkToLLMHunk h) = indices_of Add 0 (lines h) /\
  removedLineIndices (hunkToLLMHunk h) = indices_of Remove 0 (lines h) /\
  length (l_lines (hunkToLLMHunk h)) = length (lines h) /\
  forall i l, nth_error (lines h) i = Some l ->
    nth_error (l_lines (hunkToLLMHunk h)) i =
    Some (mkIndexed i (type l) (content l)
            (match type l with
             | Add => None
             | _ => Some (oldStart h + old_lines (firstn i (lines h)))
             end)
            (match type l with
             | Remove => None
             | _ => Some (newStart h + new_lines (firstn i (lines h)))
             end)).
Proof.
  intros h _ _.
  destruct (hunkToLLMHunk_fields h) as (_ & _ & Hl & Ha & Hr & _).
  destruct (index_lines_spec (lines h) 0 (oldStart h) (newStart h))
    as (Sa & Sr & Sl & Sn).
  rewrite Hl, Ha, Hr. repeat split; auto.
Qed.

Lemma X22_indexed_view_witness :
  nth_error (l_lines (hunkToLLMHunk gap_hunk)) 5 =
  Some (mkIndexed 5 Add "added 2" None (Some 6)).
Proof.
  refine (proj2 (proj2 (proj2 (X22_indexed_view gap_hunk _ _)))
            5 (mkLine Add "added 2") eq_refl).
  - reflexivity.
  - reflexivity.
Defined.

Lemma bucket_fold : forall hs s p c,
  fold_left bucket_step (map hunkToLLMHunk hs) (s, p, c) =
  (s ++ map id (filter (fun h => negb (isSplittable h 1) &&
                          (complexityHint (hunkToLLMHunk h) =? 1)%nat) hs),
   p ++ map id (filter (fun h => isSplittable h 1) hs),
   c ++ map id (filter (fun h => (complexityHint (hunkToLLMHunk h) =? 4)%nat)
                  hs)).
Proof.
  induction hs as [|h hs IH]; intros s p c.
  - cbn. now rewrite !app_nil_r.
  - cbn [map fold_left filter]. unfold bucket_step at 2.
    destruct (hunkToLLMHunk_fields h) as (Hid & Hs & _ & _ & _ & Hc).
    rewrite Hs, Hid, Hc. unfold estimate_complexity.
    destruct (isSplittable h 1); cbn [negb andb].
    + rewrite IH.
      destruct ((1 <? length (addedLineIndices (hunkToLLMHunk h)))%nat
                || (1 <? length (removedLineIndices (hunkToLLMHunk h)))%nat);
        cbn; now rewrite <- app_assoc.
    + destruct (length (addedLineIndices (hunkToLLMHunk h))) as [|[|a]];
        destruct (length (removedLineIndices (hunkToLLMHunk h)))
          as [|[|r]]; cbn; rewrite IH; now rewrite <- ?app_assoc.
Qed.

(** X23: the analysis sorts every hunk into exactly one bucket, in the
    order of the diff: [splittableHunks] holds the splittable hunks,
    [complexHunks] the hunks of complexity hint 4, [simpleHunks] the hunks
    that are not splittable and have hint 1; together they are as many as
    [totalHunks]. *)
Theorem X23_analysis_buckets : forall d,
  let all := getAllHunks d in
  splittableHunks (analyzeHunks d) =
    map id (filter (fun h => isSplittable h 1) all) /\
  complexHunks (analyzeHunks d) =
    map id (filter (fun h => (complexityHint (hunkToLLMHunk h) =? 4)%nat)
              all) /\
  simpleHunks (analyzeHunks d) =
    map id (filter (fun h => negb (isSplittable h 1) &&
                      (complexityHint (hunkToLLMHunk h) =? 1)%nat) all) /\
  totalHunks (analyzeHunks d) =
    length (simpleHunks (analyzeHunks d)) +
    length (splittableHunks (analyzeHunks d)) +
    length (complexHunks (analyzeHunks d)).
Proof.
  intros d all. unfold analyzeHunks. fold all.
  rewrite (bucket_fold all [] [] []). cbn [app splittableHunks complexHunks
    simpleHunks totalHunks].
  repeat split; auto.
  rewrite !app_nil_l, !length_map.
  induction all as [|h hs IH]; [reflexivity|].
  cbn [filter length].
  destruct (hunkToLLMHunk_fields h) as (_ & _ & _ & _ & _ & Hc).
  rewrite Hc. unfold estimate_complexity.
  destruct (isSplittable h 1); cbn [negb andb].
  - destruct ((1 <? length (addedLineIndices (hunkToLLMHunk h)))%nat
              || (1 <? length (removedLineIndices (hunkToLLMHunk h)))%nat);
      cbn; lia.
  - destruct ((1 <? length (addedLineIndices (hunkToLLMHunk h)))%nat
              || (1 <? length (removedLineIndices (hunkToLLMHunk h)))%nat);
      cbn; lia.
Qed.

(** ** Runs of the executor *)

Section ExecutorRuns.

Variable World : Type.
Variable check : string -> World -> CheckResult * World.
Variable apply : string -> World -> ApplyResult * World.
Variable diff : ParsedDiff.

Lemma execLoop_failed : forall sels staged w r w',
  execLoop World check apply diff sels staged w = (r, w') ->
  ok r = false ->
  error r <> None /\
  exists rest, rest <> [] /\
    staged ++ map hunkId (attempted sels) = stagedHunks r ++ rest.
Proof.
  induction sels as [|s sels IH]; intros staged w r w'.
  - cbn. intros H Hok. injection H as <- <-. discriminate Hok.
  - assert (Hcons : mode s <> ModeNone ->
                    attempted (s :: sels) = s :: attempted sels).
    { intros Hm. unfold attempted. cbn [filter].
      destruct (mode s); [reflexivity | congruence | reflexivity]. }
    assert (Hstep :
      mode s <> ModeNone ->
      match getHunk diff (hunkId s) with
      | None =>
          (mkExec false (Some ("Hunk not found: " +++ hunkId s)) staged, w)
      | Some hunk =>
          let patch := selection_patch hunk s in
          let (c, w1) := check patch w in
          if negb (applies c) then
            (mkExec false
               (Some ("Patch for " +++ hunkId s +++ " won't apply: " +++
                      show (check_error c))) staged, w1)
          else
            let (a, w2) := apply patch w1 in
            if negb (success a) then
              (mkExec false
                 (Some ("Failed to stage " +++ hunkId s +++ ": " +++
                        show (apply_error a))) staged, w2)
            else execLoop World check apply diff sels
                   (staged ++ [hunkId s]) w2
      end = (r, w') ->
      ok r = false ->
      error r <> None /\
      exists rest, rest <> [] /\
        staged ++ map hunkId (attempted (s :: sels)) =
        stagedHunks r ++ rest).
    { intros Hm. rewrite (Hcons Hm). cbn [map].
      destruct (getHunk diff (hunkId s)) as [h|].
      - cbv zeta. destruct (check (selection_patch h s) w) as [c w1].
        destruct (negb (applies c)).
        + intros H _. injection H as <- <-. cbn. split; [discriminate|].
          eexists. split; [|reflexivity]. discriminate.
        + destruct (apply (selection_patch h s) w1) as [a w2].
          destruct (negb (success a)).
          * intros H _. injection H as <- <-. cbn. split; [discriminate|].
            eexists. split; [|reflexivity]. discriminate.
          * intros H Hok. destruct (IH _ _ _ _ H Hok) as (He & rest & Hr & E).
            split; [exact He|]. exists rest. split; [exact Hr|].
            rewrite <- E, <- app_assoc. reflexivity.
      - intros H _. injection H as <- <-. cbn. split; [discriminate|].
        eexists. split; [|reflexivity]. discriminate. }
    cbn [execLoop]. destruct (mode s) eqn:Em.
    + apply Hstep. discriminate.
    + unfold attempted. cbn [filter]. rewrite Em. cbn [is_none negb].
      apply IH.
    + apply Hstep. discriminate.
Qed.

Lemma traced_run : forall sels staged w t0,
  exists r w' t1,
    execLoop (World * list Call) (traced_check World check)
      (traced_apply World apply) diff sels staged (w, t0) =
    (r, (w', t0 ++ t1)) /\
    execLoop World check apply diff sels staged w = (r, w') /\
    orderly t1 = true /\
    length staged + length (filter applied_ok t1) = length (stagedHunks r).
Proof.
  induction sels as [|s sels IH]; intros staged w t0.
  - exists (mkExec true None staged), w, []. cbn.
    rewrite app_nil_r. repeat split; auto.
  - assert (Hstep :
      exists r w' t1,
        match getHunk diff (hunkId s) with
        | None =>
            (mkExec false (Some ("Hunk not found: " +++ hunkId s)) staged,
             (w, t0))
        | Some hunk =>
            let patch := selection_patch hunk s in
            let (c, w1) := traced_check World check patch (w, t0) in
            if negb (applies c) then
              (mkExec false
                 (Some ("Patch for " +++ hunkId s +++ " won't apply: " +++
                        show (check_error c))) staged, w1)
            else
              let (a, w2) := traced_apply World apply patch w1 in
              if negb (success a) then
                (mkExec false
                   (Some ("Failed to stage " +++ hunkId s +++ ": " +++
                          show (apply_error a))) staged, w2)
              else execLoop (World * list Call) (traced_check World check)
                     (traced_apply World apply) diff sels
                     (staged ++ [hunkId s]) w2
        end = (r, (w', t0 ++ t1)) /\
        match getHunk diff (hunkId s) with
        | None =>
            (mkExec false (Some ("Hunk not found: " +++ hunkId s)) staged, w)
        | Some hunk =>
            let patch := selection_patch hunk s in
            let (c, w1) := check patch w in
            if negb (applies c) then
              (mkExec false
                 (Some ("Patch for " +++ hunkId s +++ " won't apply: " +++
                        show (check_error c))) staged, w1)
            else
              let (a, w2) := apply patch w1 in
              if negb (success a) then
                (mkExec false
                   (Some ("Failed to stage " +++ hunkId s +++ ": " +++
                          show (apply_error a))) staged, w2)
              else execLoop World check apply diff sels
                     (staged ++ [hunkId s]) w2
        end = (r, w') /\
        orderly t1 = true /\
        length staged + length (filter applied_ok t1) =
        length (stagedHunks r)).
    { destruct (getHunk diff (hunkId s)) as [h|].
      - cbv zeta. unfold traced_check, traced_apply. cbn [fst snd].
        destruct (check (selection_patch h s) w) as [c w1].
        destruct (applies c) eqn:Ec; cbn [negb].
        + cbn [fst snd].
          destruct (apply (selection_patch h s) w1) as [a w2].
          destruct (success a) eqn:Ea; cbn [negb].
          * destruct (IH (staged ++ [hunkId s]) w2
                        ((t0 ++ [Checked (selection_patch h s) true]) ++
                         [Applied (selection_patch h s) true]))
              as (r & w' & t1 & H1 & H2 & H3 & H4).
            exists r, w',
              (Checked (selection_patch h s) true ::
               Applied (selection_patch h s) true :: t1).
            split; [|split; [exact H2|split]].
            -- refine (eq_trans H1 _). rewrite <- !app_assoc. reflexivity.
            -- cbn [orderly]. now rewrite String.eqb_refl, H3.
            -- cbn [filter applied_ok length]. rewrite <- H4, length_app.
               cbn. lia.
          * eexists _, _,
              [Checked (selection_patch h s) true;
               Applied (selection_patch h s) false].
            split; [|split; [reflexivity|split]].
            -- rewrite <- !app_assoc. reflexivity.
            -- cbn [orderly]. now rewrite String.eqb_refl.
            -- cbn. lia.
        + eexists _, _, [Checked (selection_patch h s) false].
          split; [reflexivity|]. split; [reflexivity|].
          split; [reflexivity | cbn; lia].
      - eexists _, _, []. rewrite app_nil_r.
        split; [reflexivity|]. split; [reflexivity|].
        split; [reflexivity | cbn; lia]. }
    cbn [execLoop]. destruct (mode s); [exact Hstep | apply IH | exact Hstep].
Qed.

End ExecutorRuns.

(** X24: [stagedHunks] always lists the ids of the selections that were
    staged, in plan order: on success they are the ids of all selections
    that are not skipped and no error is given; on failure an error is
    given and they are a proper initial part of that list. *)
Theorem X24_result_shape :
  forall (World : Type) (check : string -> World -> CheckResult * World)
         (apply : string -> World -> ApplyResult * World)
         (diff : ParsedDiff) (plan : StagingPlan) (w : World),
  let r := fst (executeStagingPlan World check apply diff plan w) in
  (ok r = true ->
   error r = None /\
   stagedHunks r = map hunkId (attempted (selections plan))) /\
  (ok r = false ->
   error r <> None /\
   exists rest, rest <> [] /\
     map hunkId (attempted (selections plan)) = stagedHunks r ++ rest).
Proof.
  intros World check apply diff plan w. unfold executeStagingPlan.
  destruct (execLoop World check apply diff (selections plan) [] w)
    as [r w'] eqn:E.
  cbn [fst]. split; intros Hok.
  - apply (execLoop_ok_staged World check apply diff _ _ _ _ _ E Hok).
  - apply (execLoop_failed World check apply diff _ _ _ _ _ E Hok).
Qed.

Lemma X24_result_shape_witness :
  stagedHunks
    (fst (executeStagingPlan Log check_any apply_record
            (parseDiff simple_diff)
            (mkPlan "one" [plain "file.txt:0" ModeAll]) [])) =
  ["file.txt:0"].
Proof.
  exact (proj2 (proj1 (X24_result_shape Log check_any apply_record
                         (parseDiff simple_diff)
                         (mkPlan "one" [plain "file.txt:0" ModeAll]) [])
                  eq_refl)).
Defined.

(** X25: the executor stops at the first failure of any kind (hunk not
    found, patch refused by the check, apply failed): when the run over
    the selections [pre] fails, the run over [pre] followed by any
    selections gives the same result and leaves the tool in the same
    state. *)
Theorem X25_stops_at_first_failure :
  forall (World : Type) (check : string -> World -> CheckResult * World)
         (apply : string -> World -> ApplyResult * World)
         (diff : ParsedDiff) (msg msg' : string)
         (pre post : list HunkSelection) (w : World),
  ok (fst (executeStagingPlan World check apply diff (mkPlan msg pre) w))
  = false ->
  executeStagingPlan World check apply diff (mkPlan msg' (pre ++ post)) w =
  executeStagingPlan World check apply diff (mkPlan msg pre) w.
Proof.
  intros World check apply diff msg msg' pre post w.
  unfold executeStagingPlan. cbn [selections]. rewrite execLoop_app.
  destruct (execLoop World check apply diff pre [] w) as [r w'].
  cbn [fst]. now intros ->.
Qed.

Lemma X25_stops_at_first_failure_witness :
  executeStagingPlan Log check_refuse apply_record (parseDiff simple_diff)
    (mkPlan "two"
       ([plain "file.txt:0" ModeAll] ++ [plain "file.txt:0" ModeAll])) [] =
  executeStagingPlan Log check_refuse apply_record (parseDiff simple_diff)
    (mkPlan "one" [plain "file.txt:0" ModeAll]) [].
Proof.
  apply X25_stops_at_first_failure. reflexivity.
Defined.

(** X26: the executor applies only what the check accepted: in the
    sequence of calls it makes to the tool, each patch is checked, then
    applied exactly when the check accepted it and with the same text, and
    no call follows a refusal or a failed apply. The successful applies
    are as many as [stagedHunks], and writing the calls down changes
    neither the result nor the state of the tool. *)
Theorem X26_applies_only_checked_patches :
  forall (World : Type) (check : string -> World -> CheckResult * World)
         (apply : string -> World -> ApplyResult * World)
         (diff : ParsedDiff) (plan : StagingPlan) (w : World),
  exists r w' calls,
    executeStagingPlan (World * list Call) (traced_check World check)
      (traced_apply World apply) diff plan (w, []) = (r, (w', calls)) /\
    executeStagingPlan World check apply diff plan w = (r, w') /\
    orderly calls = true /\
    length (filter applied_ok calls) = length (stagedHunks r).
Proof.
  intros World check apply diff plan w. unfold executeStagingPlan.
  destruct (traced_run World check apply diff (selections plan) [] w [])
    as (r & w' & t1 & H1 & H2 & H3 & H4).
  exists r, w', t1. repeat split; assumption.
Qed.

(** ** The worksheet *)

Lemma fresh_worksheet_selections : forall diff msg,
  worksheet_selections (generateWorksheet diff msg) = [].
Proof.
  intros diff msg. unfold worksheet_selections, generateWorksheet.
  cbn [w_files].
  induction (files diff) as [|f fs IH]; [reflexivity|].
  cbn [map flat_map w_hunks]. rewrite IH, app_nil_r.
  induction (hunks f) as [|h hs IHh]; [reflexivity|].
  cbn [map flat_map]. rewrite IHh. reflexivity.
Qed.

(** X27: the worksheet that [generateWorksheet] writes marks nothing:
    executing it as it is succeeds, stages no hunk and makes no call to
    the version-control tool. *)
Theorem X27_fresh_worksheet_stages_nothing :
  forall (World : Type) (check : string -> World -> CheckResult * World)
         (apply : string -> World -> ApplyResult * World)
         (diff : ParsedDiff) (msg : string) (w : World),
  executeWorksheet World check apply diff (generateWorksheet diff msg) w =
  (mkExec true None [], w).
Proof.
  intros World check apply diff msg w.
  unfold executeWorksheet, executeStagingPlan. cbn [selections].
  now rewrite fresh_worksheet_selections.
Qed.

Lemma worksheet_selections_ids : forall ws,
  map hunkId (attempted (worksheet_selections ws)) = map w_id (marked ws).
Proof.
  intros ws. unfold worksheet_selections, marked, attempted.
  induction (w_files ws) as [|f fs IH]; [reflexivity|].
  cbn [flat_map]. rewrite !filter_app, !map_app, IH. f_equal.
  induction (w_hunks f) as [|h hs IHh]; [reflexivity|].
  cbn [flat_map filter]. rewrite filter_app, map_app, IHh.
  unfold worksheet_selection.
  destruct (w_hunk_include h); reflexivity.
Qed.

(** X28: a worksheet that executes without failure stages the hunks
    marked [all] or [partial], in the order of the worksheet, and only
    those. *)
Theorem X28_worksheet_stages_marked_hunks :
  forall (World : Type) (check : string -> World -> CheckResult * World)
         (apply : string -> World -> ApplyResult * World)
         (diff : ParsedDiff) (ws : StagingWorksheet) (w : World),
  ok (fst (executeWorksheet World check apply diff ws w)) = true ->
  stagedHunks (fst (executeWorksheet World check apply diff ws w)) =
  map w_id (marked ws).
Proof.
  intros World check apply diff ws w. unfold executeWorksheet,
    executeStagingPlan. cbn [selections].
  destruct (execLoop World check apply diff (worksheet_selections ws) [] w)
    as [r w'] eqn:E.
  cbn [fst]. intros Hok.
  destruct (execLoop_ok_staged World check apply diff _ _ _ _ _ E Hok)
    as [_ Hs].
  rewrite Hs. apply worksheet_selections_ids.
Qed.

Lemma X28_worksheet_stages_marked_hunks_witness :
  stagedHunks
    (fst (executeWorksheet Log check_any apply_record
            (parseDiff simple_diff)
            (mkWorksheet "w"
               [mkWFile "file.txt"
                  [mkWHunk "file.txt:0" "+1 lines" false IncludeAll []]])
            [])) =
  ["file.txt:0"].
Proof.
  apply (X28_worksheet_stages_marked_hunks Log check_any apply_record
           (parseDiff simple_diff)
           (mkWorksheet "w"
              [mkWFile "file.txt"
                 [mkWHunk "file.txt:0" "+1 lines" false IncludeAll []]])
           []).
  reflexivity.
Defined.

(** ** The plan document *)

Lemma createSelection_id : forall i e a r ed,
  hunkId (createSelectionWithRemovals i e a r ed) = i.
Proof.
  intros i e a r ed. unfold createSelectionWithRemovals.
  destruct e; [reflexivity|].
  destruct ((0 <? length a)%nat || (0 <? length r)%nat
            || (0 <? length ed)%nat); reflexivity.
Qed.

Lemma flush_ids : forall s,
  map hunkId (flush s) =
  map hunkId (d_selections s) ++
  match currentHunkId s with Some i => [i] | None => [] end.
Proof.
  intros s. unfold flush. destruct (currentHunkId s).
  - rewrite map_app. cbn [map]. now rewrite createSelection_id.
  - now rewrite app_nil_r.
Qed.

Lemma selection_line_keeps : forall s l s',
  selection_line s l = Some s' ->
  d_selections s' = d_selections s /\ currentHunkId s' = currentHunkId s /\
  entireHunkSelected s' = entireHunkSelected s /\
  d_lineEdits s' = d_lineEdits s.
Proof.
  intros s l s'. unfold selection_line.
  destruct (match_add l); [intros H; injection H as <-; cbn; auto|].
  destruct (match_remove l); [intros H; injection H as <-; cbn; auto|].
  destruct (match_edit_mark l); [intros H; injection H as <-; cbn; auto|].
  discriminate.
Qed.

Lemma directive_line_keeps : forall s l,
  d_selections (directive_line s l) = d_selections s /\
  currentHunkId (directive_line s l) = currentHunkId s.
Proof.
  intros s l. unfold directive_line.
  destruct (match_edit_directive l) as [[d c]|]; [|split; reflexivity].
  destruct (currentHunkId s) eqn:E; cbn; rewrite ?E; split; reflexivity.
Qed.

Lemma doc_step_ids : forall s l,
  map hunkId (flush (doc_step s l)) =
  map hunkId (flush s) ++
  match match_hunk_heading l with Some i => [i] | None => [] end.
Proof.
  intros s l. rewrite (flush_ids (doc_step s l)). unfold doc_step.
  destruct (match_hunk_heading l) as [i|].
  - reflexivity.
  - rewrite app_nil_r, flush_ids.
    destruct (match_entire_hunk l); [reflexivity|].
    destruct (startsWith "```" l); [reflexivity|].
    destruct (if inCodeBlock s
              then match currentHunkId s with
                   | Some _ => selection_line s l
                   | None => None
                   end
              else None) as [s'|] eqn:E.
    + assert (Hs : selection_line s l = Some s').
      { destruct (inCodeBlock s); [|discriminate].
        destruct (currentHunkId s); [exact E | discriminate]. }
      destruct (selection_line_keeps s l s' Hs) as (-> & -> & _).
      reflexivity.
    + destruct (directive_line_keeps s l) as [-> ->]. reflexivity.
Qed.

Lemma doc_fold_ids : forall ls s,
  map hunkId (flush (fold_left doc_step ls s)) =
  map hunkId (flush s) ++ headings ls.
Proof.
  induction ls as [|l ls IH]; intros s.
  - cbn. now rewrite app_nil_r.
  - cbn [fold_left]. rewrite IH, doc_step_ids, <- app_assoc. reflexivity.
Qed.

(** X29: the plan holds the selections of the file-level checkboxes, then
    one selection for every hunk heading of the document, in order and
    under the id of the heading, whatever stands below the heading; a
    heading that occurs twice gives two selections. *)
Theorem X29_one_selection_per_heading : forall document diff,
  let ls := split_nl document in
  map hunkId (selections (parseStagingPlanDocument document diff)) =
  map hunkId (file_level diff (fileLevelSelections ls)) ++ headings ls.
Proof.
  intros document diff ls. unfold parseStagingPlanDocument,
    parseStagingPlanLines. cbn [selections]. fold ls.
  rewrite doc_fold_ids. unfold flush. cbn [currentHunkId d_selections].
  reflexivity.
Qed.

Lemma some_if_nonempty_filled : forall A (l : list A),
  filled (some_if_nonempty l).
Proof. intros A [|x l]; unfold filled; cbn; discriminate. Qed.

Lemma createSelection_wf : forall i e a r ed,
  selection_wf (createSelectionWithRemovals i e a r ed).
Proof.
  intros i e a r ed. unfold createSelectionWithRemovals, selection_wf.
  destruct e.
  - cbn. repeat split; try discriminate.
    apply some_if_nonempty_filled.
  - destruct a as [|x a]; destruct r as [|y r]; destruct ed as [|z ed];
      cbn; repeat split; try discriminate;
      try (left; discriminate); try (right; left; discriminate);
      try (right; right; discriminate).
Qed.

Lemma plain_wf : forall i m, m <> ModePartial -> selection_wf (plain i m).
Proof.
  intros i m Hm. unfold selection_wf, plain. cbn.
  repeat split; try discriminate. destruct m; auto; congruence.
Qed.

Lemma file_level_wf : forall diff fl,
  Forall selection_wf (file_level diff fl).
Proof.
  intros [d|] fl; [|constructor]. destruct fl as [|e fl]; [constructor|].
  unfold file_level. apply Forall_flat_map. apply Forall_forall.
  intros f _.
  destruct (match map_get (e :: fl) (newPath f) with
            | Some m => Some m
            | None => map_get (e :: fl) (oldPath f)
            end) as [[]|]; try constructor;
    apply Forall_map, Forall_forall; intros h _; apply plain_wf; discriminate.
Qed.

Lemma doc_step_wf : forall s l,
  Forall selection_wf (d_selections s) ->
  Forall selection_wf (d_selections (doc_step s l)).
Proof.
  intros s l H. unfold doc_step.
  destruct (match_hunk_heading l) as [i|].
  - cbn [d_selections]. unfold flush. destruct (currentHunkId s); [|exact H].
    apply Forall_app. split; [exact H|].
    constructor; [apply createSelection_wf | constructor].
  - destruct (match_entire_hunk l); [exact H|].
    destruct (startsWith "```" l); [exact H|].
    destruct (if inCodeBlock s
              then match currentHunkId s with
                   | Some _ => selection_line s l
                   | None => None
                   end
              else None) as [s'|] eqn:E.
    + assert (Hs : selection_line s l = Some s').
      { destruct (inCodeBlock s); [|discriminate].
        destruct (currentHunkId s); [exact E | discriminate]. }
      destruct (selection_line_keeps s l s' Hs) as (-> & _). exact H.
    + destruct (directive_line_keeps s l) as [-> _]. exact H.
Qed.

Lemma doc_fold_wf : forall ls s,
  Forall selection_wf (d_selections s) ->
  Forall selection_wf (d_selections (fold_left doc_step ls s)).
Proof.
  induction ls as [|l ls IH]; intros s H; [exact H|].
  cbn [fold_left]. apply IH. now apply doc_step_wf.
Qed.

(** X30: the plan parser writes no empty index list and no note: in every
    selection of a parsed plan, [includeAdditions], [includeRemovals] and
    [lineEdits] are absent or non-empty; a selection of mode [all] or
    [none] names no additions and no removals, one of mode [none] no line
    edit either; and one of mode [partial] names at least one addition,
    removal or line edit. *)
Theorem X30_parsed_selections_shape : forall document diff,
  Forall selection_wf (selections (parseStagingPlanDocument document diff)).
Proof.
  intros document diff. unfold parseStagingPlanDocument,
    parseStagingPlanLines. cbn [selections].
  set (s := fold_left doc_step _ _).
  assert (H : Forall selection_wf (d_selections s)).
  { apply doc_fold_wf. cbn [d_selections]. apply file_level_wf. }
  unfold flush. destruct (currentHunkId s); [|exact H].
  apply Forall_app. split; [exact H|].
  constructor; [apply createSelection_wf | constructor].
Qed.
